(** * lrzip-next, src/util.c: the encryption layer

    A shallow embedding of [xor128], [lrz_keygen], [lrz_crypt],
    [lrz_stretch] and [decrypt_header], and the properties of them that
    the specification states.

    The functions work on byte buffers through libgcrypt.  Buffers are
    lists of bytes addressed by an offset; an access outside a buffer is
    undefined behaviour in C and is the outcome [Undefined] here.  The
    libgcrypt calls are modelled by their documented behaviour over two
    primitives that stay abstract, the SHA-512 digest and the AES block
    permutation; the status code of every fallible libgcrypt call is read
    from a tape held in the [world], so that any pattern of library
    failures can be replayed; every call is appended to a log.

    The other functions of the file are embedded besides: the
    registration and removal of temporary files, [round_to_page],
    [round_up_page], [setup_overhead], [setup_ram], [get_rand] and
    [read_config].  What they take from the operating system and from
    lrzip_private.h stays a parameter of the embedding. *)

From Stdlib Require Import ZArith List Lia Bool.
From coqutil Require Import Byte Word.LittleEndianList.
From coqutil Require Import Z.bitblast.
From Stdlib Require Strings.String.
Import ListNotations.
Local Open Scope Z_scope.

(** ** Constants of lrzip_private.h *)

(** Modelled from the spec: lrzip_private.h is not among the sources; the
    digest size is 64 bytes (section 3, GlobalHash). *)
Definition HASH_LEN : Z := 64.

(** Modelled from the spec: lrzip_private.h is not among the sources; the
    salt is a 16-byte value (section 3, Salt). *)
Definition SALT_LEN : Z := 16.

(** Modelled from the spec: lrzip_private.h is not among the sources; the
    cipher block size is 16 bytes (section 4.3). *)
Definition CBC_LEN : Z := 16.

(** Modelled from the spec: the direction argument of the block transform,
    whose macros LRZ_ENCRYPT, LRZ_DECRYPT and LRZ_VALIDATE are declared in
    lrzip_private.h (section 4.3: direction is one of ENCRYPT, DECRYPT,
    VALIDATE). *)
Inductive direction : Type := LRZ_DECRYPT | LRZ_ENCRYPT | LRZ_VALIDATE.

(** ** Machine integers *)

(** Conversion to [int] (32 bits, two's complement). *)
Definition to_int (z : Z) : Z := (z + 2 ^ 31) mod 2 ^ 32 - 2 ^ 31.

(** Conversion to [i64]. *)
Definition to_i64 (z : Z) : Z := (z + 2 ^ 63) mod 2 ^ 64 - 2 ^ 63.

(** Conversion to [size_t] (64 bits, unsigned). *)
Definition to_size_t (z : Z) : Z := z mod 2 ^ 64.

(** ** Buffers *)

Definition mem : Type := list byte.

Definition zeros (n : Z) : mem := repeat Byte.x00 (Z.to_nat n).

Definition len (b : mem) : Z := Z.of_nat (length b).

(** [in_bounds b off n]: the [n] bytes at offset [off] lie inside [b]. *)
Definition in_bounds (b : mem) (off n : Z) : bool :=
  (0 <=? off) && (0 <=? n) && (off + n <=? len b).

(** The [n] bytes of [b] at offset [off], and [b] with [src] written at
    offset [off]. *)
Definition slice (b : mem) (off n : Z) : mem :=
  firstn (Z.to_nat n) (skipn (Z.to_nat off) b).

Definition splice (b : mem) (off : Z) (src : mem) : mem :=
  firstn (Z.to_nat off) b ++ src ++ skipn (Z.to_nat (off + len src)) b.

Definition load (b : mem) (off n : Z) : option mem :=
  if in_bounds b off n then Some (slice b off n) else None.

Definition store (b : mem) (off : Z) (src : mem) : option mem :=
  if in_bounds b off (len src) then Some (splice b off src) else None.

(** Modelled from the spec: the byte order of the host, which the sources
    do not fix, is the little-endian one that section 6 gives for the
    header fields.  An [i64] object is read from and written to memory in
    that order. *)
Definition load_i64 (b : mem) (off : Z) : option Z :=
  option_map (fun bs => to_i64 (le_combine bs)) (load b off 8).

Definition store_i64 (b : mem) (off : Z) (v : Z) : option mem :=
  store b off (le_split 8 v).

(** The object representation of an [i64] (in the byte order above) and
    of a [uchar], for [memcpy] from and to the object. *)
Definition i64_bytes (v : Z) : mem := le_split 8 v.
Definition i64_of_bytes (bs : mem) : Z := to_i64 (le_combine bs).
Definition uchar_bytes (c : byte) : mem := [c].
Definition uchar_of_bytes (bs : mem) : byte := hd Byte.x00 bs.

(** The bytes of [htole64 (j)] as they lie in memory. *)
Definition htole64_bytes (j : Z) : mem := le_split 8 j.

(** Byte-wise exclusive or, as the cipher modes apply it to blocks. *)
Fixpoint xor_bytes (a b : mem) : mem :=
  match a, b with
  | x :: a', y :: b' => byte.xor x y :: xor_bytes a' b'
  | _, _ => []
  end.

(** ** The outside world and the monad of the embedding *)

Inductive cipher_mode : Type := GCRY_CIPHER_MODE_CBC | GCRY_CIPHER_MODE_ECB.

(** The libgcrypt calls, as logged. *)
Inductive gcry_call : Type :=
| md_open_call
| md_write_call (data : mem)
| md_read_call
| md_reset_call
| md_close_call
| cipher_open_call (m : cipher_mode)
| cipher_setkey_call (m : cipher_mode) (keylen : Z)
| cipher_setiv_call (m : cipher_mode) (ivlen : Z)
| cipher_encrypt_call (m : cipher_mode) (keylen : Z) (n : Z)
| cipher_decrypt_call (m : cipher_mode) (keylen : Z) (n : Z)
| cipher_close_call (m : cipher_mode).

Record world : Type := mkWorld {
  status : list Z;          (* status codes of the fallible calls to come *)
  calls : list gcry_call    (* the calls made so far, oldest first *)
}.

Inductive outcome (A : Type) : Type :=
| Done (a : A) (w : world)
| Undefined.
Arguments Done {A} a w.
Arguments Undefined {A}.

Definition M (A : Type) : Type := world -> outcome A.

Definition ret {A} (a : A) : M A := fun w => Done a w.

Definition bind {A B} (m : M A) (k : A -> M B) : M B :=
  fun w => match m w with
           | Done a w' => k a w'
           | Undefined => Undefined
           end.

Notation "x <- m ;; k" := (bind m (fun x => k))
  (at level 61, m at next level, right associativity).
Notation "' p <- m ;; k" := (bind m (fun x => match x with p => k end))
  (at level 61, p pattern, m at next level, right associativity).
Notation "m ;;; k" := (bind m (fun _ => k))
  (at level 61, right associativity).

(** A memory access: undefined behaviour when it is out of bounds. *)
Definition access {A} (o : option A) : M A :=
  fun w => match o with Some a => Done a w | None => Undefined end.

(** The status code of the next fallible library call; a tape that has run
    out reads as success. *)
Definition next_status : M Z :=
  fun w => match status w with
           | [] => Done 0 w
           | e :: rest => Done e (mkWorld rest (calls w))
           end.

Definition log (c : gcry_call) : M unit :=
  fun w => Done tt (mkWorld (status w) (calls w ++ [c])).

(** [memcpy (dst + doff, src + soff, n)] and [memset (dst + doff, 0, n)];
    [n] is a [size_t]. *)
Definition memcpy (dst : mem) (doff : Z) (src : mem) (soff : Z) (n : Z) : M mem :=
  bytes <- access (load src soff (to_size_t n)) ;;
  access (store dst doff bytes).

Definition memset0 (dst : mem) (doff : Z) (n : Z) : M mem :=
  _ <- access (load dst doff (to_size_t n)) ;;
  access (store dst doff (zeros (to_size_t n))).

(** [wp m Q w]: run from [w], [m] returns, and [Q] holds of its result
    and of the world it leaves. *)
Definition wp {A} (m : M A) (Q : A -> world -> Prop) (w : world) : Prop :=
  match m w with
  | Done a w' => Q a w'
  | Undefined => False
  end.

(** [wlp m Q w]: if [m] returns when run from [w], then [Q] holds of its
    result and of the world it leaves. *)
Definition wlp {A} (m : M A) (Q : A -> world -> Prop) (w : world) : Prop :=
  match m w with
  | Done a w' => Q a w'
  | Undefined => True
  end.

(** The status that the next fallible call reads, the world after a
    fallible call [c], and the world after a call that cannot fail. *)
Definition st (w : world) : Z := hd 0 (status w).
Definition after (c : gcry_call) (w : world) : world :=
  mkWorld (tl (status w)) (calls w ++ [c]).
Definition logged (c : gcry_call) (w : world) : world :=
  mkWorld (status w) (calls w ++ [c]).

(** Every library call to come succeeds. *)
Definition all_ok (w : world) : Prop := Forall (fun e => e = 0) (status w).

(** ** Program state *)

(** The fields of [rzip_control] that the encryption layer reads. *)
Record rzip_control : Type := mkControl {
  hash : mem;            (* control->hash, HASH_LEN bytes *)
  salt_pass : mem;       (* control->salt_pass *)
  salt_pass_len : Z;     (* control->salt_pass_len *)
  encloops : Z           (* control->encloops *)
}.

(** A hash handle holds the bytes written so far; [None] is the NULL
    handle that a failed [gcry_md_open] leaves behind. *)
Definition gcry_md_hd_t : Type := option mem.

Record gcry_cipher_hd_t : Type := mkCipher {
  hd_mode : cipher_mode;
  hd_key : mem;
  hd_iv : mem
}.

(** The frame of [lrz_crypt], at the label [error] and at its return:
    the value of [ret], the caller's buffer, and the local arrays [key]
    and [iv], each with whether it is locked in memory. *)
Record crypt_exit : Type := mkExit {
  crypt_ret : bool;
  crypt_buf : mem;
  crypt_key : mem;
  crypt_iv : mem;
  key_locked : bool;
  iv_locked : bool
}.

(** The four fields behind the pointers [c_type], [c_len], [u_len] and
    [last_head] of [decrypt_header]. *)
Record header_fields : Type := mkFields {
  c_type : byte;
  c_len : Z;
  u_len : Z;
  last_head : Z
}.

(** [unlikely (gcry_error)] *)
Definition failed (e : Z) : bool := negb (e =? 0).

(** libgcrypt: the block length of GCRY_CIPHER_AES. *)
Definition aes_blklen : Z := 16.

(** libgcrypt: the status of a cipher call on data that is not a whole
    number of blocks. *)
Definition GPG_ERR_INV_LENGTH : Z := 139.

(** ** Toy primitives, to run the embedding on concrete inputs *)

Definition toy_sha512 (m : mem) : mem :=
  let acc := fold_left (fun acc b => (acc * 257 + byte.unsigned b + 1) mod 2 ^ 61) m 7 in
  le_split 64 (acc ^ 9 + 3 * acc + 1).

Definition toy_aes_encrypt (key blk : mem) : mem := rev (xor_bytes blk key).

Definition toy_aes_decrypt (key blk : mem) : mem := xor_bytes (rev blk) key.

(** Inputs to run it on: a control block with a two-byte passphrase and
    three stretching loops, a salt, payloads of 30, 16, 7 and 5 bytes, a
    header record and its fields, and a world where every call succeeds. *)
Definition demo_control : rzip_control :=
  mkControl (toy_sha512 [Byte.x01]) [Byte.x70; Byte.x77] 2 3.
Definition demo_salt : mem := le_split 16 12345678901234567890.
Definition demo_buf30 : mem := le_split 30 98765432109876543210987654321.
Definition demo_buf16 : mem := le_split 16 98765432109876543210987654321.
Definition demo_buf5 : mem := le_split 5 987654321.
Definition demo_buf7 : mem := le_split 7 1234567899876543.
Definition demo_head : mem := demo_salt ++ zeros 25.
Definition demo_fields : header_fields := mkFields Byte.x03 1000 (-5) 77.
Definition demo_world : world := mkWorld [] [].

(** Bytes that the arrays [key] and [iv] of [lrz_crypt] may hold on
    entry. *)
Definition demo_stack_key : mem := repeat Byte.xff 64.
Definition demo_stack_iv : mem := le_split 64 (3 ^ 300).

(** A payload of 2^32 zero bytes. *)
Definition demo_buf_4GiB : mem := zeros (2 ^ 32).

(** ** Settings and memory sizing: [round_to_page], [round_up_page],
    [setup_overhead] and [setup_ram] *)

(** A C string, without its terminating zero. *)
Definition cstring : Type := list byte.

(** The fields of [rzip_control] that the set-up functions read and
    write, each integer field as the value it holds.  The struct is
    declared in lrzip_private.h, which is not among the sources.
    [maxram] is an [i64], since [round_to_page] is given its address;
    [dictSize] holds at most 32 bits, the widest value stored in it being
    0xFFFFFFFF. *)
Record rzip_settings : Type := mkSettings {
  compression_level : Z;
  rzip_compression_level : Z;
  dictSize : Z;
  overhead : Z;
  zpaq_level : Z;
  zpaq_bs : Z;
  ramsize : Z;
  maxram : Z;
  usable_ram : Z;
  page_size : Z;
  window : Z;
  flags : Z;
  threshold : Z;
  nice_val : Z;
  outdir : option cstring;
  tmpdir : option cstring
}.

Definition set_compression_level (v : Z) (c : rzip_settings) : rzip_settings :=
  mkSettings v (rzip_compression_level c) (dictSize c) (overhead c)
    (zpaq_level c) (zpaq_bs c) (ramsize c) (maxram c) (usable_ram c)
    (page_size c) (window c) (flags c) (threshold c) (nice_val c) (outdir c)
    (tmpdir c).
Definition set_rzip_compression_level (v : Z) (c : rzip_settings) : rzip_settings :=
  mkSettings (compression_level c) v (dictSize c) (overhead c) (zpaq_level c)
    (zpaq_bs c) (ramsize c) (maxram c) (usable_ram c) (page_size c) (window c)
    (flags c) (threshold c) (nice_val c) (outdir c) (tmpdir c).
Definition set_dictSize (v : Z) (c : rzip_settings) : rzip_settings :=
  mkSettings (compression_level c) (rzip_compression_level c) v (overhead c)
    (zpaq_level c) (zpaq_bs c) (ramsize c) (maxram c) (usable_ram c)
    (page_size c) (window c) (flags c) (threshold c) (nice_val c) (outdir c)
    (tmpdir c).
Definition set_overhead (v : Z) (c : rzip_settings) : rzip_settings :=
  mkSettings (compression_level c) (rzip_compression_level c) (dictSize c) v
    (zpaq_level c) (zpaq_bs c) (ramsize c) (maxram c) (usable_ram c)
    (page_size c) (window c) (flags c) (threshold c) (nice_val c) (outdir c)
    (tmpdir c).
Definition set_zpaq_level (v : Z) (c : rzip_settings) : rzip_settings :=
  mkSettings (compression_level c) (rzip_compression_level c) (dictSize c)
    (overhead c) v (zpaq_bs c) (ramsize c) (maxram c) (usable_ram c)
    (page_size c) (window c) (flags c) (threshold c) (nice_val c) (outdir c)
    (tmpdir c).
Definition set_zpaq_bs (v : Z) (c : rzip_settings) : rzip_settings :=
  mkSettings (compression_level c) (rzip_compression_level c) (dictSize c)
    (overhead c) (zpaq_level c) v (ramsize c) (maxram c) (usable_ram c)
    (page_size c) (window c) (flags c) (threshold c) (nice_val c) (outdir c)
    (tmpdir c).
Definition set_maxram (v : Z) (c : rzip_settings) : rzip_settings :=
  mkSettings (compression_level c) (rzip_compression_level c) (dictSize c)
    (overhead c) (zpaq_level c) (zpaq_bs c) (ramsize c) v (usable_ram c)
    (page_size c) (window c) (flags c) (threshold c) (nice_val c) (outdir c)
    (tmpdir c).
Definition set_usable_ram (v : Z) (c : rzip_settings) : rzip_settings :=
  mkSettings (compression_level c) (rzip_compression_level c) (dictSize c)
    (overhead c) (zpaq_level c) (zpaq_bs c) (ramsize c) (maxram c) v
    (page_size c) (window c) (flags c) (threshold c) (nice_val c) (outdir c)
    (tmpdir c).
Definition set_window (v : Z) (c : rzip_settings) : rzip_settings :=
  mkSettings (compression_level c) (rzip_compression_level c) (dictSize c)
    (overhead c) (zpaq_level c) (zpaq_bs c) (ramsize c) (maxram c) (usable_ram
    c) (page_size c) v (flags c) (threshold c) (nice_val c) (outdir c) (tmpdir
    c).
Definition set_flags (v : Z) (c : rzip_settings) : rzip_settings :=
  mkSettings (compression_level c) (rzip_compression_level c) (dictSize c)
    (overhead c) (zpaq_level c) (zpaq_bs c) (ramsize c) (maxram c) (usable_ram
    c) (page_size c) (window c) v (threshold c) (nice_val c) (outdir c)
    (tmpdir c).
Definition set_threshold (v : Z) (c : rzip_settings) : rzip_settings :=
  mkSettings (compression_level c) (rzip_compression_level c) (dictSize c)
    (overhead c) (zpaq_level c) (zpaq_bs c) (ramsize c) (maxram c) (usable_ram
    c) (page_size c) (window c) (flags c) v (nice_val c) (outdir c) (tmpdir c).
Definition set_nice_val (v : Z) (c : rzip_settings) : rzip_settings :=
  mkSettings (compression_level c) (rzip_compression_level c) (dictSize c)
    (overhead c) (zpaq_level c) (zpaq_bs c) (ramsize c) (maxram c) (usable_ram
    c) (page_size c) (window c) (flags c) (threshold c) v (outdir c) (tmpdir
    c).
Definition set_outdir (v : option cstring) (c : rzip_settings) : rzip_settings :=
  mkSettings (compression_level c) (rzip_compression_level c) (dictSize c)
    (overhead c) (zpaq_level c) (zpaq_bs c) (ramsize c) (maxram c) (usable_ram
    c) (page_size c) (window c) (flags c) (threshold c) (nice_val c) v (tmpdir
    c).
Definition set_tmpdir (v : option cstring) (c : rzip_settings) : rzip_settings :=
  mkSettings (compression_level c) (rzip_compression_level c) (dictSize c)
    (overhead c) (zpaq_level c) (zpaq_bs c) (ramsize c) (maxram c) (usable_ram
    c) (page_size c) (window c) (flags c) (threshold c) (nice_val c) (outdir
    c) v.

(** [1 << n] on [int]: undefined unless the result is an [int]. *)
Definition shl_int (n : Z) : option Z :=
  if (0 <=? n) && (n <? 31) then Some (Z.shiftl 1 n) else None.

Section Sizing.

(** The macros of lrzip_private.h that the sizing functions test, each
    with the value it has at the call: the tests of [control->flags]
    ([LZMA_COMPRESS], [ZPAQ_COMPRESS], [STDOUT], [STDIN], [DECOMPRESS],
    [TEST_ONLY]), [BITS32], the constant [one_g], and [PAGE_SIZE], which
    util.c defines as [sysconf (_SC_PAGE_SIZE)] or 4096. *)
Variables LZMA_COMPRESS ZPAQ_COMPRESS : bool.
Variables STDOUT STDIN DECOMPRESS TEST_ONLY BITS32 : bool.
Variable one_g : Z.
Variable PAGE_SIZE : Z.

(** [void round_to_page (i64 *size)]; the result is [*size].  The
    remainder of C truncates towards zero; it is undefined for a zero
    divisor and for the least [i64] divided by -1. *)
Definition round_to_page (size : Z) : option Z :=
  if PAGE_SIZE =? 0 then None
  else if (size =? - 2 ^ 63) && (PAGE_SIZE =? -1) then None
  else
    let size := size - Z.rem size PAGE_SIZE in
    Some (if size =? 0 then PAGE_SIZE else size).

(** [size_t round_up_page (control, len)].  [control->page_size], a
    signed integer, is converted to [size_t] for the remainder with
    [len]; the remainder is stored in an [int]. *)
Definition round_up_page (control : rzip_settings) (len_ : Z) : option Z :=
  if to_size_t (page_size control) =? 0 then None
  else
    let rem := to_int (len_ mod to_size_t (page_size control)) in
    Some (if rem =? 0 then len_
          else to_size_t (len_ + (page_size control - rem))).

(** The [switch] of the LZMA branch of [setup_overhead]; the shifts of 1
    are by 16 to 27 bits. *)
Definition lzma_dict_size (level : Z) : Z :=
  if (1 <=? level) && (level <=? 5) then Z.shiftl 1 (level * 2 + 14)
  else if (level =? 6) || (level =? 7) then Z.shiftl 1 25
  else if level =? 8 then Z.shiftl 1 26
  else if level =? 9 then Z.shiftl 1 27
  else Z.shiftl 1 24.

(** The [switch] of the ZPAQ branch: there is no [case 5], which falls to
    [default]. *)
Definition zpaq_block_size (level : Z) : Z :=
  if (1 <=? level) && (level <=? 4) then 6
  else if level =? 6 then 7
  else if level =? 7 then 9
  else if level =? 8 then 10
  else if level =? 9 then 11
  else 6.

(** [void setup_overhead (control)]; the result is [control]. *)
Definition setup_overhead (control : rzip_settings) : option rzip_settings :=
  if LZMA_COMPRESS then
    let control :=
      if dictSize control =? 0
      then set_dictSize (lzma_dict_size (compression_level control)) control
      else control in
    Some (set_overhead (Z.quot (dictSize control * 23) 2 + 6 * 1024 * 1024 + 16384)
            control)
  else if ZPAQ_COMPRESS then
    let control :=
      if zpaq_bs control =? 0 then
        let control :=
          set_zpaq_level (Z.quot (compression_level control) 4 + 3) control in
        set_zpaq_bs (zpaq_block_size (compression_level control)) control
      else control in
    match shl_int (zpaq_bs control) with
    | None => None
    | Some b => Some (set_overhead (b * 1024 * 1024) control)
    end
  else Some control.

(** [void setup_ram (control)]; the result is [control].  [MAX] and [MIN]
    are the greater and the lesser of their arguments. *)
Definition setup_ram (control : rzip_settings) : option rzip_settings :=
  let control :=
    if STDOUT && ((STDIN && DECOMPRESS) || negb (DECOMPRESS || TEST_ONLY))
    then set_maxram (Z.quot (ramsize control) 6) control
    else set_maxram (Z.quot (ramsize control) 3) control in
  let control :=
    if BITS32 then
      let control :=
        set_usable_ram (Z.max (ramsize control - 900000000) 900000000) control in
      let control := set_maxram (Z.min (maxram control) (usable_ram control)) control in
      set_maxram (Z.min (maxram control) (Z.quot (one_g * 2) 3)) control
    else set_usable_ram (maxram control) control in
  option_map (fun m => set_maxram m control) (round_to_page (maxram control)).

End Sizing.

(** ** Temporary files: [register_infile], [register_outfile] and
    [unlink_files] *)

(** The fields of [rzip_control] that hold the registered files: each
    name is a pointer, [None] when it is NULL, and each [delete] flag a
    [char]. *)
Record rzip_files : Type := mkFiles {
  util_infile : option cstring;    (* control->util_infile *)
  delete_infile : Z;               (* control->delete_infile *)
  util_outfile : option cstring;   (* control->util_outfile *)
  delete_outfile : Z               (* control->delete_outfile *)
}.

(** [void register_infile (control, name, delete)] *)
Definition register_infile (control : rzip_files) (name : option cstring) (delete : Z)
  : rzip_files :=
  mkFiles name delete (util_outfile control) (delete_outfile control).

(** [void register_outfile (control, name, delete)] *)
Definition register_outfile (control : rzip_files) (name : option cstring) (delete : Z)
  : rzip_files :=
  mkFiles (util_infile control) (delete_infile control) name delete.

(** [if (name && delete) unlink (name);]: the names given to [unlink]. *)
Definition unlink_if (name : option cstring) (delete : Z) : list cstring :=
  match name with
  | Some n => if negb (delete =? 0) then [n] else []
  | None => []
  end.

(** [void unlink_files (control)]; the result is the list of the names
    given to [unlink], in the order of the calls. *)
Definition unlink_files (control : rzip_files) : list cstring :=
  unlink_if (util_outfile control) (delete_outfile control) ++
  unlink_if (util_infile control) (delete_infile control).

(** A call of one of the two registration functions. *)
Inductive registration : Type :=
| Infile (name : option cstring) (delete : Z)
| Outfile (name : option cstring) (delete : Z).

Definition register (control : rzip_files) (r : registration) : rzip_files :=
  match r with
  | Infile name delete => register_infile control name delete
  | Outfile name delete => register_outfile control name delete
  end.

(** ** Random bytes: [get_rand] *)

(** What the operating system answers to [get_rand]: whether
    [open ("/dev/urandom", O_RDONLY)] returns -1, what [read] returns for
    a count and the bytes it delivers, what [close] returns, and the
    successive values of [random ()]. *)
Record urandom : Type := mkUrandom {
  open_fails : bool;
  read_answer : Z -> Z * mem;
  close_answer : Z;
  random : nat -> Z
}.

(** [for (i = 0; i < len; i++) buf[i] = (uchar) random ();], from [i] on;
    [k] calls of [random] have been made. *)
Fixpoint fill_random (fuel : nat) (i len_ : Z) (k : nat) (os : urandom) (buf : mem)
  : option mem :=
  match fuel with
  | O => Some buf
  | S fuel' =>
      if i <? len_ then
        match store buf i [byte.of_Z (random os k)] with
        | Some buf => fill_random fuel' (i + 1) len_ (S k) os buf
        | None => None
        end
      else Some buf
  end.

(** [bool get_rand (control, buf, len)]; the result is the return value
    and [buf], or [None] for a write outside [buf].  [control] is used by
    the macro for the messages only.  [read] is given
    [len] converted to [size_t] and stores what it delivers at the start
    of [buf].  [fatal_return ((...), false)] is a macro of
    lrzip_private.h, which is not among the sources: it is given the
    value to return, and is modelled as the return of that value. *)
Definition get_rand (os : urandom) (buf : mem) (len_ : Z) : option (bool * mem) :=
  if open_fails os then
    option_map (fun b => (true, b)) (fill_random (Z.to_nat len_) 0 len_ 0 os buf)
  else
    let '(n, data) := read_answer os (to_size_t len_) in
    match store buf 0 data with
    | None => None
    | Some buf =>
        if negb (n =? len_) then Some (false, buf)
        else if negb (close_answer os =? 0) then Some (false, buf)
        else Some (true, buf)
    end.

(** ** The configuration file: [read_config] *)

Import String.StringSyntax.
Delimit Scope string_scope with string.

(** A string literal of the source. *)
Definition str (s : String.string) : cstring := String.list_byte_of_string s.
Arguments str s%_string.

Fixpoint bytes_eqb (a b : cstring) : bool :=
  match a, b with
  | [], [] => true
  | x :: a', y :: b' => Byte.eqb x y && bytes_eqb a' b'
  | _, _ => false
  end.

(** [isspace] and [tolower] of <ctype.h> in the C locale; a character
    with the high bit set is neither a space nor a capital. *)
Definition isspace (c : byte) : bool :=
  let z := byte.unsigned c in (z =? 32) || ((9 <=? z) && (z <=? 13)).

Definition tolower (c : byte) : byte :=
  let z := byte.unsigned c in
  if (65 <=? z) && (z <=? 90) then byte.of_Z (z + 32) else c.

(** [#define isparameter(parmstring, value) (!strcasecmp (parmstring, value))]
    and
    [#define iscaseparameter(parmvalue, value) (!strcmp (parmvalue, value))] *)
Definition isparameter (parmstring value : cstring) : bool :=
  bytes_eqb (map tolower parmstring) (map tolower value).

Definition iscaseparameter (parmvalue value : cstring) : bool :=
  bytes_eqb parmvalue value.

(** [strtok]: the delimiters at the head of [s] are skipped; the token
    runs to the next delimiter or to the end of the string.  The result
    is the token and the string that the next call, with a NULL first
    argument, goes on from; [None] is the NULL that is returned when no
    token is left. *)
Definition is_delim (delim : cstring) (c : byte) : bool :=
  existsb (Byte.eqb c) delim.

Fixpoint skip_delims (delim s : cstring) : cstring :=
  match s with
  | c :: s' => if is_delim delim c then skip_delims delim s' else s
  | [] => []
  end.

Fixpoint token (delim s : cstring) : cstring * cstring :=
  match s with
  | c :: s' =>
      if is_delim delim c then ([], s')
      else let '(t, rest) := token delim s' in (c :: t, rest)
  | [] => ([], [])
  end.

Definition strtok (s delim : cstring) : option (cstring * cstring) :=
  match skip_delims delim s with
  | [] => None
  | s' => Some (token delim s')
  end.

(** [atoi]: white space, an optional sign, and the decimal digits that
    follow; [None] when the value is not that of an [int], for which the
    behaviour is undefined. *)
Definition is_digit (c : byte) : bool :=
  let z := byte.unsigned c in (48 <=? z) && (z <=? 57).

Fixpoint skip_spaces (s : cstring) : cstring :=
  match s with
  | c :: s' => if isspace c then skip_spaces s' else s
  | [] => []
  end.

Fixpoint digits_value (acc : Z) (s : cstring) : Z :=
  match s with
  | c :: s' =>
      if is_digit c then digits_value (acc * 10 + (byte.unsigned c - 48)) s' else acc
  | [] => acc
  end.

Definition atoi (s : cstring) : option Z :=
  let v :=
    match skip_spaces s with
    | c :: s' =>
        if Byte.eqb c Byte.x2d then - digits_value 0 s'
        else if Byte.eqb c Byte.x2b then digits_value 0 s'
        else digits_value 0 (c :: s')
    | [] => 0
    end in
  if (- 2 ^ 31 <=? v) && (v <? 2 ^ 31) then Some v else None.

(** What lrzip_private.h, which is not among the sources, fixes for
    [read_config]: the flag bits, and for each field that is assigned an
    [int] or an [unsigned int] the conversion to the type of the field. *)
Record private_h : Type := mkPrivate {
  FLAG_UNLIMITED : Z;
  FLAG_NOT_LZMA : Z;
  FLAG_BZIP2_COMPRESS : Z;
  FLAG_ZLIB_COMPRESS : Z;
  FLAG_LZO_COMPRESS : Z;
  FLAG_NO_COMPRESS : Z;
  FLAG_ZPAQ_COMPRESS : Z;
  FLAG_THRESHOLD : Z;
  FLAG_CHECK : Z;
  FLAG_HASH : Z;
  FLAG_VERBOSE : Z;
  FLAG_VERBOSITY : Z;
  FLAG_VERBOSITY_MAX : Z;
  FLAG_SHOW_PROGRESS : Z;
  FLAG_KEEP_BROKEN : Z;
  FLAG_KEEP_FILES : Z;
  FLAG_FORCE_REPLACE : Z;
  FLAG_ENCRYPT : Z;
  window_t : Z -> Z;
  compression_level_t : Z -> Z;
  rzip_compression_level_t : Z -> Z;
  threshold_t : Z -> Z;
  nice_val_t : Z -> Z;
  dictSize_t : Z -> Z
}.

(** What the operating system answers to [read_config]: the contents of
    a file that [fopen (path, "r")] can open, the value of [getenv
    ("HOME")], whether [malloc] fails for a size, and whether [fclose]
    fails. *)
Record conf_os : Type := mkConfOs {
  fopen : cstring -> option (list byte);
  getenv_HOME : option cstring;
  malloc_fails : Z -> bool;
  fclose_fails : bool
}.

(** How the handling of one line ends: the loop goes on with the next
    line, or [read_config] returns false, through [failure_return ((...),
    false)] or [fatal_return ((...), false)], or the behaviour is
    undefined.  [control], which is modified in place, is as the line
    leaves it.  The two macros are of lrzip_private.h: each is given the
    value to return, and is modelled as the return of that value. *)
Inductive conf_outcome : Type :=
| Continue (control : rzip_settings)
| Return_false (control : rzip_settings)
| Conf_undefined.

(** [control->flags |= flag] and [control->flags &= ~flag] *)
Definition set_flag (flag : Z) (control : rzip_settings) : rzip_settings :=
  set_flags (Z.lor (flags control) flag) control.
Definition clear_flag (flag : Z) (control : rzip_settings) : rzip_settings :=
  set_flags (Z.land (flags control) (Z.lnot flag)) control.

(** [control->flags & flag], as a condition *)
Definition has_flag (flag : Z) (control : rzip_settings) : bool :=
  negb (Z.land (flags control) flag =? 0).

(** The directory of "outputdirectory" and of "tmpdir": [malloc (strlen
    (parametervalue) + 2)], [strcpy], and [strcat] of "/" unless the
    last character of the value is one.  [None] is the NULL of a failed
    [malloc]. *)
Definition directory (os : conf_os) (parametervalue : cstring) : option cstring :=
  if malloc_fails os (len parametervalue + 2) then None
  else
    let dir := parametervalue in
    if negb (bytes_eqb (skipn (length parametervalue - 1) parametervalue) (str "/"))
    then Some (dir ++ str "/")
    else Some dir.

(** [((p == 40) ? 0xFFFFFFFF : ((2 | ((p) & 1)) << ((p) / 2 + 11)))], an
    [unsigned int]: the shift is one of [int], converted to [unsigned
    int].  A shift into the sign bit is undefined in C; it is given the
    value that wrap-around gives. *)
Definition dictionary_size (p : Z) : Z :=
  if p =? 40 then 4294967295
  else to_int (Z.shiftl (Z.lor 2 (Z.land p 1)) (Z.quot p 2 + 11)) mod 2 ^ 32.

(** The chain of [if (isparameter (parameter, ...))] of [read_config]:
    "have valid parameter line, now assign to control".  The messages of
    [print_err] are not followed. *)
Definition config_parameter (h : private_h) (os : conf_os) (control : rzip_settings)
    (parameter parametervalue : cstring) : conf_outcome :=
  if isparameter parameter (str "window") then
    match atoi parametervalue with
    | None => Conf_undefined
    | Some v => Continue (set_window (window_t h v) control)
    end
  else if isparameter parameter (str "unlimited") then
    if isparameter parametervalue (str "yes")
    then Continue (set_flag (FLAG_UNLIMITED h) control)
    else Continue control
  else if isparameter parameter (str "compressionlevel") then
    match atoi parametervalue with
    | None => Conf_undefined
    | Some v =>
        let control := set_compression_level (compression_level_t h v) control in
        if (compression_level control <? 1) || (compression_level control >? 9)
        then Return_false control
        else Continue control
    end
  else if isparameter parameter (str "rziplevel") then
    match atoi parametervalue with
    | None => Conf_undefined
    | Some v =>
        let control :=
          set_rzip_compression_level (rzip_compression_level_t h v) control in
        if (rzip_compression_level control <? 1) || (rzip_compression_level control >? 9)
        then Return_false control
        else Continue control
    end
  else if isparameter parameter (str "compressionmethod") then
    if has_flag (FLAG_NOT_LZMA h) control then Return_false control
    else if isparameter parametervalue (str "bzip2")
    then Continue (set_flag (FLAG_BZIP2_COMPRESS h) control)
    else if isparameter parametervalue (str "gzip")
    then Continue (set_flag (FLAG_ZLIB_COMPRESS h) control)
    else if isparameter parametervalue (str "lzo")
    then Continue (set_flag (FLAG_LZO_COMPRESS h) control)
    else if isparameter parametervalue (str "rzip")
    then Continue (set_flag (FLAG_NO_COMPRESS h) control)
    else if isparameter parametervalue (str "zpaq")
    then Continue (set_flag (FLAG_ZPAQ_COMPRESS h) control)
    else if negb (isparameter parametervalue (str "lzma"))
    then Return_false control
    else Continue control
  else if isparameter parameter (str "lzotest") then
    if isparameter parametervalue (str "no")
    then Continue (clear_flag (FLAG_THRESHOLD h) control)
    else Continue control
  else if isparameter parameter (str "threshold") then
    match atoi parametervalue with
    | None => Conf_undefined
    | Some v =>
        let control := set_threshold (threshold_t h v) control in
        if (threshold control <? 1) || (threshold control >? 99)
        then Return_false control
        else Continue control
    end
  else if isparameter parameter (str "hashcheck") then
    if isparameter parametervalue (str "yes")
    then Continue (set_flag (FLAG_HASH h) (set_flag (FLAG_CHECK h) control))
    else Continue control
  else if isparameter parameter (str "showhash") then
    if isparameter parametervalue (str "yes")
    then Continue (set_flag (FLAG_HASH h) control)
    else Continue control
  else if isparameter parameter (str "outputdirectory") then
    match directory os parametervalue with
    | None => Return_false (set_outdir None control)
    | Some dir => Continue (set_outdir (Some dir) control)
    end
  else if isparameter parameter (str "verbosity") then
    if has_flag (FLAG_VERBOSE h) control then Return_false control
    else if isparameter parametervalue (str "yes")
    then Continue (set_flag (FLAG_VERBOSITY h) control)
    else if isparameter parametervalue (str "max")
    then Continue (set_flag (FLAG_VERBOSITY_MAX h) control)
    else Continue control
  else if isparameter parameter (str "showprogress") then
    if isparameter parametervalue (str "NO")
    then Continue (clear_flag (FLAG_SHOW_PROGRESS h) control)
    else Continue control
  else if isparameter parameter (str "nice") then
    match atoi parametervalue with
    | None => Conf_undefined
    | Some v =>
        let control := set_nice_val (nice_val_t h v) control in
        if (nice_val control <? -20) || (nice_val control >? 19)
        then Return_false control
        else Continue control
    end
  else if isparameter parameter (str "keepbroken") then
    if isparameter parametervalue (str "yes")
    then Continue (set_flag (FLAG_KEEP_BROKEN h) control)
    else Continue control
  else if iscaseparameter parameter (str "DELETEFILES") then
    if iscaseparameter parametervalue (str "YES")
    then Continue (clear_flag (FLAG_KEEP_FILES h) control)
    else Continue control
  else if iscaseparameter parameter (str "REPLACEFILE") then
    if iscaseparameter parametervalue (str "YES")
    then Continue (set_flag (FLAG_FORCE_REPLACE h) control)
    else Continue control
  else if isparameter parameter (str "tmpdir") then
    match directory os parametervalue with
    | None => Return_false (set_tmpdir None control)
    | Some dir => Continue (set_tmpdir (Some dir) control)
    end
  else if isparameter parameter (str "encrypt") then
    if isparameter parameter (str "YES")
    then Continue (set_flag (FLAG_ENCRYPT h) control)
    else Continue control
  else if isparameter parameter (str "dictionarysize") then
    match atoi parametervalue with
    | None => Conf_undefined
    | Some p =>
        if (p <? 0) || (p >? 40) then Return_false control
        else Continue (set_dictSize (dictSize_t h (dictionary_size p)) control)
    end
  else Continue control.

(** The string that an array holds: its bytes up to the first zero. *)
Fixpoint c_string (l : list byte) : cstring :=
  match l with
  | c :: l' => if Byte.eqb c Byte.x00 then [] else c :: c_string l'
  | [] => []
  end.

(** The body of the [while] loop of [read_config] on what [fgets] left
    in [line]. *)
Definition config_line (h : private_h) (os : conf_os) (control : rzip_settings)
    (line : list byte) : conf_outcome :=
  let line := c_string line in
  let line := if negb (length line =? 0)%nat then removelast line else line in
  match strtok line (str " =") with
  | None => Continue control
  | Some (parameter, rest) =>
      if isspace (hd Byte.x00 parameter) then Continue control
      else if Byte.eqb (hd Byte.x00 parameter) Byte.x23 then Continue control
      else
        match strtok rest (str " =") with
        | None => Continue control
        | Some (parametervalue, _) =>
            config_parameter h os control parameter parametervalue
        end
  end.

(** [fgets (line, n + 1, fp)] on a stream that is not at its end: at most
    [n] bytes, up to and with the first newline; the result is the bytes
    stored and the rest of the stream. *)
Fixpoint fgets (n : nat) (stream : list byte) : list byte * list byte :=
  match n, stream with
  | S n', c :: rest =>
      if Byte.eqb c Byte.x0a then ([c], rest)
      else let '(l, r) := fgets n' rest in (c :: l, r)
  | _, _ => ([], stream)
  end.

(** [while ((fgets (line, 255, fp)) != NULL) { ... }] *)
Fixpoint config_lines (fuel : nat) (h : private_h) (os : conf_os)
    (control : rzip_settings) (stream : list byte) : conf_outcome :=
  match fuel, stream with
  | S fuel', _ :: _ =>
      let '(line, rest) := fgets 254 stream in
      match config_line h os control line with
      | Continue control => config_lines fuel' h os control rest
      | o => o
      end
  | _, _ => Continue control
  end.

(** [snprintf (homeconf, sizeof (homeconf), "%s/.lrzip/lrzip.conf", HOME)]
    into [char homeconf[255]] *)
Definition homeconf (HOME : cstring) : cstring :=
  firstn 254 (HOME ++ str "/.lrzip/lrzip.conf").

(** The three [fopen] of [read_config]. *)
Definition open_config (os : conf_os) : option (list byte) :=
  match fopen os (str "lrzip.conf") with
  | Some fp => Some fp
  | None =>
      match
        match getenv_HOME os with
        | Some HOME => fopen os (homeconf HOME)
        | None => None
        end
      with
      | Some fp => Some fp
      | None => fopen os (str "/etc/lrzip/lrzip.conf")
      end
  end.

(** [bool read_config (control)]; the result is the return value and
    [control], or [None] when the behaviour is undefined. *)
Definition read_config (h : private_h) (os : conf_os) (control : rzip_settings)
  : option (bool * rzip_settings) :=
  match open_config os with
  | None => Some (false, control)
  | Some stream =>
      match config_lines (length stream) h os control stream with
      | Continue control =>
          if fclose_fails os then Some (false, control) else Some (true, control)
      | Return_false control => Some (false, control)
      | Conf_undefined => None
      end
  end.

(** The string [s] ends with the character [c]. *)
Definition ends_with (c : byte) (s : cstring) : Prop := exists p, s = p ++ [c].

(** ** Inputs to run the set-up functions on *)

(** Settings at compression level 7 with 8 GB of ram and pages of 4096
    bytes, nothing else being set. *)
Definition demo_settings : rzip_settings :=
  mkSettings 7 0 0 0 0 0 8000000000 0 0 4096 0 0 0 0 None None.

(** Flag bits, one per flag, with [FLAG_NOT_LZMA] the five methods that
    are not LZMA and [FLAG_VERBOSE] the two verbosities; fields that hold
    an [int] as it is, and a dictionary size of 32 bits. *)
Definition demo_private_h : private_h :=
  mkPrivate 1 (2 + 4 + 8 + 16 + 32) 2 4 8 16 32 64 128 256 (512 + 1024) 512 1024
    2048 4096 8192 16384 32768
    (fun v => v) (fun v => v) (fun v => v) (fun v => v) (fun v => v)
    (fun v => v mod 2 ^ 32).

(** A system where only the file of /etc exists and holds [contents],
    HOME is not set, and [malloc] and [fclose] succeed. *)
Definition demo_conf_os (contents : list byte) : conf_os :=
  mkConfOs
    (fun path => if bytes_eqb path (str "/etc/lrzip/lrzip.conf")
                 then Some contents else None)
    None (fun _ => false) false.

(** A system without /dev/urandom, and one where it delivers what is
    asked for. *)
Definition demo_no_urandom : urandom :=
  mkUrandom true (fun _ => (-1, [])) 0 (fun k => 1103515245 * Z.of_nat k + 12345).
Definition demo_urandom : urandom :=
  mkUrandom false (fun n => (n, repeat Byte.xa5 (Z.to_nat n))) 0 (fun _ => 0).

Section Gcrypt.

(** The primitives consumed from libgcrypt: the SHA-512 digest of a
    message, and the AES block permutation and its inverse under a key. *)
Variable sha512 : mem -> mem.
Variable aes_encrypt_block : mem -> mem -> mem.
Variable aes_decrypt_block : mem -> mem -> mem.

(** PASS_LEN of lrzip_private.h, which is not among the sources and on
    which the specification is silent. *)
Variable PASS_LEN : Z.

(** What is assumed of them: a digest has [HASH_LEN] bytes; under a
    16-byte key the block functions take 16-byte blocks to 16-byte blocks,
    and decryption undoes encryption. *)
Hypothesis sha512_length : forall m, len (sha512 m) = HASH_LEN.
Hypothesis aes_encrypt_length : forall k b,
  len k = 16 -> len b = 16 -> len (aes_encrypt_block k b) = 16.
Hypothesis aes_decrypt_length : forall k b,
  len k = 16 -> len b = 16 -> len (aes_decrypt_block k b) = 16.
Hypothesis aes_decrypt_encrypt : forall k b,
  len k = 16 -> len b = 16 -> aes_decrypt_block k (aes_encrypt_block k b) = b.

(** *** Message digests *)

Definition gcry_md_open : M (Z * gcry_md_hd_t) :=
  log md_open_call ;;;
  e <- next_status ;;
  ret (e, if failed e then None else Some []).

(** Writing through the NULL handle is undefined behaviour. *)
Definition gcry_md_write (h : gcry_md_hd_t) (buf : mem) (n : Z) : M gcry_md_hd_t :=
  ctx <- access h ;;
  bytes <- access (load buf 0 (to_size_t n)) ;;
  log (md_write_call bytes) ;;;
  ret (Some (ctx ++ bytes)).

Definition gcry_md_read (h : gcry_md_hd_t) : M mem :=
  ctx <- access h ;;
  log md_read_call ;;;
  ret (sha512 ctx).

Definition gcry_md_reset (h : gcry_md_hd_t) : M gcry_md_hd_t :=
  _ <- access h ;;
  log md_reset_call ;;;
  ret (Some []).

Definition gcry_md_close (h : gcry_md_hd_t) : M unit :=
  log md_close_call.

(** *** Block cipher modes *)

Fixpoint cbc_encrypt (key iv : mem) (nblocks : nat) (data : mem) : mem * mem :=
  match nblocks with
  | O => ([], iv)
  | S n =>
      let c := aes_encrypt_block key (xor_bytes (firstn 16 data) iv) in
      let '(cs, iv') := cbc_encrypt key c n (skipn 16 data) in
      (c ++ cs, iv')
  end.

Fixpoint cbc_decrypt (key iv : mem) (nblocks : nat) (data : mem) : mem * mem :=
  match nblocks with
  | O => ([], iv)
  | S n =>
      let c := firstn 16 data in
      let p := xor_bytes (aes_decrypt_block key c) iv in
      let '(ps, iv') := cbc_decrypt key c n (skipn 16 data) in
      (p ++ ps, iv')
  end.

Fixpoint ecb_crypt (f : mem -> mem) (nblocks : nat) (data : mem) : mem :=
  match nblocks with
  | O => []
  | S n => f (firstn 16 data) ++ ecb_crypt f n (skipn 16 data)
  end.

(** One pass of a handle over [data], a whole number of blocks. *)
Definition cipher_run (enc : bool) (h : gcry_cipher_hd_t) (data : mem)
  : mem * gcry_cipher_hd_t :=
  let n := Z.to_nat (len data / aes_blklen) in
  match hd_mode h with
  | GCRY_CIPHER_MODE_CBC =>
      let '(out, iv') :=
        (if enc then cbc_encrypt else cbc_decrypt) (hd_key h) (hd_iv h) n data in
      (out, mkCipher GCRY_CIPHER_MODE_CBC (hd_key h) iv')
  | GCRY_CIPHER_MODE_ECB =>
      (ecb_crypt ((if enc then aes_encrypt_block else aes_decrypt_block) (hd_key h))
                 n data, h)
  end.

Definition gcry_cipher_open (m : cipher_mode) : M (Z * gcry_cipher_hd_t) :=
  log (cipher_open_call m) ;;;
  e <- next_status ;;
  ret (e, mkCipher m [] (zeros aes_blklen)).

Definition gcry_cipher_setkey (h : gcry_cipher_hd_t) (key : mem) (keylen : Z)
  : M (Z * gcry_cipher_hd_t) :=
  log (cipher_setkey_call (hd_mode h) (to_size_t keylen)) ;;;
  e <- next_status ;;
  if failed e then ret (e, h)
  else
    k <- access (load key 0 (to_size_t keylen)) ;;
    ret (0, mkCipher (hd_mode h) k (hd_iv h)).

Definition gcry_cipher_setiv (h : gcry_cipher_hd_t) (iv : mem) (ivlen : Z)
  : M (Z * gcry_cipher_hd_t) :=
  log (cipher_setiv_call (hd_mode h) (to_size_t ivlen)) ;;;
  e <- next_status ;;
  if failed e then ret (e, h)
  else
    v <- access (load iv 0 (to_size_t ivlen)) ;;
    ret (0, mkCipher (hd_mode h) (hd_key h) v).

(** The log entry of a transform of [n] bytes through the handle [h]. *)
Definition crypt_call (enc : bool) (h : gcry_cipher_hd_t) (n : Z) : gcry_call :=
  (if enc then cipher_encrypt_call else cipher_decrypt_call)
    (hd_mode h) (len (hd_key h)) n.

(** [gcry_cipher_encrypt (h, out + ooff, outsize, in, inlen)] and
    [gcry_cipher_decrypt]: [inp] is [None] for a NULL [in], which asks for
    the [outsize] bytes of [out] to be transformed in place. *)
Definition gcry_cipher_crypt (enc : bool) (h : gcry_cipher_hd_t)
    (out : mem) (ooff outsize : Z) (inp : option (mem * Z)) (inlen : Z)
  : M (Z * mem * gcry_cipher_hd_t) :=
  let '(src, soff, n) :=
    match inp with
    | Some (i, ioff) => (i, ioff, to_size_t inlen)
    | None => (out, ooff, to_size_t outsize)
    end in
  log (crypt_call enc h n) ;;;
  e <- next_status ;;
  if failed e then ret (e, out, h)
  else if negb (n mod aes_blklen =? 0) then ret (GPG_ERR_INV_LENGTH, out, h)
  else
    data <- access (load src soff n) ;;
    let '(res, h') := cipher_run enc h data in
    out' <- access (store out ooff res) ;;
    ret (0, out', h').

Definition gcry_cipher_encrypt := gcry_cipher_crypt true.
Definition gcry_cipher_decrypt := gcry_cipher_crypt false.

Definition gcry_cipher_close (h : gcry_cipher_hd_t) : M unit :=
  log (cipher_close_call (hd_mode h)).

(** *** util.c *)

(** [static void xor128 (void *pa, const void *pb)]: two [i64] words. *)
Definition xor128 (pa pb : mem) : M mem :=
  a0 <- access (load_i64 pa 0) ;;
  b0 <- access (load_i64 pb 0) ;;
  pa <- access (store_i64 pa 0 (Z.lxor a0 b0)) ;;
  a1 <- access (load_i64 pa 8) ;;
  b1 <- access (load_i64 pb 8) ;;
  access (store_i64 pa 8 (Z.lxor a1 b1)).

(** [static void lrz_keygen (control, salt, key, iv)]; the result is the
    caller's [key] and [iv].  The status of [gcry_md_open] is dropped, as
    in the source ("No error checking for gcrypt key/iv hash functions").
    [buf] is the local scratch array, zeros before it is filled; its
    [mlock] and [munlock] are not followed. *)
Definition lrz_keygen (control : rzip_control) (salt key iv : mem) : M (mem * mem) :=
  let buf := zeros (HASH_LEN + SALT_LEN + PASS_LEN) in
  buf <- memcpy buf 0 (hash control) 0 HASH_LEN ;;
  buf <- memcpy buf HASH_LEN salt 0 SALT_LEN ;;
  buf <- memcpy buf (HASH_LEN + SALT_LEN) (salt_pass control) 0 (salt_pass_len control) ;;
  '(_, h) <- gcry_md_open ;;
  h <- gcry_md_write h buf (HASH_LEN + SALT_LEN + salt_pass_len control) ;;
  d <- gcry_md_read h ;;
  key <- memcpy key 0 d 0 HASH_LEN ;;
  h <- gcry_md_reset h ;;
  buf <- memcpy buf 0 key 0 HASH_LEN ;;
  buf <- memcpy buf HASH_LEN salt 0 SALT_LEN ;;
  buf <- memcpy buf (HASH_LEN + SALT_LEN) (salt_pass control) 0 (salt_pass_len control) ;;
  h <- gcry_md_write h buf (HASH_LEN + SALT_LEN + salt_pass_len control) ;;
  d <- gcry_md_read h ;;
  iv <- memcpy iv 0 d 0 HASH_LEN ;;
  gcry_md_close h ;;;
  _ <- memset0 buf 0 (HASH_LEN + SALT_LEN + PASS_LEN) ;;
  ret (key, iv).

(** Modelled from the spec: [failure_goto ((...), error)] is a macro of
    lrzip_private.h, which is not among the sources; a failed primitive
    aborts the transform, which returns a failure indicator (section 4.3).
    The result is the value of [ret] at the label and the caller's
    buffer. *)
Definition goto_error (buf : mem) : M (bool * mem) := ret (false, buf).

(** The end of the [if]: [gcry_cipher_close], [ret = true]. *)
Definition lrz_crypt_finish (cbc : gcry_cipher_hd_t) (buf : mem) : M (bool * mem) :=
  gcry_cipher_close cbc ;;;
  ret (true, buf).

(** The branch [encrypt == LRZ_ENCRYPT] of [lrz_crypt]. *)
Definition lrz_crypt_encrypt (cbc : gcry_cipher_hd_t) (buf tmp0 tmp1 : mem) (M_ N : Z)
  : M (bool * mem) :=
  '(e, buf, cbc) <- gcry_cipher_encrypt cbc buf 0 N None 0 ;;
  if failed e then goto_error buf else
  if negb (M_ =? 0) then
    tmp0 <- memset0 tmp0 0 CBC_LEN ;;
    tmp0 <- memcpy tmp0 0 buf N M_ ;;
    '(e, tmp1, cbc) <- gcry_cipher_encrypt cbc tmp1 0 CBC_LEN (Some (tmp0, 0)) CBC_LEN ;;
    if failed e then goto_error buf else
    buf <- memcpy buf N buf (N - CBC_LEN) M_ ;;
    buf <- memcpy buf (N - CBC_LEN) tmp1 0 CBC_LEN ;;
    lrz_crypt_finish cbc buf
  else lrz_crypt_finish cbc buf.

(** The branch of LRZ_DECRYPT and LRZ_VALIDATE. *)
Definition lrz_crypt_decrypt (key : mem) (cbc : gcry_cipher_hd_t)
    (buf tmp0 tmp1 : mem) (len_ M_ N : Z) : M (bool * mem) :=
  if negb (M_ =? 0) then
    '(e, ecb) <- gcry_cipher_open GCRY_CIPHER_MODE_ECB ;;
    if failed e then goto_error buf else
    '(e, ecb) <- gcry_cipher_setkey ecb key CBC_LEN ;;
    if failed e then goto_error buf else
    '(e, buf, cbc) <- gcry_cipher_decrypt cbc buf 0 (to_int (N - CBC_LEN)) None 0 ;;
    if failed e then goto_error buf else
    '(e, tmp0, ecb) <-
      gcry_cipher_decrypt ecb tmp0 0 CBC_LEN (Some (buf, N - CBC_LEN)) CBC_LEN ;;
    if failed e then goto_error buf else
    tmp1 <- memset0 tmp1 0 CBC_LEN ;;
    tmp1 <- memcpy tmp1 0 buf N M_ ;;
    tmp0 <- xor128 tmp0 tmp1 ;;
    buf <- memcpy buf N tmp0 0 M_ ;;
    tmp1 <- memcpy tmp1 M_ tmp0 M_ (CBC_LEN - M_) ;;
    '(e, buf, cbc) <-
      gcry_cipher_decrypt cbc buf (N - CBC_LEN) CBC_LEN (Some (tmp1, 0)) CBC_LEN ;;
    if failed e then goto_error buf else
    gcry_cipher_close ecb ;;;
    lrz_crypt_finish cbc buf
  else
    '(e, buf, cbc) <- gcry_cipher_decrypt cbc buf 0 len_ None 0 ;;
    if failed e then goto_error buf else
    lrz_crypt_finish cbc buf.

(** From the opening of the CBC handle to the label [error]. *)
Definition lrz_crypt_body (key iv buf : mem) (len_ M_ N : Z) (encrypt : direction)
  : M (bool * mem) :=
  let tmp0 := zeros CBC_LEN in
  let tmp1 := zeros CBC_LEN in
  '(e, cbc) <- gcry_cipher_open GCRY_CIPHER_MODE_CBC ;;
  if failed e then goto_error buf else
  '(e, cbc) <- gcry_cipher_setkey cbc key CBC_LEN ;;
  if failed e then goto_error buf else
  '(e, cbc) <- gcry_cipher_setiv cbc iv CBC_LEN ;;
  if failed e then goto_error buf else
  match encrypt with
  | LRZ_ENCRYPT => lrz_crypt_encrypt cbc buf tmp0 tmp1 M_ N
  | _ => lrz_crypt_decrypt key cbc buf tmp0 tmp1 len_ M_ N
  end.

(** [mlock (addr, len)] and [munlock (addr, len)] on a local array:
    whether the array is locked in memory after the call, given whether
    it was before.  The source looks at neither result. *)
Definition mlock (locked : bool) : bool := true.
Definition munlock (locked : bool) : bool := false.

(** [lrz_crypt] from its entry to the label [error].  [key] and [iv] are
    the local arrays as they are found on entry: what they hold is
    indeterminate in C, and they are not locked yet. *)
Definition lrz_crypt_to_error (key iv : mem) (control : rzip_control) (buf : mem)
    (len_ : Z) (salt : mem) (encrypt : direction) : M crypt_exit :=
  let key_lock := mlock false in                (* mlock (key, HASH_LEN) *)
  let iv_lock := mlock false in                 (* mlock (iv, HASH_LEN) *)
  let M_ := to_int (Z.rem len_ CBC_LEN) in
  let N := to_int (len_ - M_) in
  '(key, iv) <- lrz_keygen control salt key iv ;;
  '(r, buf) <- lrz_crypt_body key iv buf len_ M_ N encrypt ;;
  ret (mkExit r buf key iv key_lock iv_lock).

(** [lrz_crypt] from the label [error] to its return. *)
Definition lrz_crypt_at_error (s : crypt_exit) : M crypt_exit :=
  iv <- memset0 (crypt_iv s) 0 HASH_LEN ;;
  key <- memset0 (crypt_key s) 0 HASH_LEN ;;
  let iv_lock := munlock (iv_locked s) in       (* munlock (iv, HASH_LEN) *)
  let key_lock := munlock (key_locked s) in     (* munlock (key, HASH_LEN) *)
  ret (mkExit (crypt_ret s) (crypt_buf s) key iv key_lock iv_lock).

(** [bool lrz_crypt (control, buf, len, salt, encrypt)] in a frame whose
    arrays [key] and [iv] hold the given bytes on entry. *)
Definition lrz_crypt_frame (key iv : mem) (control : rzip_control) (buf : mem)
    (len_ : Z) (salt : mem) (encrypt : direction) : M crypt_exit :=
  s <- lrz_crypt_to_error key iv control buf len_ salt encrypt ;;
  lrz_crypt_at_error s.

(** [bool lrz_crypt (control, buf, len, salt, encrypt)].  The arrays are
    taken to hold zeros on entry; [lrz_crypt_frame_any] shows that what
    they hold makes no difference, every byte of them being written
    before it is read. *)
Definition lrz_crypt (control : rzip_control) (buf : mem) (len_ : Z) (salt : mem)
    (encrypt : direction) : M crypt_exit :=
  lrz_crypt_frame (zeros HASH_LEN) (zeros HASH_LEN) control buf len_ salt encrypt.

(** [n = control->encloops * HASH_LEN / (control->salt_pass_len + sizeof (i64))]:
    an [i64] product divided by a [size_t], hence unsigned, and stored in
    an [i64]. *)
Definition stretch_rounds (control : rzip_control) : Z :=
  to_i64 (to_size_t (to_i64 (encloops control * HASH_LEN))
          / to_size_t (salt_pass_len control + 8)).

(** [for (j = 0; j < n; j ++)] of [lrz_stretch], from [j] on. *)
Fixpoint stretch_loop (fuel : nat) (j n : Z) (control : rzip_control)
    (h : gcry_md_hd_t) : M gcry_md_hd_t :=
  match fuel with
  | O => ret h
  | S fuel' =>
      if j <? n then
        let counter := htole64_bytes j in
        h <- gcry_md_write h counter 8 ;;
        h <- gcry_md_write h (salt_pass control) (salt_pass_len control) ;;
        stretch_loop fuel' (j + 1) n control h
      else ret h
  end.

(** [void lrz_stretch (control)]; the result is [control] and the local
    hash handle as the function leaves them. *)
Definition lrz_stretch (control : rzip_control) : M (rzip_control * gcry_md_hd_t) :=
  '(_, h) <- gcry_md_open ;;
  let n := stretch_rounds control in
  h <- stretch_loop (Z.to_nat n) 0 n control h ;;
  ret (control, h).

(** Modelled from the spec: [lrz_decrypt] is a macro of util.h, which is
    not among the sources; the header codec invokes the block cipher on
    the region with the direction it was given (section 4.4). *)
Definition lrz_decrypt (control : rzip_control) (buf : mem) (len_ : Z) (salt : mem)
    (dec_or_validate : direction) : M crypt_exit :=
  lrz_crypt control buf len_ salt dec_or_validate.

(** [bool decrypt_header (control, head, c_type, c_len, u_len, last_head,
    dec_or_validate)]; the result is the return value, [head] and the
    four objects pointed to.  [buf] is [head + SALT_LEN], and [salt] is
    [head] itself. *)
Definition decrypt_header (control : rzip_control) (head : mem) (f : header_fields)
    (dec_or_validate : direction) : M (bool * mem * header_fields) :=
  let salt := firstn (Z.to_nat SALT_LEN) head in
  let buf := skipn (Z.to_nat SALT_LEN) head in
  buf <- memcpy buf 0 (uchar_bytes (c_type f)) 0 1 ;;
  buf <- memcpy buf 1 (i64_bytes (c_len f)) 0 8 ;;
  buf <- memcpy buf 9 (i64_bytes (u_len f)) 0 8 ;;
  buf <- memcpy buf 17 (i64_bytes (last_head f)) 0 8 ;;
  r <- lrz_decrypt control buf 25 (salt ++ buf) dec_or_validate ;;
  let buf := crypt_buf r in
  if negb (crypt_ret r) then ret (false, salt ++ buf, f)
  else
    ct <- memcpy (uchar_bytes (c_type f)) 0 buf 0 1 ;;
    cl <- memcpy (i64_bytes (c_len f)) 0 buf 1 8 ;;
    ul <- memcpy (i64_bytes (u_len f)) 0 buf 9 8 ;;
    lh <- memcpy (i64_bytes (last_head f)) 0 buf 17 8 ;;
    ret (true, salt ++ buf,
         mkFields (uchar_of_bytes ct) (i64_of_bytes cl) (i64_of_bytes ul) (i64_of_bytes lh)).

(** *** The specification's reading of key derivation (section 4.2) *)

(** The inputs of the derivation: the global hash, the salt of the block
    and the passphrase bytes. *)
Definition global_hash (control : rzip_control) : mem :=
  slice (hash control) 0 HASH_LEN.
Definition block_salt (salt : mem) : mem := slice salt 0 SALT_LEN.
Definition passphrase (control : rzip_control) : mem :=
  slice (salt_pass control) 0 (salt_pass_len control).

(** "Concatenate {global_hash, salt, passphrase} -> hash -> key." *)
Definition spec_derive_key (control : rzip_control) (salt : mem) : mem :=
  sha512 (global_hash control ++ block_salt salt ++ passphrase control).

(** "Concatenate {key, salt, passphrase} -> hash -> iv." *)
Definition spec_derive_iv (control : rzip_control) (salt : mem) : mem :=
  sha512 (spec_derive_key control salt ++ block_salt salt ++ passphrase control).

(** The library calls of one key derivation, and the world after it. *)
Definition keygen_calls (control : rzip_control) (salt : mem) : list gcry_call :=
  [ md_open_call;
    md_write_call (global_hash control ++ block_salt salt ++ passphrase control);
    md_read_call;
    md_reset_call;
    md_write_call (spec_derive_key control salt ++ block_salt salt ++ passphrase control);
    md_read_call;
    md_close_call ].

Definition keygen_world (control : rzip_control) (salt : mem) (w : world) : world :=
  mkWorld (tl (status w)) (calls w ++ keygen_calls control salt).

(** The inputs that key derivation can read: a global hash of [HASH_LEN]
    bytes, a salt of [SALT_LEN] bytes, and a passphrase that fits the
    scratch array of [lrz_keygen]. *)
Definition valid_inputs (control : rzip_control) (salt : mem) : Prop :=
  HASH_LEN <= len (hash control) /\
  SALT_LEN <= len salt /\
  0 <= salt_pass_len control <= len (salt_pass control) /\
  salt_pass_len control <= PASS_LEN /\
  HASH_LEN + SALT_LEN + PASS_LEN < 2 ^ 64.

(** The part of the derived key and of the derived iv that the cipher
    handles are given. *)
Definition cipher_key (control : rzip_control) (salt : mem) : mem :=
  slice (spec_derive_key control salt) 0 CBC_LEN.
Definition cipher_iv (control : rzip_control) (salt : mem) : mem :=
  slice (spec_derive_iv control salt) 0 CBC_LEN.

(** *** The specification's reading of encryption with ciphertext
    stealing (section 4.3, M <> 0) *)
Definition spec_cts_encrypt (key iv buf : mem) : mem :=
  let M_ := len buf mod 16 in
  let N := len buf - M_ in
  (* 1. CBC-encrypt the first N bytes normally. *)
  let '(c, chain) := cbc_encrypt key iv (Z.to_nat (N / 16)) (slice buf 0 N) in
  (* 2. Zero-pad the final M-byte remainder to a full block and CBC-encrypt
        it, producing a full-block ciphertext T. *)
  let padded := slice buf N M_ ++ zeros (16 - M_) in
  let T := fst (cbc_encrypt key chain 1 padded) in
  (* 3. The block at N - 16 goes to position N, truncated to M bytes, and
        T takes its place. *)
  slice c 0 (N - 16) ++ T ++ slice c (N - 16) M_.

(** What [lrz_crypt] holds at the label [error]: the derived key in
    [key] and the derived iv in [iv]. *)
Definition secrets_held (control : rzip_control) (salt : mem) (s : crypt_exit) : Prop :=
  crypt_key s = spec_derive_key control salt /\
  crypt_iv s = spec_derive_iv control salt.

(** What [lrz_crypt] leaves of its secrets: [key] and [iv] are zeroed and
    no longer locked. *)
Definition secrets_erased (r : crypt_exit) : Prop :=
  crypt_key r = zeros HASH_LEN /\ crypt_iv r = zeros HASH_LEN /\
  key_locked r = false /\ iv_locked r = false.

(** Encryption of [buf] followed by decryption of the result, each a call
    of [lrz_crypt] over the whole buffer, gives [buf] back. *)
Definition round_trip (control : rzip_control) (salt buf : mem) (dir : direction)
    (w : world) : Prop :=
  exists r1 w1 r2 w2,
    lrz_crypt control buf (len buf) salt LRZ_ENCRYPT w = Done r1 w1 /\
    crypt_ret r1 = true /\
    len (crypt_buf r1) = len buf /\
    lrz_crypt control (crypt_buf r1) (len buf) salt dir w1 = Done r2 w2 /\
    crypt_ret r2 = true /\
    crypt_buf r2 = buf.

(** *** The specification's reading of passphrase stretching (section 4.1) *)

(** The round counters [j], [j + 1], ... of [n] rounds. *)
Fixpoint counters (j : Z) (n : nat) : list Z :=
  match n with
  | O => []
  | S n' => j :: counters (j + 1) n'
  end.

(** What round [j] feeds into the hash state: "a little-endian 64-bit
    round counter followed by the passphrase bytes". *)
Definition spec_round_input (control : rzip_control) (j : Z) : mem :=
  le_split 8 j ++ passphrase control.

Definition spec_round_calls (control : rzip_control) (j : Z) : list gcry_call :=
  [md_write_call (le_split 8 j); md_write_call (passphrase control)].

(** "n = iterations * digest_size / (passphrase_length + counter_size)" *)
Definition spec_stretch_count (control : rzip_control) : Z :=
  encloops control * 64 / (salt_pass_len control + 8).

(** *** How the cipher is invoked *)

(** A cipher call as [lrz_crypt] makes it: a key of [CBC_LEN] = 16 bytes,
    an iv of 16 bytes, data in whole 16-byte blocks. *)
Definition cipher_call_ok (c : gcry_call) : Prop :=
  match c with
  | cipher_setkey_call _ keylen => keylen = 16
  | cipher_setiv_call _ ivlen => ivlen = 16
  | cipher_encrypt_call _ keylen n => keylen = 16 /\ n mod aes_blklen = 0
  | cipher_decrypt_call _ keylen n => keylen = 16 /\ n mod aes_blklen = 0
  | _ => True
  end.

(** A cipher call as the specification has it: a key of 32 bytes, an iv
    of 16 bytes, data in whole 16-byte blocks. *)
Definition cipher_call_as_specified (c : gcry_call) : Prop :=
  match c with
  | cipher_setkey_call _ keylen => keylen = 32
  | cipher_setiv_call _ ivlen => ivlen = 16
  | cipher_encrypt_call _ keylen n => keylen = 32 /\ n mod aes_blklen = 0
  | cipher_decrypt_call _ keylen n => keylen = 32 /\ n mod aes_blklen = 0
  | _ => True
  end.

(** The log of [w'] is the log of [w] and then calls that all satisfy [P]. *)
Definition extends (P : gcry_call -> Prop) (w w' : world) : Prop :=
  exists tr, calls w' = calls w ++ tr /\ Forall P tr.

(** *** The specification's reading of the header codec (sections 4.4, 6) *)

(** "type(1) | compressed_length(8, little-endian) |
    uncompressed_length(8, little-endian) |
    previous_header_offset(8, little-endian)" *)
Definition spec_pack_header (f : header_fields) : mem :=
  [c_type f] ++ le_split 8 (c_len f) ++ le_split 8 (u_len f) ++ le_split 8 (last_head f).

Definition spec_unpack_header (region : mem) : header_fields :=
  mkFields (hd Byte.x00 region)
           (to_i64 (le_combine (slice region 1 8)))
           (to_i64 (le_combine (slice region 9 8)))
           (to_i64 (le_combine (slice region 17 8))).

(** *** The cipher calls of one run of [lrz_crypt] *)

(** The fallible cipher calls that [lrz_crypt] makes on a buffer of
    [len_] bytes when none of them fails, in the order of the source. *)
Definition cipher_trace (encrypt : direction) (len_ : Z) : list gcry_call :=
  let M_ := len_ mod 16 in
  let N := len_ - M_ in
  [ cipher_open_call GCRY_CIPHER_MODE_CBC;
    cipher_setkey_call GCRY_CIPHER_MODE_CBC 16;
    cipher_setiv_call GCRY_CIPHER_MODE_CBC 16 ] ++
  match encrypt with
  | LRZ_ENCRYPT =>
      cipher_encrypt_call GCRY_CIPHER_MODE_CBC 16 N ::
      (if M_ =? 0 then [] else [cipher_encrypt_call GCRY_CIPHER_MODE_CBC 16 16])
  | _ =>
      if M_ =? 0 then [cipher_decrypt_call GCRY_CIPHER_MODE_CBC 16 len_]
      else [ cipher_open_call GCRY_CIPHER_MODE_ECB;
             cipher_setkey_call GCRY_CIPHER_MODE_ECB 16;
             cipher_decrypt_call GCRY_CIPHER_MODE_CBC 16 (N - 16);
             cipher_decrypt_call GCRY_CIPHER_MODE_ECB 16 16;
             cipher_decrypt_call GCRY_CIPHER_MODE_CBC 16 16 ]
  end.

(** The [gcry_cipher_close] calls before [ret = true]. *)
Definition cipher_closes (encrypt : direction) (len_ : Z) : list gcry_call :=
  match encrypt with
  | LRZ_ENCRYPT => [cipher_close_call GCRY_CIPHER_MODE_CBC]
  | _ =>
      if len_ mod 16 =? 0 then [cipher_close_call GCRY_CIPHER_MODE_CBC]
      else [ cipher_close_call GCRY_CIPHER_MODE_ECB;
             cipher_close_call GCRY_CIPHER_MODE_CBC ]
  end.

Definition is_close (c : gcry_call) : bool :=
  match c with cipher_close_call _ => true | _ => false end.

(** The statuses in [s] are all success. *)
Definition no_failure_in (s : list Z) : Prop := Forall (fun e => e = 0) s.

(** Where a run stands after the calls [pre], all successful, having
    started from the status tape [s0] and the log [c0]. *)
Definition run_so_far (s0 : list Z) (c0 pre : list gcry_call) (w : world) : Prop :=
  status w = skipn (length pre) s0 /\
  no_failure_in (firstn (length pre) s0) /\
  calls w = c0 ++ pre.

(** A run of the calls [tr] that ended at the first call to fail: the
    calls [pre] before it succeeded, the call [c] read a failure, and no
    call was made after it. *)
Definition stopped_at_failure (s0 : list Z) (c0 tr : list gcry_call) (w' : world)
    (pre : list gcry_call) : Prop :=
  exists c rest,
    tr = pre ++ c :: rest /\
    no_failure_in (firstn (length pre) s0) /\
    nth (length pre) s0 0 <> 0 /\
    status w' = skipn (S (length pre)) s0 /\
    calls w' = c0 ++ pre ++ [c].

(** A run of the calls [tr] in which none failed, ended by [closes]. *)
Definition ran_to_end (s0 : list Z) (c0 tr closes : list gcry_call) (w' : world) : Prop :=
  no_failure_in (firstn (length tr) s0) /\
  status w' = skipn (length tr) s0 /\
  calls w' = c0 ++ tr ++ closes.

(** The buffer [b'] is [b] with nothing changed from the offset [L] on. *)
Definition same_tail (L : Z) (b b' : mem) : Prop :=
  len b' = len b /\ slice b' L (len b - L) = slice b L (len b - L).

(** How the body of [lrz_crypt] ends on the first [L] bytes of [buf]: the
    buffer it returns is [buf] up to its first [L] bytes; with
    [ret = true] every call was made and none failed; with [ret = false]
    the run stopped at the first failure, and [buf] is untouched when
    that was in the setting up of the CBC handle. *)
Definition body_outcome (L : Z) (buf : mem) (s0 : list Z) (c0 tr closes : list gcry_call)
    (r : bool * mem) (w' : world) : Prop :=
  same_tail L buf (snd r) /\
  if fst r then ran_to_end s0 c0 tr closes w'
  else exists pre,
         stopped_at_failure s0 c0 tr w' pre /\
         ((length pre < 3)%nat -> snd r = buf).

(** *** Header fields as the archive holds them *)


(** ** Machine integers and buffers: basic facts *)

Lemma to_int_small z : - 2 ^ 31 <= z < 2 ^ 31 -> to_int z = z.
Proof. intros H. unfold to_int. rewrite Z.mod_small; lia. Qed.

Lemma to_size_t_small z : 0 <= z < 2 ^ 64 -> to_size_t z = z.
Proof. intros H. unfold to_size_t. apply Z.mod_small. lia. Qed.

Lemma len_nonneg b : 0 <= len b.
Proof. unfold len. lia. Qed.

Lemma len_app a b : len (a ++ b) = len a + len b.
Proof. unfold len. rewrite length_app. lia. Qed.

Lemma len_zeros n : 0 <= n -> len (zeros n) = n.
Proof. intros H. unfold len, zeros. rewrite repeat_length. lia. Qed.

Lemma len_slice b off n :
  0 <= off -> 0 <= n -> off + n <= len b -> len (slice b off n) = n.
Proof.
  unfold len, slice. intros Ho Hn Hb.
  rewrite length_firstn, length_skipn. lia.
Qed.

Lemma len_splice b off src :
  0 <= off -> off + len src <= len b -> len (splice b off src) = len b.
Proof.
  unfold splice, len. intros Ho Hb.
  rewrite !length_app, length_firstn, length_skipn. lia.
Qed.

Lemma in_bounds_true b off n :
  0 <= off -> 0 <= n -> off + n <= len b -> in_bounds b off n = true.
Proof.
  intros. unfold in_bounds.
  rewrite !andb_true_iff, !Z.leb_le. auto.
Qed.

Lemma in_bounds_inv b off n :
  in_bounds b off n = true -> 0 <= off /\ 0 <= n /\ off + n <= len b.
Proof.
  unfold in_bounds. rewrite !andb_true_iff, !Z.leb_le. tauto.
Qed.

Lemma load_ok b off n :
  0 <= off -> 0 <= n -> off + n <= len b -> load b off n = Some (slice b off n).
Proof. intros. unfold load. rewrite in_bounds_true; auto. Qed.

Lemma store_ok b off src :
  0 <= off -> off + len src <= len b -> store b off src = Some (splice b off src).
Proof.
  intros. unfold store. rewrite in_bounds_true; auto using len_nonneg.
Qed.

Lemma store_inv b off src b' :
  store b off src = Some b' ->
  b' = splice b off src /\ 0 <= off /\ off + len src <= len b.
Proof.
  unfold store. destruct (in_bounds b off (len src)) eqn:E; [|discriminate].
  intros [= <-]. apply in_bounds_inv in E. tauto.
Qed.

(** Buffers cut in three: the middle part is what a load reads and what a
    store replaces. *)
Lemma slice_app3 a b c off n :
  len a = off -> len b = n -> slice (a ++ b ++ c) off n = b.
Proof.
  unfold slice, len. intros Ha Hb.
  replace (Z.to_nat off) with (length a) by lia.
  replace (Z.to_nat n) with (length b) by lia.
  rewrite skipn_app, skipn_all, Nat.sub_diag. cbn [skipn app].
  rewrite firstn_app, firstn_all, Nat.sub_diag. cbn [firstn].
  apply app_nil_r.
Qed.

Lemma splice_app3 a b c off src :
  len a = off -> len b = len src -> splice (a ++ b ++ c) off src = a ++ src ++ c.
Proof.
  unfold splice, len. intros Ha Hb.
  replace (Z.to_nat off) with (length a) by lia.
  replace (Z.to_nat (off + Z.of_nat (length src))) with (length a + length b)%nat by lia.
  rewrite firstn_app, firstn_all, Nat.sub_diag. cbn [firstn].
  rewrite app_nil_r. f_equal. f_equal.
  rewrite app_assoc, skipn_app, length_app, Nat.sub_diag. cbn [skipn].
  rewrite <- length_app, skipn_all. reflexivity.
Qed.

Lemma slice_all b n : len b = n -> slice b 0 n = b.
Proof.
  unfold slice, len. intros <-. rewrite Nat2Z.id. cbn [Z.to_nat skipn].
  apply firstn_all.
Qed.

Lemma splice_all b src : len src = len b -> splice b 0 src = src.
Proof.
  unfold splice, len. intros H. cbn [Z.to_nat firstn app].
  replace (Z.to_nat (0 + Z.of_nat (length src))) with (length b) by lia.
  rewrite skipn_all. apply app_nil_r.
Qed.

Lemma zeros_app m n : 0 <= m -> 0 <= n -> zeros (m + n) = zeros m ++ zeros n.
Proof.
  intros. unfold zeros. rewrite Z2Nat.inj_add by lia. apply repeat_app.
Qed.

Lemma slice_zeros m n : 0 <= n <= m -> slice (zeros m) 0 n = zeros n.
Proof.
  intros H. replace m with (n + (m - n)) by lia.
  rewrite zeros_app by lia.
  apply (slice_app3 [] (zeros n) (zeros (m - n)) 0 n); [reflexivity|].
  apply len_zeros. lia.
Qed.

(** ** Exclusive or on bytes and on words *)

Lemma lxor_mod_pow2 a b n :
  0 <= n -> Z.lxor a b mod 2 ^ n = Z.lxor (a mod 2 ^ n) (b mod 2 ^ n).
Proof. intros. rewrite <- !Z.land_ones by lia. Z.bitblast. Qed.

Lemma byte_xor_unsigned a b :
  byte.unsigned (byte.xor a b) = Z.lxor (byte.unsigned a) (byte.unsigned b).
Proof.
  unfold byte.xor. rewrite byte.unsigned_of_Z. unfold byte.wrap.
  rewrite lxor_mod_pow2 by lia.
  pose proof (byte.wrap_unsigned a) as Ha. pose proof (byte.wrap_unsigned b) as Hb.
  unfold byte.wrap in Ha, Hb. rewrite Ha, Hb. reflexivity.
Qed.

Lemma byte_xor_cancel a b : byte.xor (byte.xor a b) b = a.
Proof.
  apply byte.unsigned_inj. rewrite !byte_xor_unsigned.
  rewrite Z.lxor_assoc, Z.lxor_nilpotent, Z.lxor_0_r. reflexivity.
Qed.

Lemma byte_xor_0_r a : byte.xor a Byte.x00 = a.
Proof.
  apply byte.unsigned_inj. rewrite byte_xor_unsigned.
  change (byte.unsigned Byte.x00) with 0. apply Z.lxor_0_r.
Qed.

Lemma byte_xor_0_l a : byte.xor Byte.x00 a = a.
Proof.
  apply byte.unsigned_inj. rewrite byte_xor_unsigned.
  change (byte.unsigned Byte.x00) with 0. apply Z.lxor_0_l.
Qed.

Lemma byte_of_Z_lxor x y :
  byte.of_Z (Z.lxor x y) = byte.xor (byte.of_Z x) (byte.of_Z y).
Proof.
  apply byte.unsigned_inj. rewrite byte_xor_unsigned, !byte.unsigned_of_Z.
  unfold byte.wrap. apply lxor_mod_pow2. lia.
Qed.

Lemma xor_bytes_length : forall a b,
  length a = length b -> length (xor_bytes a b) = length a.
Proof.
  induction a as [|x a IH]; intros [|y b] H; cbn in *; try congruence.
  f_equal. apply IH. congruence.
Qed.

Lemma xor_bytes_cancel : forall a b,
  length a = length b -> xor_bytes (xor_bytes a b) b = a.
Proof.
  induction a as [|x a IH]; intros [|y b] H; cbn in *; try congruence.
  rewrite byte_xor_cancel, IH; congruence.
Qed.

Lemma xor_bytes_app : forall a1 b1 a2 b2,
  length a1 = length b1 ->
  xor_bytes (a1 ++ a2) (b1 ++ b2) = xor_bytes a1 b1 ++ xor_bytes a2 b2.
Proof.
  induction a1 as [|x a1 IH]; intros [|y b1] a2 b2 H; cbn in *; try congruence.
  rewrite IH; congruence.
Qed.

Lemma xor_bytes_zeros_r : forall a n,
  length a = n -> xor_bytes a (repeat Byte.x00 n) = a.
Proof.
  induction a as [|x a IH]; intros n H; subst n; cbn; [reflexivity|].
  rewrite byte_xor_0_r, IH; reflexivity.
Qed.

Lemma xor_bytes_zeros_l : forall a n,
  length a = n -> xor_bytes (repeat Byte.x00 n) a = a.
Proof.
  induction a as [|x a IH]; intros n H; subst n; cbn; [reflexivity|].
  rewrite byte_xor_0_l, IH; reflexivity.
Qed.

Lemma le_split_lxor n : forall x y,
  le_split n (Z.lxor x y) = xor_bytes (le_split n x) (le_split n y).
Proof.
  induction n; intros; [reflexivity|].
  change (le_split (S n) ?w) with (byte.of_Z w :: le_split n (Z.shiftr w 8)).
  cbn [xor_bytes].
  rewrite byte_of_Z_lxor, Z.shiftr_lxor, IHn. reflexivity.
Qed.

Lemma le_split_to_i64 z : le_split 8 (to_i64 z) = le_split 8 z.
Proof.
  rewrite (le_split_mod (to_i64 z)), (le_split_mod z).
  f_equal. change (Z.of_nat 8 * 8) with 64. unfold to_i64.
  rewrite Zminus_mod, Z.mod_mod by lia. rewrite <- Zminus_mod. f_equal. lia.
Qed.

(** The exclusive or of two [i64] words is the byte-wise one. *)
Lemma xor_i64_bytes a b :
  length a = 8%nat -> length b = 8%nat ->
  le_split 8 (Z.lxor (to_i64 (le_combine a)) (to_i64 (le_combine b))) = xor_bytes a b.
Proof.
  intros Ha Hb.
  rewrite le_split_lxor, !le_split_to_i64.
  rewrite (split_le_combine' a 8 Ha), (split_le_combine' b 8 Hb). reflexivity.
Qed.

(** ** A weakest-precondition reading of the monad *)

Lemma wp_ret {A} (a : A) Q w : Q a w -> wp (ret a) Q w.
Proof. exact (fun H => H). Qed.

Lemma wp_bind {A B} (m : M A) (k : A -> M B) Q w :
  wp m (fun a w' => wp (k a) Q w') w -> wp (bind m k) Q w.
Proof. unfold wp, bind. destruct (m w); auto. Qed.

Lemma wp_mono {A} (m : M A) (Q Q' : A -> world -> Prop) w :
  wp m Q w -> (forall a w', Q a w' -> Q' a w') -> wp m Q' w.
Proof. unfold wp. destruct (m w); auto. Qed.

Lemma wp_done {A} (m : M A) Q w :
  wp m Q w <-> exists a w', m w = Done a w' /\ Q a w'.
Proof.
  unfold wp. split.
  - destruct (m w) as [a w'|]; [eauto | tauto].
  - intros (a & w' & -> & H). exact H.
Qed.

Lemma wp_access {A} (o : option A) a Q w : o = Some a -> Q a w -> wp (access o) Q w.
Proof. intros -> H. exact H. Qed.

Lemma wp_log c Q w : Q tt (logged c w) -> wp (log c) Q w.
Proof. exact (fun H => H). Qed.

Lemma fallible_call {A} c (k : Z -> M A) w :
  (log c ;;; e <- next_status ;; k e) w = k (st w) (after c w).
Proof.
  destruct w as [s cs]. unfold bind, log, next_status, st, after. cbn.
  destruct s; reflexivity.
Qed.

Lemma wp_fallible {A} c (k : Z -> M A) Q w :
  wp (k (st w)) Q (after c w) -> wp (log c ;;; e <- next_status ;; k e) Q w.
Proof. unfold wp. rewrite fallible_call. auto. Qed.

Lemma all_ok_st w : all_ok w -> st w = 0.
Proof.
  destruct w as [[|e s] cs]; unfold all_ok, st; cbn; [reflexivity|].
  intros H. now inversion H.
Qed.

Lemma all_ok_after c w : all_ok w -> all_ok (after c w).
Proof.
  destruct w as [[|e s] cs]; unfold all_ok, after; cbn; [auto|].
  intros H. now inversion H.
Qed.

Lemma wp_memcpy dst doff src soff n Q w :
  0 <= n < 2 ^ 64 ->
  0 <= soff -> soff + n <= len src ->
  0 <= doff -> doff + n <= len dst ->
  Q (splice dst doff (slice src soff n)) w ->
  wp (memcpy dst doff src soff n) Q w.
Proof.
  intros Hn Hs1 Hs2 Hd1 Hd2 HQ. unfold memcpy.
  rewrite to_size_t_small by lia.
  apply wp_bind. eapply wp_access; [apply load_ok; lia|].
  eapply wp_access; [|exact HQ].
  apply store_ok; [lia|]. rewrite len_slice; lia.
Qed.

Lemma wp_memset0 dst doff n Q w :
  0 <= n < 2 ^ 64 -> 0 <= doff -> doff + n <= len dst ->
  Q (splice dst doff (zeros n)) w ->
  wp (memset0 dst doff n) Q w.
Proof.
  intros Hn Hd1 Hd2 HQ. unfold memset0.
  rewrite to_size_t_small by lia.
  apply wp_bind. eapply wp_access; [apply load_ok; lia|].
  eapply wp_access; [|exact HQ].
  apply store_ok; [lia|]. rewrite len_zeros; lia.
Qed.

(** *** libgcrypt calls *)

Lemma wp_md_open Q w :
  Q (st w, if failed (st w) then None else Some []) (after md_open_call w) ->
  wp gcry_md_open Q w.
Proof. intros H. unfold gcry_md_open. apply wp_fallible. exact H. Qed.

Lemma wp_md_write ctx buf n Q w :
  0 <= n < 2 ^ 64 -> n <= len buf ->
  Q (Some (ctx ++ slice buf 0 n)) (logged (md_write_call (slice buf 0 n)) w) ->
  wp (gcry_md_write (Some ctx) buf n) Q w.
Proof.
  intros Hn Hb HQ. unfold gcry_md_write.
  rewrite to_size_t_small by lia.
  apply wp_bind. eapply wp_access; [reflexivity|].
  apply wp_bind. eapply wp_access; [apply load_ok; lia|].
  apply wp_bind, wp_log, wp_ret. exact HQ.
Qed.

Lemma wp_md_read ctx Q w :
  Q (sha512 ctx) (logged md_read_call w) -> wp (gcry_md_read (Some ctx)) Q w.
Proof.
  intros HQ. unfold gcry_md_read.
  apply wp_bind. eapply wp_access; [reflexivity|].
  apply wp_bind, wp_log, wp_ret. exact HQ.
Qed.

Lemma wp_md_reset ctx Q w :
  Q (Some []) (logged md_reset_call w) -> wp (gcry_md_reset (Some ctx)) Q w.
Proof.
  intros HQ. unfold gcry_md_reset.
  apply wp_bind. eapply wp_access; [reflexivity|].
  apply wp_bind, wp_log, wp_ret. exact HQ.
Qed.

Lemma wp_md_close h Q w :
  Q tt (logged md_close_call w) -> wp (gcry_md_close h) Q w.
Proof. exact (fun H => H). Qed.

(** *** Key derivation *)

Lemma splice_head b c src : len b = len src -> splice (b ++ c) 0 src = src ++ c.
Proof. intros H. apply (splice_app3 [] b c 0 src); [reflexivity | exact H]. Qed.

Lemma slice_head b c n : len b = n -> slice (b ++ c) 0 n = b.
Proof. intros H. apply (slice_app3 [] b c 0 n); [reflexivity | exact H]. Qed.

Lemma pack3 z1 z2 z3 z4 h s p :
  len z1 = 64 -> len h = 64 -> len z2 = 16 -> len s = 16 -> len z3 = len p ->
  splice (splice (splice (z1 ++ z2 ++ z3 ++ z4) 0 h) 64 s) (64 + 16) p
  = h ++ s ++ p ++ z4.
Proof.
  intros H1 Hh H2 Hs H3.
  rewrite splice_head by lia.
  rewrite (splice_app3 h z2 (z3 ++ z4) 64 s) by lia.
  rewrite (app_assoc h s).
  rewrite (splice_app3 (h ++ s) z3 z4 (64 + 16) p) by (rewrite ?len_app; lia).
  rewrite <- app_assoc. reflexivity.
Qed.

Ltac lens :=
  repeat first
    [ rewrite len_app
    | rewrite len_zeros by lia
    | rewrite len_slice by lens
    | rewrite len_splice by lens ];
  lia.

Lemma wp_lrz_keygen control salt key iv w :
  HASH_LEN <= len (hash control) ->
  SALT_LEN <= len salt ->
  0 <= salt_pass_len control <= len (salt_pass control) ->
  salt_pass_len control <= PASS_LEN ->
  HASH_LEN + SALT_LEN + PASS_LEN < 2 ^ 64 ->
  len key = HASH_LEN -> len iv = HASH_LEN ->
  failed (st w) = false ->
  wp (lrz_keygen control salt key iv)
     (fun r w' => r = (spec_derive_key control salt, spec_derive_iv control salt)
                  /\ w' = keygen_world control salt w) w.
Proof.
  intros Hh Hs Hp Hpl Hpm Hk Hv Hst.
  unfold lrz_keygen, spec_derive_iv, spec_derive_key, keygen_world, keygen_calls.
  unfold global_hash, block_salt, passphrase.
  pose proof (sha512_length) as Hsha.
  unfold HASH_LEN, SALT_LEN in *.
  set (plen := salt_pass_len control) in *.
  set (H := slice (hash control) 0 64).
  set (S := slice salt 0 16).
  set (P := slice (salt_pass control) 0 plen).
  assert (HH : len H = 64) by (apply len_slice; lia).
  assert (HS : len S = 16) by (apply len_slice; lia).
  assert (HP : len P = plen) by (apply len_slice; lia).
  replace (64 + 16 + PASS_LEN) with (64 + (16 + (plen + (PASS_LEN - plen)))) by lia.
  rewrite !zeros_app by lia.
  apply wp_bind, wp_memcpy; [lia | lia | lia | lia | lens |].
  apply wp_bind, wp_memcpy; [lia | lia | lia | lia | lens |].
  apply wp_bind, wp_memcpy; [lia | lia | lia | lia | lens |].
  fold H S P.
  rewrite pack3 by (rewrite ?len_zeros by lia; lia).
  apply wp_bind, wp_md_open. rewrite Hst.
  apply wp_bind, wp_md_write; [lia | lens |].
  replace (slice (H ++ S ++ P ++ zeros (PASS_LEN - plen)) 0 (64 + 16 + plen))
    with (H ++ S ++ P).
  2:{ rewrite (app_assoc S P), (app_assoc H (S ++ P)).
      rewrite slice_head; [reflexivity | lens]. }
  cbn [app].
  apply wp_bind, wp_md_read.
  set (K := sha512 (H ++ S ++ P)).
  assert (HK : len K = 64) by apply Hsha.
  apply wp_bind, wp_memcpy; [lia | lia | lia | lia | lia |].
  rewrite slice_all, splice_all by lia.
  apply wp_bind, wp_md_reset.
  apply wp_bind, wp_memcpy; [lia | lia | lia | lia | lens |].
  apply wp_bind, wp_memcpy; [lia | lia | lia | lia | lens |].
  apply wp_bind, wp_memcpy; [lia | lia | lia | lia | lens |].
  rewrite (slice_all K) by lia.
  fold S P.
  rewrite pack3 by lia.
  apply wp_bind, wp_md_write; [lia | lens |].
  replace (slice (K ++ S ++ P ++ zeros (PASS_LEN - plen)) 0 (64 + 16 + plen))
    with (K ++ S ++ P).
  2:{ rewrite (app_assoc S P), (app_assoc K (S ++ P)).
      rewrite slice_head; [reflexivity | lens]. }
  cbn [app].
  apply wp_bind, wp_md_read.
  set (V := sha512 (K ++ S ++ P)).
  assert (HV : len V = 64) by apply Hsha.
  apply wp_bind, wp_memcpy; [lia | lia | lia | lia | lia |].
  rewrite slice_all, splice_all by lia.
  apply wp_bind, wp_md_close.
  apply wp_bind, wp_memset0; [lia | lia | lens |].
  apply wp_ret. split; [reflexivity|].
  unfold logged, after. cbn [status calls]. f_equal.
  rewrite <- !app_assoc. reflexivity.
Qed.

(** *** The cipher modes *)

Lemma len_xor_bytes a b : len a = len b -> len (xor_bytes a b) = len a.
Proof. unfold len. intros H. rewrite xor_bytes_length; lia. Qed.

Lemma len_firstn16 d : 16 <= len d -> len (firstn 16 d) = 16.
Proof. unfold len. rewrite length_firstn. lia. Qed.

Lemma len_skipn16 d : 16 <= len d -> len (skipn 16 d) = len d - 16.
Proof. unfold len. rewrite length_skipn. lia. Qed.

Lemma firstn16_exact c cs : len c = 16 -> firstn 16 (c ++ cs) = c.
Proof.
  unfold len. intros H. replace 16%nat with (length c) by lia.
  rewrite firstn_app, firstn_all, Nat.sub_diag. apply app_nil_r.
Qed.

Lemma skipn16_exact c cs : len c = 16 -> skipn 16 (c ++ cs) = cs.
Proof.
  unfold len. intros H. replace 16%nat with (length c) by lia.
  rewrite skipn_app, skipn_all, Nat.sub_diag. reflexivity.
Qed.

Lemma firstn16_app d1 d2 : 16 <= len d1 -> firstn 16 (d1 ++ d2) = firstn 16 d1.
Proof.
  unfold len. intros H. rewrite firstn_app.
  replace (16 - length d1)%nat with 0%nat by lia.
  rewrite firstn_O. apply app_nil_r.
Qed.

Lemma skipn16_app d1 d2 : 16 <= len d1 -> skipn 16 (d1 ++ d2) = skipn 16 d1 ++ d2.
Proof.
  unfold len. intros H. rewrite skipn_app.
  replace (16 - length d1)%nat with 0%nat by lia. reflexivity.
Qed.

Lemma cbc_encrypt_length key : forall n iv data,
  len key = 16 -> len iv = 16 -> 16 * Z.of_nat n <= len data ->
  len (fst (cbc_encrypt key iv n data)) = 16 * Z.of_nat n /\
  len (snd (cbc_encrypt key iv n data)) = 16.
Proof.
  induction n as [|n IH]; intros iv data Hk Hv Hd; cbn [cbc_encrypt].
  - cbn. split; [reflexivity | exact Hv].
  - set (c := aes_encrypt_block key (xor_bytes (firstn 16 data) iv)).
    assert (Hc : len c = 16).
    { apply aes_encrypt_length; [exact Hk|].
      rewrite len_xor_bytes; rewrite len_firstn16; lia. }
    specialize (IH c (skipn 16 data) Hk Hc).
    destruct (cbc_encrypt key c n (skipn 16 data)) as [cs iv'].
    cbn [fst snd] in *. rewrite len_app, Hc.
    destruct IH as [IH1 IH2]; [rewrite len_skipn16; lia|]. lia.
Qed.

Lemma cbc_decrypt_length key : forall n iv data,
  len key = 16 -> len iv = 16 -> 16 * Z.of_nat n <= len data ->
  len (fst (cbc_decrypt key iv n data)) = 16 * Z.of_nat n /\
  len (snd (cbc_decrypt key iv n data)) = 16.
Proof.
  induction n as [|n IH]; intros iv data Hk Hv Hd; cbn [cbc_decrypt].
  - cbn. split; [reflexivity | exact Hv].
  - set (c := firstn 16 data).
    assert (Hc : len c = 16) by (apply len_firstn16; lia).
    set (p := xor_bytes (aes_decrypt_block key c) iv).
    assert (Hp : len p = 16).
    { unfold p. rewrite len_xor_bytes; rewrite aes_decrypt_length; lia. }
    specialize (IH c (skipn 16 data) Hk Hc).
    destruct (cbc_decrypt key c n (skipn 16 data)) as [ps iv'].
    cbn [fst snd] in *. rewrite len_app, Hp.
    destruct IH as [IH1 IH2]; [rewrite len_skipn16; lia|]. lia.
Qed.

Lemma ecb_crypt_length (f : mem -> mem) :
  (forall b, len b = 16 -> len (f b) = 16) ->
  forall n data, 16 * Z.of_nat n <= len data ->
  len (ecb_crypt f n data) = 16 * Z.of_nat n.
Proof.
  intros Hf. induction n as [|n IH]; intros data Hd; cbn [ecb_crypt].
  - reflexivity.
  - rewrite len_app, Hf, IH; [lia | rewrite len_skipn16; lia | apply len_firstn16; lia].
Qed.

(** A CBC pass over [n + m] blocks is a pass over [n] blocks followed by
    one over [m] blocks that starts from the chaining value reached. *)
Lemma cbc_encrypt_app key : forall n m iv d1 d2,
  len d1 = 16 * Z.of_nat n ->
  cbc_encrypt key iv (n + m) (d1 ++ d2) =
  let '(c1, iv1) := cbc_encrypt key iv n d1 in
  let '(c2, iv2) := cbc_encrypt key iv1 m d2 in
  (c1 ++ c2, iv2).
Proof.
  induction n as [|n IH]; intros m iv d1 d2 H1.
  - destruct d1; [|unfold len in H1; cbn in H1; lia]. cbn.
    destruct (cbc_encrypt key iv m d2). reflexivity.
  - cbn [Nat.add cbc_encrypt].
    rewrite firstn16_app, skipn16_app by lia.
    rewrite IH by (rewrite len_skipn16; lia).
    destruct (cbc_encrypt key _ n (skipn 16 d1)) as [c1 iv1].
    destruct (cbc_encrypt key iv1 m d2) as [c2 iv2].
    rewrite app_assoc. reflexivity.
Qed.

(** CBC decryption undoes CBC encryption and reaches the same chaining
    value. *)
Lemma cbc_decrypt_encrypt key : forall n iv data,
  len key = 16 -> len iv = 16 -> len data = 16 * Z.of_nat n ->
  cbc_decrypt key iv n (fst (cbc_encrypt key iv n data)) =
  (data, snd (cbc_encrypt key iv n data)).
Proof.
  induction n as [|n IH]; intros iv data Hk Hv Hd.
  - destruct data; [reflexivity | unfold len in Hd; cbn in Hd; lia].
  - cbn [cbc_encrypt].
    set (x := xor_bytes (firstn 16 data) iv).
    assert (Hx : len x = 16).
    { unfold x. rewrite len_xor_bytes; rewrite len_firstn16; lia. }
    set (c := aes_encrypt_block key x).
    assert (Hc : len c = 16) by (apply aes_encrypt_length; assumption).
    specialize (IH c (skipn 16 data) Hk Hc).
    pose proof (cbc_encrypt_length key n c (skipn 16 data) Hk Hc) as Hl.
    destruct (cbc_encrypt key c n (skipn 16 data)) as [cs iv'].
    cbn [fst snd] in *.
    cbn [cbc_decrypt].
    rewrite firstn16_exact, skipn16_exact by exact Hc.
    rewrite IH by (rewrite len_skipn16; lia).
    unfold c. rewrite aes_decrypt_encrypt by assumption.
    unfold x. rewrite xor_bytes_cancel.
    + rewrite firstn_skipn. reflexivity.
    + assert (len (firstn 16 data) = 16) by (apply len_firstn16; lia).
      unfold len in *. lia.
Qed.

(** *** Cipher handles *)

Lemma all_ok_not_failed w : all_ok w -> failed (st w) = false.
Proof. intros H. rewrite (all_ok_st w H). reflexivity. Qed.

Lemma wp_cipher_open m Q w :
  Q (st w, mkCipher m [] (zeros aes_blklen)) (after (cipher_open_call m) w) ->
  wp (gcry_cipher_open m) Q w.
Proof. intros H. unfold gcry_cipher_open. apply wp_fallible. exact H. Qed.

Lemma wp_cipher_setkey h key keylen Q w :
  0 <= keylen < 2 ^ 64 ->
  (failed (st w) = true ->
   Q (st w, h) (after (cipher_setkey_call (hd_mode h) keylen) w)) ->
  (failed (st w) = false ->
   keylen <= len key /\
   Q (0, mkCipher (hd_mode h) (slice key 0 keylen) (hd_iv h))
     (after (cipher_setkey_call (hd_mode h) keylen) w)) ->
  wp (gcry_cipher_setkey h key keylen) Q w.
Proof.
  intros Hn Hf Hs. unfold gcry_cipher_setkey.
  rewrite to_size_t_small by lia. apply wp_fallible.
  destruct (failed (st w)).
  - apply wp_ret. auto.
  - destruct Hs as [Hb HQ]; [reflexivity|].
    apply wp_bind. eapply wp_access; [apply load_ok; lia|].
    apply wp_ret. exact HQ.
Qed.

Lemma wp_cipher_setiv h iv ivlen Q w :
  0 <= ivlen < 2 ^ 64 ->
  (failed (st w) = true ->
   Q (st w, h) (after (cipher_setiv_call (hd_mode h) ivlen) w)) ->
  (failed (st w) = false ->
   ivlen <= len iv /\
   Q (0, mkCipher (hd_mode h) (hd_key h) (slice iv 0 ivlen))
     (after (cipher_setiv_call (hd_mode h) ivlen) w)) ->
  wp (gcry_cipher_setiv h iv ivlen) Q w.
Proof.
  intros Hn Hf Hs. unfold gcry_cipher_setiv.
  rewrite to_size_t_small by lia. apply wp_fallible.
  destruct (failed (st w)).
  - apply wp_ret. auto.
  - destruct Hs as [Hb HQ]; [reflexivity|].
    apply wp_bind. eapply wp_access; [apply load_ok; lia|].
    apply wp_ret. exact HQ.
Qed.

(** A transform in place. *)
Lemma wp_cipher_crypt_inplace enc h out ooff outsize Q w :
  0 <= outsize < 2 ^ 64 ->
  (failed (st w) = true -> Q (st w, out, h) (after (crypt_call enc h outsize) w)) ->
  (failed (st w) = false ->
   outsize mod 16 = 0 /\ 0 <= ooff /\ ooff + outsize <= len out /\
   len (fst (cipher_run enc h (slice out ooff outsize))) = outsize /\
   Q (0, splice out ooff (fst (cipher_run enc h (slice out ooff outsize))),
      snd (cipher_run enc h (slice out ooff outsize)))
     (after (crypt_call enc h outsize) w)) ->
  wp (gcry_cipher_crypt enc h out ooff outsize None 0) Q w.
Proof.
  intros Hn Hf Hs. unfold gcry_cipher_crypt.
  rewrite to_size_t_small by lia. apply wp_fallible.
  destruct (failed (st w)).
  - apply wp_ret. auto.
  - destruct Hs as (Hm & Ho1 & Ho2 & Hl & HQ); [reflexivity|].
    unfold aes_blklen. rewrite Hm. cbn [Z.eqb negb].
    apply wp_bind. eapply wp_access; [apply load_ok; lia|].
    destruct (cipher_run enc h (slice out ooff outsize)) as [res h'].
    cbn [fst snd] in *.
    apply wp_bind. eapply wp_access; [apply store_ok; lia|].
    apply wp_ret. exact HQ.
Qed.

(** A transform from [inp + ioff] to [out + ooff]. *)
Lemma wp_cipher_crypt_to enc h out ooff outsize inp ioff inlen Q w :
  0 <= inlen < 2 ^ 64 ->
  (failed (st w) = true -> Q (st w, out, h) (after (crypt_call enc h inlen) w)) ->
  (failed (st w) = false ->
   inlen mod 16 = 0 /\ 0 <= ioff /\ ioff + inlen <= len inp /\
   0 <= ooff /\ ooff + inlen <= len out /\
   len (fst (cipher_run enc h (slice inp ioff inlen))) = inlen /\
   Q (0, splice out ooff (fst (cipher_run enc h (slice inp ioff inlen))),
      snd (cipher_run enc h (slice inp ioff inlen)))
     (after (crypt_call enc h inlen) w)) ->
  wp (gcry_cipher_crypt enc h out ooff outsize (Some (inp, ioff)) inlen) Q w.
Proof.
  intros Hn Hf Hs. unfold gcry_cipher_crypt.
  rewrite to_size_t_small by lia. apply wp_fallible.
  destruct (failed (st w)).
  - apply wp_ret. auto.
  - destruct Hs as (Hm & Hi1 & Hi2 & Ho1 & Ho2 & Hl & HQ); [reflexivity|].
    unfold aes_blklen. rewrite Hm. cbn [Z.eqb negb].
    apply wp_bind. eapply wp_access; [apply load_ok; lia|].
    destruct (cipher_run enc h (slice inp ioff inlen)) as [res h'].
    cbn [fst snd] in *.
    apply wp_bind. eapply wp_access; [apply store_ok; lia|].
    apply wp_ret. exact HQ.
Qed.

Lemma wp_cipher_close h Q w :
  Q tt (logged (cipher_close_call (hd_mode h)) w) -> wp (gcry_cipher_close h) Q w.
Proof. exact (fun H => H). Qed.

(** What a pass of a keyed handle computes. *)
Lemma cipher_run_cbc enc key iv data n :
  len data = 16 * Z.of_nat n ->
  cipher_run enc (mkCipher GCRY_CIPHER_MODE_CBC key iv) data =
  (fst ((if enc then cbc_encrypt else cbc_decrypt) key iv n data),
   mkCipher GCRY_CIPHER_MODE_CBC key
     (snd ((if enc then cbc_encrypt else cbc_decrypt) key iv n data))).
Proof.
  intros H. unfold cipher_run, aes_blklen. cbn [hd_mode hd_key hd_iv].
  replace (Z.to_nat (len data / 16)) with n.
  2:{ rewrite H, Z.mul_comm, Z.div_mul by lia. lia. }
  destruct ((if enc then cbc_encrypt else cbc_decrypt) key iv n data). reflexivity.
Qed.

Lemma cipher_run_ecb enc key iv data n :
  len data = 16 * Z.of_nat n ->
  cipher_run enc (mkCipher GCRY_CIPHER_MODE_ECB key iv) data =
  (ecb_crypt ((if enc then aes_encrypt_block else aes_decrypt_block) key) n data,
   mkCipher GCRY_CIPHER_MODE_ECB key iv).
Proof.
  intros H. unfold cipher_run, aes_blklen. cbn [hd_mode hd_key hd_iv].
  replace (Z.to_nat (len data / 16)) with n.
  2:{ rewrite H, Z.mul_comm, Z.div_mul by lia. lia. }
  reflexivity.
Qed.

(** The length of what a pass returns. *)
Lemma cipher_run_length enc m key iv data :
  len key = 16 -> len iv = 16 -> 0 <= len data -> len data mod 16 = 0 ->
  len (fst (cipher_run enc (mkCipher m key iv) data)) = len data /\
  hd_mode (snd (cipher_run enc (mkCipher m key iv) data)) = m /\
  hd_key (snd (cipher_run enc (mkCipher m key iv) data)) = key /\
  len (hd_iv (snd (cipher_run enc (mkCipher m key iv) data))) = 16.
Proof.
  intros Hk Hv Hd Hm.
  assert (E : len data = 16 * Z.of_nat (Z.to_nat (len data / 16))).
  { rewrite Z2Nat.id by (apply Z.div_pos; lia).
    apply Z.div_exact in Hm; lia. }
  destruct m.
  - rewrite (cipher_run_cbc enc key iv data _ E). cbn [fst snd hd_mode hd_key hd_iv].
    destruct enc.
    + destruct (cbc_encrypt_length key (Z.to_nat (len data / 16)) iv data) as [H1 H2];
        try lia. rewrite H1, H2. repeat split; lia.
    + destruct (cbc_decrypt_length key (Z.to_nat (len data / 16)) iv data) as [H1 H2];
        try lia. rewrite H1, H2. repeat split; lia.
  - rewrite (cipher_run_ecb enc key iv data _ E). cbn [fst snd hd_mode hd_key hd_iv].
    rewrite ecb_crypt_length; try lia.
    + repeat split; lia.
    + intros b Hb. destruct enc; auto.
Qed.

(** *** Buffers cut at an offset *)

Lemma slice_split b n :
  0 <= n <= len b -> b = slice b 0 n ++ slice b n (len b - n).
Proof.
  unfold slice, len. intros H. cbn [Z.to_nat skipn].
  rewrite (firstn_all2 (n := Z.to_nat (Z.of_nat (length b) - n))).
  - symmetry. apply firstn_skipn.
  - rewrite length_skipn. lia.
Qed.

Lemma slice_tail a b off n : len a = off -> len b = n -> slice (a ++ b) off n = b.
Proof.
  intros Ha Hb. rewrite <- (app_nil_r b) at 1. now apply slice_app3.
Qed.

Lemma splice_tail a b off src :
  len a = off -> len b = len src -> splice (a ++ b) off src = a ++ src.
Proof.
  intros Ha Hb. rewrite <- (app_nil_r b).
  rewrite splice_app3 by assumption. now rewrite app_nil_r.
Qed.

(** The layout that the last three statements of the encryption branch
    leave: the block at [N - 16] moves to [N], truncated, and [T] takes
    its place. *)
Lemma steal_layout c r t N M_ :
  len c = N -> 16 <= N -> 0 <= M_ <= 16 -> len r = M_ -> len t = 16 ->
  splice (splice (c ++ r) N (slice (c ++ r) (N - 16) M_)) (N - 16) t
  = slice c 0 (N - 16) ++ t ++ slice c (N - 16) M_.
Proof.
  intros Hc HN HM Hr Ht.
  set (a := slice c 0 (N - 16)).
  set (l := slice c (N - 16) 16).
  assert (Ec : c = a ++ l).
  { rewrite (slice_split c (N - 16)) at 1 by lia.
    unfold a, l. do 2 f_equal. lia. }
  assert (Ha : len a = N - 16) by (apply len_slice; lia).
  assert (Hl : len l = 16) by (apply len_slice; lia).
  set (s := slice l 0 M_).
  set (s' := slice l M_ (16 - M_)).
  assert (El : l = s ++ s').
  { rewrite (slice_split l M_) at 1 by lia. unfold s, s'. do 2 f_equal. lia. }
  assert (Hs : len s = M_) by (apply len_slice; lia).
  assert (Hs' : len s' = 16 - M_) by (apply len_slice; lia).
  assert (E1 : slice c (N - 16) M_ = s).
  { rewrite Ec, El. apply slice_app3; lia. }
  rewrite E1.
  assert (E2 : slice (c ++ r) (N - 16) M_ = s).
  { rewrite Ec, El, <- !app_assoc. apply slice_app3; lia. }
  rewrite E2.
  rewrite splice_tail by lia.
  rewrite Ec at 1. rewrite <- app_assoc.
  rewrite splice_app3 by lia. reflexivity.
Qed.

(** *** The block transform when every library call succeeds *)

Lemma len_zero_nil b : len b = 0 -> b = [].
Proof. destruct b; [reflexivity | unfold len; cbn; lia]. Qed.

Ltac no_failure Hok :=
  let Hc := fresh in
  intros Hc; rewrite (all_ok_not_failed _ Hok) in Hc; discriminate Hc.

(** The world moves on: [Hok] is restated for the world of the goal. *)
Ltac next_world Hok :=
  match goal with
  | |- wp _ _ ?w1 =>
      let H' := fresh "Hok" in
      assert (H' : all_ok w1)
        by (first [exact Hok | apply all_ok_after; exact Hok]);
      clear Hok; rename H' into Hok
  end.

Lemma wp_body_encrypt K V buf L M_ N w :
  len K = 64 -> len V = 64 -> len buf = L -> all_ok w ->
  0 <= L < 2 ^ 31 -> M_ = L mod 16 -> N = L - M_ -> (M_ <> 0 -> 16 <= N) ->
  wp (lrz_crypt_body K V buf L M_ N LRZ_ENCRYPT)
     (fun r w' =>
        r = (true,
             if M_ =? 0
             then fst (cbc_encrypt (slice K 0 16) (slice V 0 16) (Z.to_nat (N / 16)) buf)
             else spec_cts_encrypt (slice K 0 16) (slice V 0 16) buf)
        /\ all_ok w') w.
Proof.
  intros HK HV Hbuf Hok HL HM HN HN16.
  assert (HMr : 0 <= M_ < 16) by (subst M_; apply Z.mod_pos_bound; lia).
  assert (HNm : N mod 16 = 0).
  { subst N M_. rewrite Zminus_mod, Z.mod_mod, Z.sub_diag by lia. reflexivity. }
  set (nb := Z.to_nat (N / 16)).
  assert (HNb : N = 16 * Z.of_nat nb).
  { unfold nb. rewrite Z2Nat.id by (apply Z.div_pos; lia).
    apply Z.div_exact in HNm; lia. }
  set (k := slice K 0 16). set (v := slice V 0 16).
  assert (Hk : len k = 16) by (apply len_slice; lia).
  assert (Hv : len v = 16) by (apply len_slice; lia).
  set (p := slice buf 0 N). set (r := slice buf N M_).
  assert (Ebuf : buf = p ++ r).
  { rewrite (slice_split buf N) at 1 by lia. unfold p, r. do 2 f_equal. lia. }
  assert (Hp : len p = N) by (apply len_slice; lia).
  assert (Hr : len r = M_) by (apply len_slice; lia).
  unfold lrz_crypt_body, CBC_LEN.
  apply wp_bind, wp_cipher_open. rewrite (all_ok_st w Hok). cbn [failed Z.eqb negb].
  next_world Hok.
  apply wp_bind, wp_cipher_setkey; [lia | no_failure Hok | intros _; split; [lia|]].
  cbn [failed Z.eqb negb hd_mode hd_iv hd_key]. next_world Hok.
  apply wp_bind, wp_cipher_setiv; [lia | no_failure Hok | intros _; split; [lia|]].
  cbn [failed Z.eqb negb hd_mode hd_iv hd_key]. next_world Hok.
  fold k v.
  unfold lrz_crypt_encrypt, gcry_cipher_encrypt, CBC_LEN.
  destruct (cbc_encrypt_length k nb v p Hk Hv) as [Hc Hchain]; [lia|].
  assert (Erun : cipher_run true (mkCipher GCRY_CIPHER_MODE_CBC k v) (slice buf 0 N)
                 = (fst (cbc_encrypt k v nb p),
                    mkCipher GCRY_CIPHER_MODE_CBC k (snd (cbc_encrypt k v nb p)))).
  { fold p. apply (cipher_run_cbc true). lia. }
  apply wp_bind, wp_cipher_crypt_inplace; [lia | no_failure Hok | intros _].
  rewrite Erun. cbn [fst snd].
  split; [exact HNm|]. split; [lia|]. split; [lia|]. split; [lia|].
  cbn [failed Z.eqb negb]. next_world Hok.
  set (c := fst (cbc_encrypt k v nb p)) in *.
  set (chain := snd (cbc_encrypt k v nb p)) in *.
  assert (Ebuf1 : splice buf 0 c = c ++ r).
  { rewrite Ebuf. apply splice_head. lia. }
  rewrite Ebuf1.
  destruct (Z.eqb_spec M_ 0) as [HM0 | HM0]; cbn [negb].
  - (* a whole number of blocks *)
    unfold lrz_crypt_finish.
    apply wp_bind, wp_cipher_close, wp_ret. split; [|exact Hok].
    f_equal.
    assert (Er : r = []) by (apply len_zero_nil; lia).
    rewrite Ebuf, Er, !app_nil_r. reflexivity.
  - (* ciphertext stealing *)
    specialize (HN16 HM0).
    apply wp_bind, wp_memset0; [lia | lia | rewrite len_zeros; lia |].
    rewrite splice_all by (rewrite !len_zeros; lia).
    apply wp_bind, wp_memcpy; [lia | lia | lens | lia | rewrite len_zeros; lia |].
    rewrite slice_tail by lia.
    replace (zeros 16) with (zeros M_ ++ zeros (16 - M_))
      by (rewrite <- zeros_app by lia; f_equal; lia).
    rewrite splice_head by (rewrite len_zeros; lia).
    set (padded := r ++ zeros (16 - M_)).
    assert (Hpad : len padded = 16) by (unfold padded; rewrite len_app, len_zeros; lia).
    destruct (cbc_encrypt_length k 1 chain padded Hk Hchain) as [Ht _]; [lia|].
    assert (Erun2 : cipher_run true (mkCipher GCRY_CIPHER_MODE_CBC k chain)
                      (slice padded 0 16)
                   = (fst (cbc_encrypt k chain 1 padded),
                      mkCipher GCRY_CIPHER_MODE_CBC k (snd (cbc_encrypt k chain 1 padded)))).
    { rewrite slice_all by exact Hpad. apply (cipher_run_cbc true). lia. }
    apply wp_bind, wp_cipher_crypt_to; [lia | no_failure Hok | intros _].
    rewrite Erun2. cbn [fst snd].
    split; [reflexivity|]. split; [lia|]. split; [lia|]. split; [lia|].
    split; [lens|]. split; [lia|].
    cbn [failed Z.eqb negb]. next_world Hok.
    set (T := fst (cbc_encrypt k chain 1 padded)) in *.
    rewrite splice_all by lens.
    apply wp_bind, wp_memcpy; [lia | lia | lens | lia | lens |].
    apply wp_bind, wp_memcpy; [lia | lia | lia | lia | lens |].
    rewrite (slice_all T) by lia.
    rewrite steal_layout by lia.
    unfold lrz_crypt_finish.
    apply wp_bind, wp_cipher_close, wp_ret. split; [|exact Hok].
    f_equal. unfold spec_cts_encrypt.
    rewrite Hbuf, <- HM, <- HN. fold nb p r.
    unfold T, padded, chain, c.
    destruct (cbc_encrypt k v nb p). reflexivity.
Qed.

(** *** One block *)

Lemma firstn16_all d : len d = 16 -> firstn 16 d = d.
Proof. unfold len. intros H. apply firstn_all2. lia. Qed.

Lemma cbc_encrypt_one key iv d :
  len d = 16 ->
  cbc_encrypt key iv 1 d =
  (aes_encrypt_block key (xor_bytes d iv), aes_encrypt_block key (xor_bytes d iv)).
Proof.
  intros H. cbn [cbc_encrypt]. rewrite firstn16_all by exact H.
  now rewrite app_nil_r.
Qed.

Lemma cbc_decrypt_one key iv d :
  len d = 16 ->
  cbc_decrypt key iv 1 d = (xor_bytes (aes_decrypt_block key d) iv, d).
Proof.
  intros H. cbn [cbc_decrypt]. rewrite firstn16_all by exact H.
  now rewrite app_nil_r.
Qed.

Lemma ecb_crypt_one f d : len d = 16 -> ecb_crypt f 1 d = f d.
Proof.
  intros H. cbn [ecb_crypt]. rewrite firstn16_all by exact H.
  apply app_nil_r.
Qed.

(** [xor128] on two 16-byte arrays is the byte-wise exclusive or. *)
Lemma wp_xor128 pa pb Q w :
  len pa = 16 -> len pb = 16 -> Q (xor_bytes pa pb) w -> wp (xor128 pa pb) Q w.
Proof.
  intros Ha Hb HQ.
  set (a0 := slice pa 0 8). set (a1 := slice pa 8 8).
  set (b0 := slice pb 0 8). set (b1 := slice pb 8 8).
  assert (Ea : pa = a0 ++ a1).
  { rewrite (slice_split pa 8) at 1 by lia. unfold a0, a1. do 2 f_equal. lia. }
  assert (Eb : pb = b0 ++ b1).
  { rewrite (slice_split pb 8) at 1 by lia. unfold b0, b1. do 2 f_equal. lia. }
  assert (Ha0 : len a0 = 8) by (apply len_slice; lia).
  assert (Ha1 : len a1 = 8) by (apply len_slice; lia).
  assert (Hb0 : len b0 = 8) by (apply len_slice; lia).
  assert (Hb1 : len b1 = 8) by (apply len_slice; lia).
  assert (Hx0 : len (xor_bytes a0 b0) = 8) by (rewrite len_xor_bytes; lia).
  unfold xor128, load_i64, store_i64.
  apply wp_bind. eapply wp_access; [rewrite load_ok by lia; reflexivity|].
  apply wp_bind. eapply wp_access; [rewrite load_ok by lia; reflexivity|].
  fold a0 b0. rewrite xor_i64_bytes by (unfold len in *; lia).
  apply wp_bind. eapply wp_access.
  { apply store_ok; lia. }
  replace (splice pa 0 (xor_bytes a0 b0)) with (xor_bytes a0 b0 ++ a1).
  2:{ rewrite Ea at 1. symmetry. apply splice_head. lia. }
  apply wp_bind. eapply wp_access.
  { rewrite load_ok by (rewrite ?len_app; lia). reflexivity. }
  apply wp_bind. eapply wp_access; [rewrite load_ok by lia; reflexivity|].
  rewrite slice_tail by lia. fold b1.
  rewrite xor_i64_bytes by (unfold len in *; lia).
  eapply wp_access.
  { apply store_ok; [lia|]. rewrite len_app, len_xor_bytes; lia. }
  rewrite splice_tail by (rewrite ?len_xor_bytes; lia).
  rewrite <- xor_bytes_app by (unfold len in *; lia).
  rewrite <- Ea, <- Eb. exact HQ.
Qed.

Lemma slice_slice b off m o n :
  0 <= off -> 0 <= o -> 0 <= n -> o + n <= m ->
  slice (slice b off m) o n = slice b (off + o) n.
Proof.
  intros Hoff Ho Hn Hm. unfold slice.
  rewrite skipn_firstn_comm, firstn_firstn, skipn_skipn.
  f_equal; [lia | f_equal; lia].
Qed.

Lemma slice_split3 b a n :
  0 <= a -> 0 <= n -> a + n <= len b ->
  b = slice b 0 a ++ slice b a n ++ slice b (a + n) (len b - a - n).
Proof.
  intros Ha Hn Hb.
  rewrite (slice_split b a) at 1 by lia. f_equal.
  rewrite (slice_split (slice b a (len b - a)) n) by (rewrite len_slice; lia).
  rewrite len_slice by lia.
  rewrite !slice_slice by lia. do 2 f_equal; lia.
Qed.

(** *** Decryption of what encryption wrote *)

Lemma wp_body_decrypt K V buf L M_ N dir w :
  len K = 64 -> len V = 64 -> len buf = L -> all_ok w ->
  0 <= L < 2 ^ 31 -> M_ = L mod 16 -> N = L - M_ -> (M_ <> 0 -> 16 <= N) ->
  dir <> LRZ_ENCRYPT ->
  wp (lrz_crypt_body K V
        (if M_ =? 0
         then fst (cbc_encrypt (slice K 0 16) (slice V 0 16) (Z.to_nat (N / 16)) buf)
         else spec_cts_encrypt (slice K 0 16) (slice V 0 16) buf)
        L M_ N dir)
     (fun r w' => r = (true, buf) /\ all_ok w') w.
Proof.
  intros HK HV Hbuf Hok HL HM HN HN16 Hdir.
  assert (HMr : 0 <= M_ < 16) by (subst M_; apply Z.mod_pos_bound; lia).
  assert (HNm : N mod 16 = 0).
  { subst N M_. rewrite Zminus_mod, Z.mod_mod, Z.sub_diag by lia. reflexivity. }
  set (nb := Z.to_nat (N / 16)).
  assert (HNb : N = 16 * Z.of_nat nb).
  { unfold nb. rewrite Z2Nat.id by (apply Z.div_pos; lia).
    apply Z.div_exact in HNm; lia. }
  set (k := slice K 0 16). set (v := slice V 0 16).
  assert (Hk : len k = 16) by (apply len_slice; lia).
  assert (Hv : len v = 16) by (apply len_slice; lia).
  unfold lrz_crypt_body, CBC_LEN.
  apply wp_bind, wp_cipher_open. rewrite (all_ok_st w Hok). cbn [failed Z.eqb negb].
  next_world Hok.
  apply wp_bind, wp_cipher_setkey; [lia | no_failure Hok | intros _; split; [lia|]].
  cbn [failed Z.eqb negb hd_mode hd_iv hd_key]. next_world Hok.
  apply wp_bind, wp_cipher_setiv; [lia | no_failure Hok | intros _; split; [lia|]].
  cbn [failed Z.eqb negb hd_mode hd_iv hd_key]. next_world Hok.
  fold k v.
  assert (Ebr : (match dir with
                 | LRZ_ENCRYPT =>
                     lrz_crypt_encrypt (mkCipher GCRY_CIPHER_MODE_CBC k v)
                       (if M_ =? 0 then fst (cbc_encrypt k v nb buf) else spec_cts_encrypt k v buf)
                       (zeros 16) (zeros 16) M_ N
                 | _ =>
                     lrz_crypt_decrypt K (mkCipher GCRY_CIPHER_MODE_CBC k v)
                       (if M_ =? 0 then fst (cbc_encrypt k v nb buf) else spec_cts_encrypt k v buf)
                       (zeros 16) (zeros 16) L M_ N
                 end) =
                lrz_crypt_decrypt K (mkCipher GCRY_CIPHER_MODE_CBC k v)
                       (if M_ =? 0 then fst (cbc_encrypt k v nb buf) else spec_cts_encrypt k v buf)
                       (zeros 16) (zeros 16) L M_ N).
  { destruct dir; congruence. }
  rewrite Ebr. clear Ebr.
  unfold lrz_crypt_decrypt, gcry_cipher_decrypt, CBC_LEN.
  destruct (Z.eqb_spec M_ 0) as [HM0 | HM0]; cbn [negb].
  - (* a whole number of blocks *)
    assert (HLN : L = N) by lia.
    destruct (cbc_encrypt_length k nb v buf Hk Hv) as [Hc Hchain]; [lia|].
    set (c := fst (cbc_encrypt k v nb buf)) in *.
    assert (Erun : cipher_run false (mkCipher GCRY_CIPHER_MODE_CBC k v) (slice c 0 L)
                   = (buf, mkCipher GCRY_CIPHER_MODE_CBC k (snd (cbc_encrypt k v nb buf)))).
    { rewrite slice_all by lia. rewrite (cipher_run_cbc false k v c nb) by lia.
      unfold c. rewrite cbc_decrypt_encrypt by lia. reflexivity. }
    apply wp_bind, wp_cipher_crypt_inplace; [lia | no_failure Hok | intros _].
    rewrite Erun. cbn [fst snd].
    split; [lia|]. split; [lia|]. split; [lia|]. split; [lia|].
    cbn [failed Z.eqb negb]. next_world Hok.
    rewrite splice_all by lia.
    unfold lrz_crypt_finish.
    apply wp_bind, wp_cipher_close, wp_ret. split; [reflexivity | exact Hok].
  - (* ciphertext stealing *)
    specialize (HN16 HM0).
    (* the plaintext, cut as the cipher sees it *)
    set (p' := slice buf 0 (N - 16)).
    set (pl := slice buf (N - 16) 16).
    set (r := slice buf N M_).
    assert (Hp' : len p' = N - 16) by (apply len_slice; lia).
    assert (Hpl : len pl = 16) by (apply len_slice; lia).
    assert (Hr : len r = M_) by (apply len_slice; lia).
    assert (Ebuf : buf = p' ++ pl ++ r).
    { rewrite (slice_split3 buf (N - 16) 16) at 1 by lia.
      unfold p', pl, r. do 3 f_equal; lia. }
    set (nb' := Nat.pred nb).
    assert (Hnb : nb = (nb' + 1)%nat) by (unfold nb'; lia).
    assert (HN' : N - 16 = 16 * Z.of_nat nb') by lia.
    (* the ciphertext blocks *)
    destruct (cbc_encrypt_length k nb' v p' Hk Hv) as [Hc1 Hiv1]; [lia|].
    set (c1 := fst (cbc_encrypt k v nb' p')) in *.
    set (iv1 := snd (cbc_encrypt k v nb' p')) in *.
    set (cl := aes_encrypt_block k (xor_bytes pl iv1)).
    assert (Hxl : len (xor_bytes pl iv1) = 16) by (rewrite len_xor_bytes; lia).
    assert (Hcl : len cl = 16) by (apply aes_encrypt_length; assumption).
    set (padded := r ++ zeros (16 - M_)).
    assert (Hpad : len padded = 16) by (unfold padded; rewrite len_app, len_zeros; lia).
    assert (Hxp : len (xor_bytes padded cl) = 16) by (rewrite len_xor_bytes; lia).
    set (T := aes_encrypt_block k (xor_bytes padded cl)).
    assert (HT : len T = 16) by (apply aes_encrypt_length; assumption).
    set (s := slice cl 0 M_). set (s' := slice cl M_ (16 - M_)).
    assert (Ecl : cl = s ++ s').
    { rewrite (slice_split cl M_) at 1 by lia. unfold s, s'. do 2 f_equal. lia. }
    assert (Hs : len s = M_) by (apply len_slice; lia).
    assert (Hs' : len s' = 16 - M_) by (apply len_slice; lia).
    assert (Ects : spec_cts_encrypt k v buf = c1 ++ T ++ s).
    { unfold spec_cts_encrypt. rewrite Hbuf, <- HM, <- HN. fold nb r padded.
      replace (slice buf 0 N) with (p' ++ pl).
      2:{ rewrite Ebuf at 1. rewrite app_assoc. symmetry.
          apply slice_head. rewrite len_app. lia. }
      rewrite Hnb, cbc_encrypt_app by lia.
      fold c1 iv1.
      rewrite (surjective_pairing (cbc_encrypt k v nb' p')). fold c1 iv1.
      rewrite cbc_encrypt_one by exact Hpl. fold cl.
      rewrite cbc_encrypt_one by exact Hpad. cbn [fst]. fold T.
      rewrite slice_head by lia.
      rewrite Ecl at 1. rewrite slice_app3 by lia. reflexivity. }
    rewrite Ects.
    (* the ECB handle *)
    apply wp_bind, wp_cipher_open.
    match goal with |- context [st ?w1] => rewrite (all_ok_st w1 Hok) end.
    cbn [failed Z.eqb negb]. next_world Hok.
    apply wp_bind, wp_cipher_setkey; [lia | no_failure Hok | intros _; split; [lia|]].
    cbn [failed Z.eqb negb hd_mode hd_iv hd_key]. next_world Hok. fold k.
    (* CBC over the first N - 16 bytes *)
    rewrite to_int_small by lia.
    assert (Erun1 : cipher_run false (mkCipher GCRY_CIPHER_MODE_CBC k v)
                      (slice (c1 ++ T ++ s) 0 (N - 16))
                    = (p', mkCipher GCRY_CIPHER_MODE_CBC k iv1)).
    { rewrite slice_head by lia. rewrite (cipher_run_cbc false k v c1 nb') by lia.
      unfold c1. rewrite cbc_decrypt_encrypt by lia. reflexivity. }
    apply wp_bind, wp_cipher_crypt_inplace; [lia | no_failure Hok | intros _].
    rewrite Erun1. cbn [fst snd].
    split; [rewrite HN', Z.mul_comm; apply Z.mod_mul; lia|].
    split; [lia|]. split; [lens|]. split; [lia|].
    cbn [failed Z.eqb negb]. next_world Hok.
    rewrite splice_head by lia.
    (* ECB on the block that took the place of the last one *)
    assert (Erun2 : cipher_run false (mkCipher GCRY_CIPHER_MODE_ECB k (zeros aes_blklen))
                      (slice (p' ++ T ++ s) (N - 16) 16)
                    = (xor_bytes padded cl, mkCipher GCRY_CIPHER_MODE_ECB k (zeros aes_blklen))).
    { rewrite slice_app3 by lia. rewrite (cipher_run_ecb false k _ T 1) by lia.
      rewrite ecb_crypt_one by exact HT.
      unfold T. rewrite aes_decrypt_encrypt by assumption. reflexivity. }
    apply wp_bind, wp_cipher_crypt_to; [lia | no_failure Hok | intros _].
    rewrite Erun2. cbn [fst snd].
    split; [reflexivity|]. split; [lia|]. split; [lens|]. split; [lia|].
    split; [lens|]. split; [lia|].
    cbn [failed Z.eqb negb]. next_world Hok.
    rewrite splice_all by lens.
    (* the stolen bytes *)
    apply wp_bind, wp_memset0; [lia | lia | lens |].
    rewrite splice_all by lens.
    apply wp_bind, wp_memcpy; [lia | lia | lens | lia | lens |].
    replace (slice (p' ++ T ++ s) N M_) with s
      by (rewrite app_assoc; symmetry; apply slice_tail; lens).
    replace (splice (zeros 16) 0 s) with (s ++ zeros (16 - M_)).
    2:{ replace (zeros 16) with (zeros M_ ++ zeros (16 - M_))
          by (rewrite <- zeros_app by lia; f_equal; lia).
        symmetry. apply splice_head. lens. }
    apply wp_bind, wp_xor128; [lia | lens |].
    replace (xor_bytes (xor_bytes padded cl) (s ++ zeros (16 - M_))) with (r ++ s').
    2:{ unfold padded. rewrite Ecl.
        rewrite xor_bytes_app by (unfold len in *; lia).
        rewrite xor_bytes_app
          by (rewrite xor_bytes_length; unfold len in *; lia).
        rewrite xor_bytes_cancel by (unfold len in *; lia).
        unfold zeros.
        rewrite xor_bytes_zeros_l by (unfold len in *; lia).
        rewrite xor_bytes_zeros_r by (unfold len in *; lia).
        reflexivity. }
    apply wp_bind, wp_memcpy; [lia | lia | lens | lia | lens |].
    rewrite slice_head by lia.
    replace (splice (p' ++ T ++ s) N r) with (p' ++ T ++ r).
    2:{ rewrite !app_assoc. symmetry. apply splice_tail; lens. }
    apply wp_bind, wp_memcpy; [lia | lia | lens | lia | lens |].
    rewrite slice_tail by lia.
    rewrite splice_tail by lens.
    rewrite <- Ecl.
    (* CBC on the rebuilt last block *)
    assert (Erun3 : cipher_run false (mkCipher GCRY_CIPHER_MODE_CBC k iv1) (slice cl 0 16)
                    = (pl, mkCipher GCRY_CIPHER_MODE_CBC k cl)).
    { rewrite slice_all by lia. rewrite (cipher_run_cbc false k iv1 cl 1) by lia.
      rewrite cbc_decrypt_one by exact Hcl. cbn [fst snd].
      unfold cl. rewrite aes_decrypt_encrypt by assumption.
      rewrite xor_bytes_cancel by (unfold len in *; lia). reflexivity. }
    apply wp_bind, wp_cipher_crypt_to; [lia | no_failure Hok | intros _].
    rewrite Erun3. cbn [fst snd].
    split; [reflexivity|]. split; [lia|]. split; [lia|]. split; [lia|].
    split; [lens|]. split; [lia|].
    cbn [failed Z.eqb negb]. next_world Hok.
    rewrite splice_app3 by lia. rewrite <- Ebuf.
    apply wp_bind, wp_cipher_close.
    unfold lrz_crypt_finish.
    apply wp_bind, wp_cipher_close, wp_ret. split; [reflexivity | exact Hok].
Qed.

(** *** [lrz_crypt] around its body *)

Lemma derive_key_length control salt : len (spec_derive_key control salt) = 64.
Proof. apply sha512_length. Qed.

Lemma derive_iv_length control salt : len (spec_derive_iv control salt) = 64.
Proof. apply sha512_length. Qed.

(** A [memcpy] that fills its destination. *)
Lemma memcpy_whole dst src n w :
  0 <= n < 2 ^ 64 -> len dst = n -> n <= len src ->
  memcpy dst 0 src 0 n w = Done (slice src 0 n) w.
Proof.
  intros Hn Hd Hs. unfold memcpy, bind, access.
  rewrite to_size_t_small by lia.
  rewrite load_ok by lia.
  rewrite store_ok by (rewrite ?len_slice; lia).
  rewrite splice_all by (rewrite len_slice; lia).
  reflexivity.
Qed.

(** [lrz_keygen] overwrites [key] and [iv]: what they held before makes
    no difference. *)
Lemma lrz_keygen_any control salt key iv key' iv' w :
  len key = HASH_LEN -> len key' = HASH_LEN -> len iv = HASH_LEN -> len iv' = HASH_LEN ->
  lrz_keygen control salt key iv w = lrz_keygen control salt key' iv' w.
Proof.
  intros Hk Hk' Hv Hv'. unfold HASH_LEN in Hk, Hk', Hv, Hv'.
  assert (Hread : forall h w1 d w2, gcry_md_read h w1 = Done d w2 -> len d = 64).
  { intros h w1 d w2 E. unfold gcry_md_read, bind, access, log, ret in E.
    destruct h as [ctx|]; [|discriminate E].
    injection E as <- _. apply sha512_length. }
  unfold lrz_keygen, bind.
  destruct (memcpy _ 0 (hash control) 0 HASH_LEN w) as [b1 w1|]; [|reflexivity].
  destruct (memcpy b1 HASH_LEN salt 0 SALT_LEN w1) as [b2 w2|]; [|reflexivity].
  destruct (memcpy b2 _ (salt_pass control) 0 _ w2) as [b3 w3|]; [|reflexivity].
  destruct (gcry_md_open w3) as [[e h] w4|]; [|reflexivity].
  destruct (gcry_md_write h b3 _ w4) as [h1 w5|]; [|reflexivity].
  destruct (gcry_md_read h1 w5) as [d w6|] eqn:Ed; [|reflexivity].
  apply Hread in Ed.
  rewrite (memcpy_whole key d HASH_LEN), (memcpy_whole key' d HASH_LEN)
    by (unfold HASH_LEN; lia).
  destruct (gcry_md_reset h1 w6) as [h2 w7|]; [|reflexivity].
  destruct (memcpy b3 0 _ 0 HASH_LEN w7) as [b4 w8|]; [|reflexivity].
  destruct (memcpy b4 HASH_LEN salt 0 SALT_LEN w8) as [b5 w9|]; [|reflexivity].
  destruct (memcpy b5 _ (salt_pass control) 0 _ w9) as [b6 w10|]; [|reflexivity].
  destruct (gcry_md_write h2 b6 _ w10) as [h3 w11|]; [|reflexivity].
  destruct (gcry_md_read h3 w11) as [d' w12|] eqn:Ed'; [|reflexivity].
  apply Hread in Ed'.
  rewrite (memcpy_whole iv d' HASH_LEN), (memcpy_whole iv' d' HASH_LEN)
    by (unfold HASH_LEN; lia).
  reflexivity.
Qed.

(** The arrays [key] and [iv] of [lrz_crypt] may hold anything on entry. *)
Lemma lrz_crypt_frame_any key0 iv0 control buf L salt dir w :
  len key0 = HASH_LEN -> len iv0 = HASH_LEN ->
  lrz_crypt_frame key0 iv0 control buf L salt dir w = lrz_crypt control buf L salt dir w.
Proof.
  intros Hk Hv. unfold lrz_crypt, lrz_crypt_frame, lrz_crypt_to_error, bind.
  rewrite (lrz_keygen_any control salt key0 iv0 (zeros HASH_LEN) (zeros HASH_LEN))
    by (try assumption; apply len_zeros; unfold HASH_LEN; lia).
  reflexivity.
Qed.

(** On valid inputs the label [error] is reached as the body leaves it,
    with the derived key and iv in [key] and [iv], both locked. *)
Lemma wp_lrz_crypt_to_error key0 iv0 control buf L salt dir
    (Qb : bool * mem -> world -> Prop) w :
  len key0 = HASH_LEN -> len iv0 = HASH_LEN ->
  valid_inputs control salt -> failed (st w) = false ->
  wp (lrz_crypt_body (spec_derive_key control salt) (spec_derive_iv control salt) buf L
        (to_int (Z.rem L CBC_LEN)) (to_int (L - to_int (Z.rem L CBC_LEN))) dir)
     Qb (keygen_world control salt w) ->
  wp (lrz_crypt_to_error key0 iv0 control buf L salt dir)
     (fun s w' => Qb (crypt_ret s, crypt_buf s) w' /\ secrets_held control salt s /\
                  key_locked s = true /\ iv_locked s = true) w.
Proof.
  intros Hk0 Hv0 (Hh & Hs & Hp & Hpl & Hpm) Hst Hbody. unfold lrz_crypt_to_error.
  apply wp_bind.
  eapply wp_mono.
  { apply wp_lrz_keygen; assumption. }
  intros [key iv] w1 [E ->]. injection E as -> ->.
  apply wp_bind. eapply wp_mono; [exact Hbody|].
  intros [r b] w2 HQ.
  apply wp_ret. cbn [crypt_ret crypt_buf crypt_key crypt_iv key_locked iv_locked].
  unfold secrets_held. cbn [crypt_key crypt_iv]. auto.
Qed.

(** From the label [error]: the two [memset] and the two [munlock]. *)
Lemma lrz_crypt_at_error_run s w :
  len (crypt_key s) = HASH_LEN -> len (crypt_iv s) = HASH_LEN ->
  lrz_crypt_at_error s w =
  Done (mkExit (crypt_ret s) (crypt_buf s) (zeros HASH_LEN) (zeros HASH_LEN) false false) w.
Proof.
  intros Hk Hv. unfold HASH_LEN in *.
  assert (H : wp (lrz_crypt_at_error s)
                (fun r w' => r = mkExit (crypt_ret s) (crypt_buf s) (zeros 64) (zeros 64)
                                   false false /\ w' = w) w).
  { unfold lrz_crypt_at_error, HASH_LEN.
    apply wp_bind, wp_memset0; [lia | lia | lia |].
    apply wp_bind, wp_memset0; [lia | lia | lia |].
    apply wp_ret.
    rewrite !splice_all by (rewrite len_zeros; lia).
    split; reflexivity. }
  apply wp_done in H. destruct H as (r & w' & E & -> & ->). exact E.
Qed.

Lemma wp_lrz_crypt_frame key0 iv0 control buf L salt dir
    (Qb : bool * mem -> world -> Prop) w :
  len key0 = HASH_LEN -> len iv0 = HASH_LEN ->
  valid_inputs control salt -> failed (st w) = false ->
  wp (lrz_crypt_body (spec_derive_key control salt) (spec_derive_iv control salt) buf L
        (to_int (Z.rem L CBC_LEN)) (to_int (L - to_int (Z.rem L CBC_LEN))) dir)
     Qb (keygen_world control salt w) ->
  wp (lrz_crypt_frame key0 iv0 control buf L salt dir)
     (fun r w' => Qb (crypt_ret r, crypt_buf r) w' /\ secrets_erased r) w.
Proof.
  intros Hk0 Hv0 Hvalid Hst Hbody. unfold lrz_crypt_frame.
  apply wp_bind.
  eapply wp_mono.
  { apply wp_lrz_crypt_to_error; eassumption. }
  cbn beta. intros s w1 (HQ & [Hk Hv] & _ & _).
  unfold wp. rewrite lrz_crypt_at_error_run
    by (rewrite ?Hk, ?Hv; unfold HASH_LEN; auto using derive_key_length, derive_iv_length).
  split; [exact HQ|]. unfold secrets_erased. cbn. auto.
Qed.

(** Whatever the body does, [lrz_crypt] returns what the body returned
    and has erased its secrets. *)
Lemma wp_lrz_crypt control buf L salt dir (Qb : bool * mem -> world -> Prop) w :
  valid_inputs control salt -> failed (st w) = false ->
  wp (lrz_crypt_body (spec_derive_key control salt) (spec_derive_iv control salt) buf L
        (to_int (Z.rem L CBC_LEN)) (to_int (L - to_int (Z.rem L CBC_LEN))) dir)
     Qb (keygen_world control salt w) ->
  wp (lrz_crypt control buf L salt dir)
     (fun r w' => Qb (crypt_ret r, crypt_buf r) w' /\ secrets_erased r) w.
Proof.
  intros Hvalid Hst Hbody. unfold lrz_crypt.
  apply wp_lrz_crypt_frame; try assumption; apply len_zeros; unfold HASH_LEN; lia.
Qed.

Lemma int_split L :
  0 <= L < 2 ^ 31 ->
  to_int (Z.rem L CBC_LEN) = L mod 16 /\
  to_int (L - to_int (Z.rem L CBC_LEN)) = L - L mod 16.
Proof.
  intros HL. unfold CBC_LEN.
  rewrite Z.rem_mod_nonneg by lia.
  pose proof (Z.mod_pos_bound L 16 ltac:(lia)).
  rewrite !to_int_small; lia.
Qed.

Lemma all_ok_keygen_world control salt w : all_ok w -> all_ok (keygen_world control salt w).
Proof.
  destruct w as [[|e s] cs]; unfold all_ok, keygen_world; cbn; [auto|].
  intros H. now inversion H.
Qed.

Lemma cts_encrypt_length key iv buf :
  len key = 16 -> len iv = 16 -> 16 <= len buf -> len buf mod 16 <> 0 ->
  len (spec_cts_encrypt key iv buf) = len buf.
Proof.
  intros Hk Hv HL HM. unfold spec_cts_encrypt.
  set (M_ := len buf mod 16). set (N := len buf - M_).
  assert (HMr : 0 <= M_ < 16) by (apply Z.mod_pos_bound; lia).
  assert (HNm : N mod 16 = 0).
  { unfold N, M_. rewrite Zminus_mod, Z.mod_mod, Z.sub_diag by lia. reflexivity. }
  assert (HNb : N = 16 * Z.of_nat (Z.to_nat (N / 16))).
  { rewrite Z2Nat.id by (apply Z.div_pos; lia). apply Z.div_exact in HNm; lia. }
  assert (HN : 16 <= N).
  { destruct (Z.to_nat (N / 16)); [|lia].
    assert (N = 0) by lia. unfold N in *. lia. }
  destruct (cbc_encrypt_length key (Z.to_nat (N / 16)) iv (slice buf 0 N) Hk Hv)
    as [Hc Hchain]; [rewrite len_slice; lia|].
  destruct (cbc_encrypt key iv (Z.to_nat (N / 16)) (slice buf 0 N)) as [c chain].
  cbn [fst snd] in *.
  destruct (cbc_encrypt_length key 1 chain (slice buf N M_ ++ zeros (16 - M_)) Hk Hchain)
    as [Ht _]; [rewrite len_app, len_slice, len_zeros; lia|].
  rewrite !len_app, Ht, !len_slice; lia.
Qed.

(** *** Passphrase stretching *)

Lemma len_le_split n z : len (le_split n z) = Z.of_nat n.
Proof. unfold len. now rewrite length_le_split. Qed.

Lemma to_i64_small z : - 2 ^ 63 <= z < 2 ^ 63 -> to_i64 z = z.
Proof. intros H. unfold to_i64. rewrite Z.mod_small; lia. Qed.

Lemma wp_stretch_loop control n :
  0 <= salt_pass_len control <= len (salt_pass control) ->
  salt_pass_len control < 2 ^ 64 ->
  forall fuel j ctx w,
    j + Z.of_nat fuel = n ->
    wp (stretch_loop fuel j n control (Some ctx))
       (fun h w' =>
          h = Some (ctx ++ flat_map (spec_round_input control) (counters j fuel)) /\
          w' = mkWorld (status w)
                 (calls w ++ flat_map (spec_round_calls control) (counters j fuel))) w.
Proof.
  intros Hp Hp64. induction fuel as [|fuel IH]; intros j ctx w Hj.
  - cbn [stretch_loop counters flat_map]. apply wp_ret.
    rewrite !app_nil_r. destruct w; auto.
  - cbn [stretch_loop counters flat_map].
    destruct (Z.ltb_spec j n) as [_|Hc]; [|lia].
    unfold htole64_bytes.
    apply wp_bind, wp_md_write; [lia | rewrite len_le_split; lia |].
    apply wp_bind, wp_md_write; [lia | lia |].
    eapply wp_mono; [apply IH; lia|].
    cbn beta. intros h w' [-> ->].
    rewrite (slice_all (le_split 8 j)) by apply len_le_split.
    unfold spec_round_input, spec_round_calls, passphrase.
    unfold logged. cbn [status calls app].
    rewrite <- !app_assoc. cbn [app]. auto.
Qed.

Lemma stretch_rounds_count control :
  0 <= encloops control -> encloops control * 64 < 2 ^ 63 ->
  0 <= salt_pass_len control < 2 ^ 63 ->
  stretch_rounds control = spec_stretch_count control /\ 0 <= spec_stretch_count control.
Proof.
  intros He He64 Hp. unfold stretch_rounds, spec_stretch_count, HASH_LEN.
  set (a := encloops control * 64) in *.
  set (b := salt_pass_len control + 8).
  assert (Ha : to_size_t (to_i64 a) = a).
  { rewrite to_i64_small, to_size_t_small; lia. }
  assert (Hb : to_size_t b = b) by (apply to_size_t_small; unfold b; lia).
  rewrite Ha, Hb.
  assert (Hq : 0 <= a / b <= a).
  { split; [apply Z.div_pos; unfold b; lia|].
    apply Z.div_le_upper_bound; unfold b; nia. }
  split; [|lia].
  apply to_i64_small. lia.
Qed.

(** What a run of [lrz_stretch] does, when the hash context opens. *)
Lemma lrz_stretch_run control w :
  0 <= encloops control -> encloops control * 64 < 2 ^ 63 ->
  0 <= salt_pass_len control <= len (salt_pass control) ->
  salt_pass_len control < 2 ^ 63 ->
  st w = 0 ->
  let n := Z.to_nat (spec_stretch_count control) in
  lrz_stretch control w =
  Done (control, Some (flat_map (spec_round_input control) (counters 0 n)))
       (mkWorld (tl (status w))
          (calls w ++ md_open_call :: flat_map (spec_round_calls control) (counters 0 n))).
Proof.
  intros He He64 Hp Hp63 Hst n.
  destruct (stretch_rounds_count control He He64) as [En Hn]; [lia|].
  assert (H : wp (lrz_stretch control)
                (fun r w' =>
                   r = (control, Some (flat_map (spec_round_input control) (counters 0 n))) /\
                   w' = mkWorld (tl (status w))
                          (calls w ++ md_open_call ::
                             flat_map (spec_round_calls control) (counters 0 n))) w).
  { unfold lrz_stretch.
    apply wp_bind, wp_md_open. rewrite Hst. cbn [failed Z.eqb negb].
    rewrite En. fold n.
    apply wp_bind. eapply wp_mono; [apply wp_stretch_loop; try lia|].
    cbn beta. intros h w' [-> ->]. apply wp_ret. cbn [app].
    unfold after. cbn [status calls]. rewrite <- app_assoc. auto. }
  apply wp_done in H. destruct H as (r & w' & E & -> & ->). exact E.
Qed.

(** *** The block transform under any pattern of library failures *)

Lemma extends_after P w0 w c : extends P w0 w -> P c -> extends P w0 (after c w).
Proof.
  intros (tr & E & H) Hc. exists (tr ++ [c]). cbn [after calls].
  rewrite E, app_assoc. split; [reflexivity|].
  apply Forall_app. auto.
Qed.

Lemma extends_logged P w0 w c : extends P w0 w -> P c -> extends P w0 (logged c w).
Proof.
  intros (tr & E & H) Hc. exists (tr ++ [c]). cbn [logged calls].
  rewrite E, app_assoc. split; [reflexivity|].
  apply Forall_app. auto.
Qed.

Lemma cipher_run_shape enc m key iv data :
  len key = 16 -> len iv = 16 -> len data mod 16 = 0 ->
  exists out iv',
    cipher_run enc (mkCipher m key iv) data = (out, mkCipher m key iv') /\
    len out = len data /\ len iv' = 16.
Proof.
  intros Hk Hv Hm.
  destruct (cipher_run_length enc m key iv data Hk Hv (len_nonneg data) Hm)
    as (H1 & H2 & H3 & H4).
  destruct (cipher_run enc (mkCipher m key iv) data) as [out [m' k' iv']].
  cbn [fst snd hd_mode hd_key hd_iv] in *. subst. eauto.
Qed.

(** The statement that a call returned a failure closes every failed
    branch: the transform goes to [error] with the log extended. *)
Ltac failed_branch Hext :=
  let Hf := fresh in
  intros Hf; cbv beta iota; rewrite Hf; apply wp_ret;
  split; [cbn [snd]; lia | exact Hext].

Lemma wp_body_encrypt_any K buf L M_ N w0 w cbc_iv :
  len K = 64 -> len buf = L ->
  0 <= L < 2 ^ 31 -> M_ = L mod 16 -> N = L - M_ -> (M_ <> 0 -> 16 <= N) ->
  len cbc_iv = 16 ->
  extends cipher_call_ok w0 w ->
  wp (lrz_crypt_encrypt (mkCipher GCRY_CIPHER_MODE_CBC (slice K 0 16) cbc_iv)
        buf (zeros CBC_LEN) (zeros CBC_LEN) M_ N)
     (fun r w' => len (snd r) = L /\ extends cipher_call_ok w0 w') w.
Proof.
  intros HK Hbuf HL HM HN HN16 Hiv Hext.
  assert (HMr : 0 <= M_ < 16) by (subst M_; apply Z.mod_pos_bound; lia).
  assert (HNm : N mod 16 = 0).
  { subst N M_. rewrite Zminus_mod, Z.mod_mod, Z.sub_diag by lia. reflexivity. }
  set (k := slice K 0 16).
  assert (Hk : len k = 16) by (apply len_slice; lia).
  unfold lrz_crypt_encrypt, gcry_cipher_encrypt, CBC_LEN.
  destruct (cipher_run_shape true GCRY_CIPHER_MODE_CBC k cbc_iv (slice buf 0 N))
    as (c & iv1 & Erun & Hc & Hiv1); [lia | lia | rewrite len_slice; lia |].
  rewrite len_slice in Hc by lia.
  apply wp_bind.
  match goal with |- wp (gcry_cipher_crypt ?e ?h _ _ ?n _ _) _ _ =>
    apply (extends_after _ _ _ (crypt_call e h n)) in Hext;
      [| unfold crypt_call, cipher_call_ok, aes_blklen; cbn [hd_key hd_mode]; rewrite Hk; auto]
  end.
  apply wp_cipher_crypt_inplace; [lia | failed_branch Hext | intros _].
  rewrite Erun. cbn [fst snd].
  split; [exact HNm|]. split; [lia|]. split; [lia|]. split; [lia|].
  cbn [failed Z.eqb negb].
  set (buf1 := splice buf 0 c).
  assert (Hbuf1 : len buf1 = L) by (unfold buf1; rewrite len_splice; lia).
  clearbody buf1.
  destruct (Z.eqb_spec M_ 0) as [HM0 | HM0]; cbn [negb].
  - unfold lrz_crypt_finish.
    apply wp_bind, wp_cipher_close, wp_ret.
    split; [cbn [snd]; rewrite ?len_splice; rewrite ?len_slice; lia|].
    apply extends_logged; [exact Hext | exact I].
  - specialize (HN16 HM0).
    apply wp_bind, wp_memset0; [lia | lia | rewrite len_zeros; lia |].
    rewrite splice_all by (rewrite !len_zeros; lia).
    apply wp_bind, wp_memcpy; [lia | lia | lia | lia | rewrite len_zeros; lia |].
    set (tmp0 := splice (zeros 16) 0 (slice buf1 N M_)).
    assert (Htmp0 : len tmp0 = 16)
      by (unfold tmp0; rewrite len_splice; rewrite ?len_slice, ?len_zeros; lia).
    clearbody tmp0.
    destruct (cipher_run_shape true GCRY_CIPHER_MODE_CBC k iv1 (slice tmp0 0 16))
      as (t & iv2 & Erun2 & Ht & Hiv2);
      [lia | lia | rewrite len_slice by lia; reflexivity |].
    rewrite len_slice in Ht by lia.
    apply wp_bind.
    match goal with |- wp (gcry_cipher_crypt ?e ?h _ _ _ _ ?n) _ _ =>
      apply (extends_after _ _ _ (crypt_call e h n)) in Hext;
        [| unfold crypt_call, cipher_call_ok, aes_blklen; cbn [hd_key hd_mode]; rewrite Hk; auto]
    end.
    apply wp_cipher_crypt_to; [lia | failed_branch Hext | intros _].
    rewrite Erun2. cbn [fst snd].
    split; [reflexivity|]. split; [lia|]. split; [lia|]. split; [lia|].
    split; [rewrite len_zeros; lia|]. split; [lia|].
    cbn [failed Z.eqb negb].
    set (tmp1 := splice (zeros 16) 0 t).
    assert (Htmp1 : len tmp1 = 16)
      by (unfold tmp1; rewrite len_splice; rewrite ?len_zeros; lia).
    clearbody tmp1.
    apply wp_bind, wp_memcpy; [lia | lia | lia | lia | lia |].
    set (buf2 := splice buf1 N _).
    assert (Hbuf2 : len buf2 = L)
      by (unfold buf2; rewrite len_splice; rewrite ?len_slice; lia).
    clearbody buf2.
    apply wp_bind, wp_memcpy; [lia | lia | lia | lia | lia |].
    unfold lrz_crypt_finish.
    apply wp_bind, wp_cipher_close, wp_ret.
    split; [cbn [snd]; rewrite ?len_splice; rewrite ?len_slice; lia|].
    apply extends_logged; [exact Hext | exact I].
Qed.

Ltac log_call Hext Hk :=
  match goal with
  | |- wp (gcry_cipher_crypt ?e ?h _ _ ?n None _) _ _ =>
      apply (extends_after _ _ _ (crypt_call e h n)) in Hext;
      [| unfold crypt_call, cipher_call_ok, aes_blklen; cbn [hd_key hd_mode];
         rewrite Hk; auto]
  | |- wp (gcry_cipher_crypt ?e ?h _ _ _ (Some _) ?n) _ _ =>
      apply (extends_after _ _ _ (crypt_call e h n)) in Hext;
      [| unfold crypt_call, cipher_call_ok, aes_blklen; cbn [hd_key hd_mode];
         rewrite Hk; auto]
  end.

Lemma wp_body_decrypt_any K buf L M_ N w0 w cbc_iv :
  len K = 64 -> len buf = L ->
  0 <= L < 2 ^ 31 -> M_ = L mod 16 -> N = L - M_ -> (M_ <> 0 -> 16 <= N) ->
  len cbc_iv = 16 ->
  extends cipher_call_ok w0 w ->
  wp (lrz_crypt_decrypt K (mkCipher GCRY_CIPHER_MODE_CBC (slice K 0 16) cbc_iv)
        buf (zeros CBC_LEN) (zeros CBC_LEN) L M_ N)
     (fun r w' => len (snd r) = L /\ extends cipher_call_ok w0 w') w.
Proof.
  intros HK Hbuf HL HM HN HN16 Hiv Hext.
  assert (HMr : 0 <= M_ < 16) by (subst M_; apply Z.mod_pos_bound; lia).
  assert (HNm : N mod 16 = 0).
  { subst N M_. rewrite Zminus_mod, Z.mod_mod, Z.sub_diag by lia. reflexivity. }
  set (k := slice K 0 16).
  assert (Hk : len k = 16) by (apply len_slice; lia).
  unfold lrz_crypt_decrypt, gcry_cipher_decrypt, CBC_LEN.
  destruct (Z.eqb_spec M_ 0) as [HM0 | HM0]; cbn [negb].
  - assert (HLm : L mod 16 = 0) by lia.
    destruct (cipher_run_shape false GCRY_CIPHER_MODE_CBC k cbc_iv (slice buf 0 L))
      as (c & iv1 & Erun & Hc & Hiv1); [lia | lia | rewrite len_slice; lia |].
    rewrite len_slice in Hc by lia.
    apply wp_bind. log_call Hext Hk.
    apply wp_cipher_crypt_inplace; [lia | failed_branch Hext | intros _].
    rewrite Erun. cbn [fst snd].
    split; [exact HLm|]. split; [lia|]. split; [lia|]. split; [lia|].
    cbn [failed Z.eqb negb].
    unfold lrz_crypt_finish.
    apply wp_bind, wp_cipher_close, wp_ret.
    split; [cbn [snd]; rewrite ?len_splice; rewrite ?len_slice; lia|].
    apply extends_logged; [exact Hext | exact I].
  - specialize (HN16 HM0).
    assert (HN'm : (N - 16) mod 16 = 0).
    { rewrite Zminus_mod, HNm. reflexivity. }
    (* the ECB handle *)
    apply wp_bind, wp_cipher_open.
    apply (extends_after _ _ _ (cipher_open_call GCRY_CIPHER_MODE_ECB)) in Hext;
      [|exact I].
    destruct (failed (st w)) eqn:Hf1; [apply wp_ret; split; [cbn [snd]; lia | exact Hext]|].
    apply (extends_after _ _ _ (cipher_setkey_call GCRY_CIPHER_MODE_ECB 16)) in Hext;
      [|reflexivity].
    apply wp_bind, wp_cipher_setkey;
      [lia | failed_branch Hext | intros _; split; [lia|]].
    cbn [failed Z.eqb negb hd_mode hd_iv hd_key]. fold k.
    (* CBC over the first N - 16 bytes *)
    rewrite to_int_small by lia.
    destruct (cipher_run_shape false GCRY_CIPHER_MODE_CBC k cbc_iv (slice buf 0 (N - 16)))
      as (c & iv1 & Erun & Hc & Hiv1); [lia | lia | rewrite len_slice; lia |].
    rewrite len_slice in Hc by lia.
    apply wp_bind. log_call Hext Hk.
    apply wp_cipher_crypt_inplace; [lia | failed_branch Hext | intros _].
    rewrite Erun. cbn [fst snd].
    split; [exact HN'm|]. split; [lia|]. split; [lia|]. split; [lia|].
    cbn [failed Z.eqb negb].
    set (buf1 := splice buf 0 c).
    assert (Hbuf1 : len buf1 = L) by (unfold buf1; rewrite len_splice; lia).
    clearbody buf1.
    (* ECB on the block at N - 16 *)
    destruct (cipher_run_shape false GCRY_CIPHER_MODE_ECB k (zeros aes_blklen)
                (slice buf1 (N - 16) 16))
      as (x & iv2 & Erun2 & Hx & Hiv2);
      [lia | unfold aes_blklen; rewrite len_zeros; lia
       | rewrite len_slice by lia; reflexivity |].
    rewrite len_slice in Hx by lia.
    apply wp_bind. log_call Hext Hk.
    apply wp_cipher_crypt_to; [lia | failed_branch Hext | intros _].
    rewrite Erun2. cbn [fst snd].
    split; [reflexivity|]. split; [lia|]. split; [lia|]. split; [lia|].
    split; [rewrite len_zeros; lia|]. split; [lia|].
    cbn [failed Z.eqb negb].
    set (tmp0 := splice (zeros 16) 0 x).
    assert (Htmp0 : len tmp0 = 16)
      by (unfold tmp0; rewrite len_splice; rewrite ?len_zeros; lia).
    clearbody tmp0.
    (* the stolen bytes *)
    apply wp_bind, wp_memset0; [lia | lia | rewrite len_zeros; lia |].
    rewrite splice_all by (rewrite !len_zeros; lia).
    apply wp_bind, wp_memcpy; [lia | lia | lia | lia | rewrite len_zeros; lia |].
    set (tmp1 := splice (zeros 16) 0 (slice buf1 N M_)).
    assert (Htmp1 : len tmp1 = 16)
      by (unfold tmp1; rewrite len_splice; rewrite ?len_slice, ?len_zeros; lia).
    clearbody tmp1.
    apply wp_bind, wp_xor128; [lia | lia |].
    set (tmp0' := xor_bytes tmp0 tmp1).
    assert (Htmp0' : len tmp0' = 16) by (unfold tmp0'; rewrite len_xor_bytes; lia).
    clearbody tmp0'.
    apply wp_bind, wp_memcpy; [lia | lia | lia | lia | lia |].
    set (buf2 := splice buf1 N _).
    assert (Hbuf2 : len buf2 = L)
      by (unfold buf2; rewrite len_splice; rewrite ?len_slice; lia).
    clearbody buf2.
    apply wp_bind, wp_memcpy; [lia | lia | lia | lia | lia |].
    set (tmp1' := splice tmp1 M_ _).
    assert (Htmp1' : len tmp1' = 16)
      by (unfold tmp1'; rewrite len_splice; rewrite ?len_slice; lia).
    clearbody tmp1'.
    (* CBC on the rebuilt last block *)
    destruct (cipher_run_shape false GCRY_CIPHER_MODE_CBC k iv1 (slice tmp1' 0 16))
      as (y & iv3 & Erun3 & Hy & Hiv3);
      [lia | lia | rewrite len_slice by lia; reflexivity |].
    rewrite len_slice in Hy by lia.
    apply wp_bind. log_call Hext Hk.
    apply wp_cipher_crypt_to; [lia | failed_branch Hext | intros _].
    rewrite Erun3. cbn [fst snd].
    split; [reflexivity|]. split; [lia|]. split; [lia|]. split; [lia|].
    split; [lia|]. split; [lia|].
    cbn [failed Z.eqb negb].
    apply wp_bind, wp_cipher_close.
    apply (extends_logged _ _ _ (cipher_close_call GCRY_CIPHER_MODE_ECB)) in Hext;
      [|exact I].
    unfold lrz_crypt_finish.
    apply wp_bind, wp_cipher_close, wp_ret.
    split; [cbn [snd]; rewrite ?len_splice; rewrite ?len_slice; lia|].
    apply extends_logged; [exact Hext | exact I].
Qed.

(** From the opening of the CBC handle to the label [error], whatever
    the library answers. *)
Lemma wp_body_any K V buf L M_ N dir w0 w :
  len K = 64 -> len V = 64 -> len buf = L ->
  0 <= L < 2 ^ 31 -> M_ = L mod 16 -> N = L - M_ -> (M_ <> 0 -> 16 <= N) ->
  extends cipher_call_ok w0 w ->
  wp (lrz_crypt_body K V buf L M_ N dir)
     (fun r w' => len (snd r) = L /\ extends cipher_call_ok w0 w') w.
Proof.
  intros HK HV Hbuf HL HM HN HN16 Hext.
  unfold lrz_crypt_body.
  apply wp_bind, wp_cipher_open.
  apply (extends_after _ _ _ (cipher_open_call GCRY_CIPHER_MODE_CBC)) in Hext;
    [|exact I].
  destruct (failed (st w)) eqn:Hf1; [apply wp_ret; split; [cbn [snd]; lia | exact Hext]|].
  unfold CBC_LEN at 1 2.
  apply (extends_after _ _ _ (cipher_setkey_call GCRY_CIPHER_MODE_CBC 16)) in Hext;
    [|reflexivity].
  apply wp_bind, wp_cipher_setkey;
    [lia | failed_branch Hext | intros _; split; [lia|]].
  cbn [failed Z.eqb negb hd_mode hd_iv hd_key].
  apply (extends_after _ _ _ (cipher_setiv_call GCRY_CIPHER_MODE_CBC 16)) in Hext;
    [|reflexivity].
  apply wp_bind, wp_cipher_setiv;
    [lia | failed_branch Hext | intros _; split; [lia|]].
  cbn [failed Z.eqb negb hd_mode hd_iv hd_key].
  assert (Hiv : len (slice V 0 16) = 16) by (apply len_slice; lia).
  destruct dir.
  - apply wp_body_decrypt_any; assumption.
  - eapply wp_body_encrypt_any; eassumption.
  - apply wp_body_decrypt_any; assumption.
Qed.

(** *** Partial correctness *)

Lemma wlp_bind {A B} (m : M A) (k : A -> M B) Q w :
  wlp m (fun a w' => wlp (k a) Q w') w -> wlp (bind m k) Q w.
Proof. unfold wlp, bind. destruct (m w); auto. Qed.

Lemma wlp_mono {A} (m : M A) (Q Q' : A -> world -> Prop) w :
  wlp m Q w -> (forall a w', Q a w' -> Q' a w') -> wlp m Q' w.
Proof. unfold wlp. destruct (m w); auto. Qed.

Lemma wlp_any {A} (m : M A) (Q : A -> world -> Prop) w :
  (forall a w', Q a w') -> wlp m Q w.
Proof. unfold wlp. destruct (m w); auto. Qed.

Lemma wlp_ret {A} (a : A) Q w : Q a w -> wlp (ret a) Q w.
Proof. exact (fun H => H). Qed.

Lemma wlp_done {A} (m : M A) Q w a w' : wlp m Q w -> m w = Done a w' -> Q a w'.
Proof. unfold wlp. intros H E. now rewrite E in H. Qed.

Lemma wlp_access {A} (o : option A) Q w :
  (forall a, o = Some a -> Q a w) -> wlp (access o) Q w.
Proof. unfold wlp, access. destruct o; auto. Qed.

(** [memcpy] and [memset] keep the length of their destination. *)
Lemma wlp_memcpy dst doff src soff n Q w :
  (forall d, len d = len dst -> Q d w) -> wlp (memcpy dst doff src soff n) Q w.
Proof.
  intros HQ. unfold memcpy.
  apply wlp_bind, wlp_access. intros bytes _.
  apply wlp_access. intros d Hd.
  apply store_inv in Hd. destruct Hd as (-> & H1 & H2).
  apply HQ. apply len_splice; assumption.
Qed.

Lemma wlp_memset0 dst n Q w :
  0 <= n < 2 ^ 64 -> len dst = n ->
  Q (zeros n) w -> wlp (memset0 dst 0 n) Q w.
Proof.
  intros Hn Hd HQ. unfold memset0. rewrite to_size_t_small by lia.
  apply wlp_bind, wlp_access. intros bytes _.
  apply wlp_access. intros d E.
  apply store_inv in E. destruct E as (-> & _ & _).
  rewrite splice_all by (rewrite len_zeros; lia).
  exact HQ.
Qed.

(** Whenever [lrz_keygen] returns, [key] and [iv] have kept their
    lengths. *)
Lemma wlp_lrz_keygen control salt key iv w :
  wlp (lrz_keygen control salt key iv)
      (fun r _ => len (fst r) = len key /\ len (snd r) = len iv) w.
Proof.
  unfold lrz_keygen.
  do 3 (apply wlp_bind, wlp_any; intros ? ?).
  apply wlp_bind, wlp_any. intros [e h] ?.
  do 2 (apply wlp_bind, wlp_any; intros ? ?).
  apply wlp_bind, wlp_memcpy. intros key' Hkey.
  do 6 (apply wlp_bind, wlp_any; intros ? ?).
  apply wlp_bind, wlp_memcpy. intros iv' Hiv.
  do 2 (apply wlp_bind, wlp_any; intros ? ?).
  apply wlp_ret. auto.
Qed.

(** Whenever the label [error] is reached, [key] and [iv] have kept
    their lengths and are locked. *)
Lemma wlp_lrz_crypt_to_error key0 iv0 control buf L salt dir w :
  wlp (lrz_crypt_to_error key0 iv0 control buf L salt dir)
      (fun s _ => len (crypt_key s) = len key0 /\ len (crypt_iv s) = len iv0 /\
                  key_locked s = true /\ iv_locked s = true) w.
Proof.
  unfold lrz_crypt_to_error.
  apply wlp_bind.
  pose proof (wlp_lrz_keygen control salt key0 iv0 w) as Hk.
  unfold wlp in *.
  destruct (lrz_keygen control salt key0 iv0 w) as [[key iv] w1|]; [|exact I].
  cbn [fst snd] in Hk. destruct Hk as [Hkey Hiv].
  fold (wlp (A := crypt_exit)).
  apply wlp_bind, wlp_any. intros [r b] w2.
  apply wlp_ret. cbn. auto.
Qed.

(** When [gcry_md_open] fails, [lrz_keygen] writes through the handle it
    was left with. *)
Lemma lrz_keygen_needs_open control salt key iv w :
  valid_inputs control salt -> failed (st w) = true ->
  lrz_keygen control salt key iv w = Undefined.
Proof.
  intros (Hh & Hs & Hp & Hpl & Hpm) Hst.
  unfold HASH_LEN, SALT_LEN in *.
  assert (H : wp (buf <- memcpy (zeros (64 + 16 + PASS_LEN)) 0 (hash control) 0 64 ;;
                  buf <- memcpy buf 64 salt 0 16 ;;
                  memcpy buf (64 + 16) (salt_pass control) 0 (salt_pass_len control))
                (fun _ w' => w' = w) w).
  { apply wp_bind, wp_memcpy; [lia | lia | lia | lia | lens |].
    apply wp_bind, wp_memcpy; [lia | lia | lia | lia | lens |].
    apply wp_memcpy; [lia | lia | lia | lia | lens |]. reflexivity. }
  apply wp_done in H. destruct H as (b3 & w' & E & ->).
  unfold bind in E.
  unfold lrz_keygen, HASH_LEN, SALT_LEN, bind.
  destruct (memcpy (zeros (64 + 16 + PASS_LEN)) 0 (hash control) 0 64 w)
    as [b1 w1|]; [|reflexivity].
  destruct (memcpy b1 64 salt 0 16 w1) as [b2 w2|]; [|reflexivity].
  rewrite E.
  unfold gcry_md_open. rewrite (fallible_call md_open_call). rewrite Hst.
  reflexivity.
Qed.

(** *** The cipher calls of every run that returns *)

Lemma wlp_fallible {A} c (k : Z -> M A) Q w :
  wlp (k (st w)) Q (after c w) -> wlp (log c ;;; e <- next_status ;; k e) Q w.
Proof. unfold wlp. rewrite fallible_call. auto. Qed.

Lemma wlp_log c Q w : Q tt (logged c w) -> wlp (log c) Q w.
Proof. exact (fun H => H). Qed.

(** [memset] and [xor128] leave the world as it is. *)
Lemma wlp_memset0_any dst doff n (Q : mem -> world -> Prop) w :
  (forall d, Q d w) -> wlp (memset0 dst doff n) Q w.
Proof.
  intros HQ. unfold memset0.
  apply wlp_bind, wlp_access. intros ? _.
  apply wlp_access. intros d _. apply HQ.
Qed.

Lemma wlp_xor128_any pa pb (Q : mem -> world -> Prop) w :
  (forall d, Q d w) -> wlp (xor128 pa pb) Q w.
Proof.
  intros HQ. unfold xor128.
  do 5 (apply wlp_bind, wlp_access; intros ? _).
  apply wlp_access. intros d _. apply HQ.
Qed.

Lemma wlp_md_open (Q : Z * gcry_md_hd_t -> world -> Prop) w :
  (forall r, Q r (after md_open_call w)) -> wlp gcry_md_open Q w.
Proof. intros HQ. unfold gcry_md_open. apply wlp_fallible, wlp_ret, HQ. Qed.

Lemma wlp_md_write h buf n (Q : gcry_md_hd_t -> world -> Prop) w :
  (forall r d, Q r (logged (md_write_call d) w)) -> wlp (gcry_md_write h buf n) Q w.
Proof.
  intros HQ. unfold gcry_md_write.
  apply wlp_bind, wlp_access. intros ctx _.
  apply wlp_bind, wlp_access. intros bytes _.
  apply wlp_bind, wlp_log, wlp_ret, HQ.
Qed.

Lemma wlp_md_read h (Q : mem -> world -> Prop) w :
  (forall d, Q d (logged md_read_call w)) -> wlp (gcry_md_read h) Q w.
Proof.
  intros HQ. unfold gcry_md_read.
  apply wlp_bind, wlp_access. intros ctx _.
  apply wlp_bind, wlp_log, wlp_ret, HQ.
Qed.

Lemma wlp_md_reset h (Q : gcry_md_hd_t -> world -> Prop) w :
  (forall r, Q r (logged md_reset_call w)) -> wlp (gcry_md_reset h) Q w.
Proof.
  intros HQ. unfold gcry_md_reset.
  apply wlp_bind, wlp_access. intros ctx _.
  apply wlp_bind, wlp_log, wlp_ret, HQ.
Qed.

(** Key derivation makes no cipher call. *)
Lemma wlp_lrz_keygen_calls control salt key iv w0 w :
  extends cipher_call_ok w0 w ->
  wlp (lrz_keygen control salt key iv) (fun _ w' => extends cipher_call_ok w0 w') w.
Proof.
  intros Hext. unfold lrz_keygen.
  do 3 (apply wlp_bind, wlp_memcpy; intros ? _).
  apply wlp_bind, wlp_md_open. intros [e h].
  apply (extends_after _ _ _ md_open_call) in Hext; [|exact I].
  apply wlp_bind, wlp_md_write. intros h1 written1.
  apply (extends_logged _ _ _ (md_write_call written1)) in Hext; [|exact I].
  apply wlp_bind, wlp_md_read. intros x1.
  apply (extends_logged _ _ _ md_read_call) in Hext; [|exact I].
  apply wlp_bind, wlp_memcpy. intros ? _.
  apply wlp_bind, wlp_md_reset. intros h2.
  apply (extends_logged _ _ _ md_reset_call) in Hext; [|exact I].
  do 3 (apply wlp_bind, wlp_memcpy; intros ? _).
  apply wlp_bind, wlp_md_write. intros h3 written2.
  apply (extends_logged _ _ _ (md_write_call written2)) in Hext; [|exact I].
  apply wlp_bind, wlp_md_read. intros x2.
  apply (extends_logged _ _ _ md_read_call) in Hext; [|exact I].
  apply wlp_bind, wlp_memcpy. intros ? _.
  apply wlp_bind, wlp_log.
  apply (extends_logged _ _ _ md_close_call) in Hext; [|exact I].
  apply wlp_bind, wlp_memset0_any. intros ?.
  apply wlp_ret. exact Hext.
Qed.

(** A pass leaves the mode and the key of its handle alone. *)
Lemma cipher_run_keeps enc h data :
  hd_mode (snd (cipher_run enc h data)) = hd_mode h /\
  hd_key (snd (cipher_run enc h data)) = hd_key h.
Proof.
  unfold cipher_run. destruct h as [m k v]. cbn [hd_mode hd_key hd_iv].
  destruct m.
  - destruct ((if enc then cbc_encrypt else cbc_decrypt) k v _ data) as [out iv'].
    cbn. auto.
  - cbn. auto.
Qed.

Lemma wlp_cipher_open m (Q : Z * gcry_cipher_hd_t -> world -> Prop) w :
  (forall e, Q (e, mkCipher m [] (zeros aes_blklen)) (after (cipher_open_call m) w)) ->
  wlp (gcry_cipher_open m) Q w.
Proof. intros HQ. unfold gcry_cipher_open. apply wlp_fallible, wlp_ret, HQ. Qed.

(** After a key setup that succeeded the handle holds [keylen] bytes. *)
Lemma wlp_cipher_setkey h key keylen (Q : Z * gcry_cipher_hd_t -> world -> Prop) w :
  (forall e h',
     hd_mode h' = hd_mode h ->
     (failed e = false -> len (hd_key h') = to_size_t keylen) ->
     Q (e, h') (after (cipher_setkey_call (hd_mode h) (to_size_t keylen)) w)) ->
  wlp (gcry_cipher_setkey h key keylen) Q w.
Proof.
  intros HQ. unfold gcry_cipher_setkey. apply wlp_fallible.
  destruct (failed (st w)) eqn:Hf.
  - apply wlp_ret, HQ; [reflexivity|]. intros H. rewrite Hf in H. discriminate H.
  - apply wlp_bind, wlp_access. intros k Hk.
    apply wlp_ret, HQ; [reflexivity|]. intros _. cbn [hd_key].
    unfold load in Hk.
    destruct (in_bounds key 0 (to_size_t keylen)) eqn:Hb; [|discriminate Hk].
    injection Hk as <-. apply in_bounds_inv in Hb. apply len_slice; lia.
Qed.

Lemma wlp_cipher_setiv h iv ivlen (Q : Z * gcry_cipher_hd_t -> world -> Prop) w :
  (forall e h',
     hd_mode h' = hd_mode h -> hd_key h' = hd_key h ->
     Q (e, h') (after (cipher_setiv_call (hd_mode h) (to_size_t ivlen)) w)) ->
  wlp (gcry_cipher_setiv h iv ivlen) Q w.
Proof.
  intros HQ. unfold gcry_cipher_setiv. apply wlp_fallible.
  destruct (failed (st w)).
  - apply wlp_ret, HQ; reflexivity.
  - apply wlp_bind, wlp_access. intros v _.
    apply wlp_ret, HQ; reflexivity.
Qed.

(** A transform is logged with the number of bytes it was asked for,
    and leaves the mode and the key of its handle alone. *)
Lemma wlp_cipher_crypt enc h out ooff outsize inp inlen
    (Q : Z * mem * gcry_cipher_hd_t -> world -> Prop) w :
  (forall e out' h',
     hd_mode h' = hd_mode h -> hd_key h' = hd_key h ->
     Q (e, out', h')
       (after (crypt_call enc h (match inp with
                                 | Some _ => to_size_t inlen
                                 | None => to_size_t outsize
                                 end)) w)) ->
  wlp (gcry_cipher_crypt enc h out ooff outsize inp inlen) Q w.
Proof.
  intros HQ. unfold gcry_cipher_crypt.
  destruct inp as [[i ioff]|]; apply wlp_fallible;
    (destruct (failed (st w)); [apply wlp_ret, HQ; reflexivity|]);
    (match goal with
     | |- context [negb ?c] => destruct (negb c); [apply wlp_ret, HQ; reflexivity|]
     end);
    apply wlp_bind, wlp_access; intros data _;
    pose proof (cipher_run_keeps enc h data) as [Hm Hk];
    destruct (cipher_run enc h data) as [res h']; cbn [snd] in Hm, Hk;
    apply wlp_bind, wlp_access; intros out' _;
    apply wlp_ret, HQ; assumption.
Qed.

(** The branch of encryption: every call goes through the CBC handle,
    which holds a 16-byte key. *)
Lemma wlp_encrypt_calls cbc buf tmp0 tmp1 M_ N w0 w :
  len (hd_key cbc) = 16 -> to_size_t N mod 16 = 0 ->
  extends cipher_call_ok w0 w ->
  wlp (lrz_crypt_encrypt cbc buf tmp0 tmp1 M_ N)
      (fun _ w' => extends cipher_call_ok w0 w') w.
Proof.
  intros Hk HN Hext.
  unfold lrz_crypt_encrypt, gcry_cipher_encrypt, lrz_crypt_finish, goto_error.
  apply wlp_bind, wlp_cipher_crypt. intros e buf1 cbc1 _ Hk1.
  apply (extends_after _ _ _ (crypt_call true cbc (to_size_t N))) in Hext;
    [|unfold crypt_call; cbn; auto].
  destruct (failed e); [apply wlp_ret; exact Hext|].
  destruct (negb (M_ =? 0)).
  - apply wlp_bind, wlp_memset0_any. intros tmp0a.
    apply wlp_bind, wlp_memcpy. intros tmp0b _.
    apply wlp_bind, wlp_cipher_crypt. intros e2 tmp1a cbc2 _ Hk2.
    apply (extends_after _ _ _ (crypt_call true cbc1 (to_size_t CBC_LEN))) in Hext;
      [|unfold crypt_call; cbn; rewrite Hk1; auto].
    destruct (failed e2); [apply wlp_ret; exact Hext|].
    apply wlp_bind, wlp_memcpy. intros buf2 _.
    apply wlp_bind, wlp_memcpy. intros buf3 _.
    apply wlp_bind, wlp_log, wlp_ret.
    apply extends_logged; [exact Hext | exact I].
  - apply wlp_bind, wlp_log, wlp_ret.
    apply extends_logged; [exact Hext | exact I].
Qed.

(** The branch of decryption: the ECB handle is used once it is keyed,
    with [CBC_LEN] bytes as well. *)
Lemma wlp_decrypt_calls key cbc buf tmp0 tmp1 len_ M_ N w0 w :
  len (hd_key cbc) = 16 ->
  to_size_t (to_int (N - CBC_LEN)) mod 16 = 0 ->
  (M_ = 0 -> to_size_t len_ mod 16 = 0) ->
  extends cipher_call_ok w0 w ->
  wlp (lrz_crypt_decrypt key cbc buf tmp0 tmp1 len_ M_ N)
      (fun _ w' => extends cipher_call_ok w0 w') w.
Proof.
  intros Hk HN HL Hext.
  unfold lrz_crypt_decrypt, gcry_cipher_decrypt, lrz_crypt_finish, goto_error.
  destruct (Z.eqb_spec M_ 0) as [HM0 | HM0]; cbn [negb].
  - apply wlp_bind, wlp_cipher_crypt. intros e buf1 cbc1 _ _.
    apply (extends_after _ _ _ (crypt_call false cbc (to_size_t len_))) in Hext;
      [|unfold crypt_call; cbn; auto].
    destruct (failed e); [apply wlp_ret; exact Hext|].
    apply wlp_bind, wlp_log, wlp_ret.
    apply extends_logged; [exact Hext | exact I].
  - apply wlp_bind, wlp_cipher_open. intros e.
    apply (extends_after _ _ _ (cipher_open_call GCRY_CIPHER_MODE_ECB)) in Hext;
      [|exact I].
    destruct (failed e); [apply wlp_ret; exact Hext|].
    apply wlp_bind, wlp_cipher_setkey. cbn [hd_mode]. intros e1 ecb Hm1 Hk1.
    apply (extends_after _ _ _
             (cipher_setkey_call GCRY_CIPHER_MODE_ECB (to_size_t CBC_LEN))) in Hext;
      [|reflexivity].
    destruct (failed e1) eqn:Hf1; [apply wlp_ret; exact Hext|].
    specialize (Hk1 eq_refl). change (to_size_t CBC_LEN) with 16 in Hk1.
    apply wlp_bind, wlp_cipher_crypt. intros e2 buf1 cbc1 _ Hkc1.
    apply (extends_after _ _ _
             (crypt_call false cbc (to_size_t (to_int (N - CBC_LEN))))) in Hext;
      [|unfold crypt_call; cbn; auto].
    destruct (failed e2); [apply wlp_ret; exact Hext|].
    apply wlp_bind, wlp_cipher_crypt. intros e3 tmp0a ecb1 Hm2 _.
    apply (extends_after _ _ _ (crypt_call false ecb (to_size_t CBC_LEN))) in Hext;
      [|unfold crypt_call; cbn; rewrite Hk1; auto].
    destruct (failed e3); [apply wlp_ret; exact Hext|].
    apply wlp_bind, wlp_memset0_any. intros tmp1a.
    apply wlp_bind, wlp_memcpy. intros tmp1b _.
    apply wlp_bind, wlp_xor128_any. intros tmp0b.
    apply wlp_bind, wlp_memcpy. intros buf2 _.
    apply wlp_bind, wlp_memcpy. intros tmp1c _.
    apply wlp_bind, wlp_cipher_crypt. intros e4 buf3 cbc2 _ _.
    apply (extends_after _ _ _ (crypt_call false cbc1 (to_size_t CBC_LEN))) in Hext;
      [|unfold crypt_call; cbn; rewrite Hkc1; auto].
    destruct (failed e4); [apply wlp_ret; exact Hext|].
    apply wlp_bind, wlp_log.
    apply (extends_logged _ _ _ (cipher_close_call (hd_mode ecb1))) in Hext; [|exact I].
    apply wlp_bind, wlp_log, wlp_ret.
    apply extends_logged; [exact Hext | exact I].
Qed.

(** From the opening of the CBC handle to the label [error]. *)
Lemma wlp_body_calls key iv buf len_ M_ N encrypt w0 w :
  to_size_t N mod 16 = 0 ->
  to_size_t (to_int (N - CBC_LEN)) mod 16 = 0 ->
  (M_ = 0 -> to_size_t len_ mod 16 = 0) ->
  extends cipher_call_ok w0 w ->
  wlp (lrz_crypt_body key iv buf len_ M_ N encrypt)
      (fun _ w' => extends cipher_call_ok w0 w') w.
Proof.
  intros HN HN' HL Hext. unfold lrz_crypt_body, goto_error.
  apply wlp_bind, wlp_cipher_open. intros e.
  apply (extends_after _ _ _ (cipher_open_call GCRY_CIPHER_MODE_CBC)) in Hext;
    [|exact I].
  destruct (failed e); [apply wlp_ret; exact Hext|].
  apply wlp_bind, wlp_cipher_setkey. cbn [hd_mode]. intros e1 cbc Hm1 Hk1.
  apply (extends_after _ _ _
           (cipher_setkey_call GCRY_CIPHER_MODE_CBC (to_size_t CBC_LEN))) in Hext;
    [|reflexivity].
  destruct (failed e1) eqn:Hf1; [apply wlp_ret; exact Hext|].
  specialize (Hk1 eq_refl). change (to_size_t CBC_LEN) with 16 in Hk1.
  apply wlp_bind, wlp_cipher_setiv. rewrite Hm1. intros e2 cbc' Hm2 Hk2.
  apply (extends_after _ _ _
           (cipher_setiv_call GCRY_CIPHER_MODE_CBC (to_size_t CBC_LEN))) in Hext;
    [|reflexivity].
  destruct (failed e2); [apply wlp_ret; exact Hext|].
  rewrite <- Hk2 in Hk1.
  destruct encrypt.
  - apply wlp_decrypt_calls; assumption.
  - apply wlp_encrypt_calls; assumption.
  - apply wlp_decrypt_calls; assumption.
Qed.

(** Conversion to [int] and to [size_t] keeps the remainder by 16. *)
Lemma to_int_mod16 z : to_int z mod 16 = z mod 16.
Proof.
  unfold to_int.
  pose proof (Z.div_mod (z + 2 ^ 31) (2 ^ 32) ltac:(lia)) as H.
  replace ((z + 2 ^ 31) mod 2 ^ 32 - 2 ^ 31)
    with (z + (- 2 ^ 28 * ((z + 2 ^ 31) / 2 ^ 32)) * 16) by lia.
  apply Z_mod_plus_full.
Qed.

Lemma to_size_t_mod16 z : to_size_t z mod 16 = z mod 16.
Proof.
  unfold to_size_t.
  pose proof (Z.div_mod z (2 ^ 64) ltac:(lia)) as H.
  replace (z mod 2 ^ 64) with (z + (- 2 ^ 60 * (z / 2 ^ 64)) * 16) by lia.
  apply Z_mod_plus_full.
Qed.

(** [M] and [N] as [lrz_crypt] computes them: whatever [len] is, the
    lengths handed to the cipher are whole numbers of blocks. *)
Lemma int_blocks len_ :
  let M_ := to_int (Z.rem len_ CBC_LEN) in
  let N := to_int (len_ - M_) in
  to_size_t N mod 16 = 0 /\
  to_size_t (to_int (N - CBC_LEN)) mod 16 = 0 /\
  (M_ = 0 -> to_size_t len_ mod 16 = 0).
Proof.
  intros M_ N. unfold CBC_LEN in *.
  pose proof (Z.quot_rem' len_ 16) as Hqr.
  pose proof (Z.rem_bound_abs len_ 16 ltac:(lia)) as Hb.
  assert (EM : M_ = Z.rem len_ 16) by (apply to_int_small; lia).
  assert (HN : N mod 16 = 0).
  { unfold N. rewrite to_int_mod16, EM.
    replace (len_ - Z.rem len_ 16) with (0 + Z.quot len_ 16 * 16) by lia.
    apply Z_mod_plus_full. }
  split; [rewrite to_size_t_mod16; exact HN|].
  split.
  - rewrite to_size_t_mod16, to_int_mod16.
    replace (N - 16) with (N + (-1) * 16) by lia.
    rewrite Z_mod_plus_full. exact HN.
  - intros HM. rewrite to_size_t_mod16.
    replace len_ with (0 + Z.quot len_ 16 * 16) by lia.
    apply Z_mod_plus_full.
Qed.

Lemma extends_refl P w : extends P w w.
Proof. exists []. rewrite app_nil_r. auto. Qed.

Lemma extends_keygen_world control salt w :
  extends cipher_call_ok w (keygen_world control salt w).
Proof.
  exists (keygen_calls control salt). split; [reflexivity|].
  unfold keygen_calls. repeat constructor.
Qed.

(** [lrz_crypt] returns, whatever the cipher calls answer. *)
Lemma wp_lrz_crypt_frame_any key0 iv0 control buf salt dir w :
  len key0 = HASH_LEN -> len iv0 = HASH_LEN ->
  valid_inputs control salt -> st w = 0 -> 16 <= len buf < 2 ^ 31 ->
  wp (lrz_crypt_frame key0 iv0 control buf (len buf) salt dir)
     (fun r w' => (len (crypt_buf r) = len buf /\ extends cipher_call_ok w w')
                  /\ secrets_erased r) w.
Proof.
  intros Hk0 Hv0 Hvalid Hst HL.
  destruct (int_split (len buf)) as [EM EN]; [lia|].
  pose proof (Z.mod_pos_bound (len buf) 16 ltac:(lia)) as HMr.
  assert (HN : 16 <= len buf - len buf mod 16).
  { assert ((len buf - len buf mod 16) mod 16 = 0)
      by (rewrite Zminus_mod, Z.mod_mod, Z.sub_diag by lia; reflexivity).
    apply Z.div_exact in H; lia. }
  apply (wp_lrz_crypt_frame key0 iv0 control buf (len buf) salt dir
           (fun r w' => len (snd r) = len buf /\ extends cipher_call_ok w w'));
    [exact Hk0 | exact Hv0 | exact Hvalid | rewrite Hst; reflexivity |].
  rewrite EN, EM.
  apply wp_body_any;
    auto using derive_key_length, derive_iv_length, extends_keygen_world; lia.
Qed.

Lemma wp_lrz_crypt_any control buf salt dir w :
  valid_inputs control salt -> st w = 0 -> 16 <= len buf < 2 ^ 31 ->
  wp (lrz_crypt control buf (len buf) salt dir)
     (fun r w' => (len (crypt_buf r) = len buf /\ extends cipher_call_ok w w')
                  /\ secrets_erased r) w.
Proof.
  intros Hvalid Hst HL. unfold lrz_crypt.
  apply wp_lrz_crypt_frame_any; try assumption; apply len_zeros; unfold HASH_LEN; lia.
Qed.

Lemma counters_length : forall n j, length (counters j n) = n.
Proof. induction n; intros; cbn; auto. Qed.

Lemma stretch_round_calls_write control l c :
  In c (flat_map (spec_round_calls control) l) -> exists d, c = md_write_call d.
Proof.
  intros H. apply in_flat_map in H. destruct H as (j & _ & H).
  cbn in H. destruct H as [<- | [<- | []]]; eauto.
Qed.

(** *** The header codec *)

Lemma pack4 a b c d x1 x2 x3 x4 :
  len a = 1 -> len b = 8 -> len c = 8 -> len d = 8 ->
  len x1 = 1 -> len x2 = 8 -> len x3 = 8 -> len x4 = 8 ->
  splice (splice (splice (splice (a ++ b ++ c ++ d) 0 x1) 1 x2) 9 x3) 17 x4
  = x1 ++ x2 ++ x3 ++ x4.
Proof.
  intros Ha Hb Hc Hd H1 H2 H3 H4.
  rewrite splice_head by lia.
  rewrite (splice_app3 x1 b (c ++ d) 1 x2) by lia.
  rewrite (app_assoc x1 x2).
  rewrite (splice_app3 (x1 ++ x2) c d 9 x3) by (rewrite ?len_app; lia).
  rewrite (app_assoc (x1 ++ x2) x3).
  rewrite (splice_tail ((x1 ++ x2) ++ x3) d 17 x4) by (rewrite ?len_app; lia).
  rewrite <- !app_assoc. reflexivity.
Qed.

Lemma split4 b :
  len b = 25 -> b = slice b 0 1 ++ slice b 1 8 ++ slice b 9 8 ++ slice b 17 8.
Proof.
  intros H.
  rewrite (slice_split3 b 1 8) at 1 by lia. do 2 f_equal.
  replace (len b - 1 - 8) with 16 by lia.
  rewrite (slice_split (slice b (1 + 8) 16) 8) by (rewrite len_slice; lia).
  rewrite len_slice by lia. rewrite !slice_slice by lia. reflexivity.
Qed.

Lemma pack_header_length f : len (spec_pack_header f) = 25.
Proof. unfold spec_pack_header. rewrite !len_app, !len_le_split. reflexivity. Qed.

Lemma hd_slice b : 1 <= len b -> hd Byte.x00 (slice b 0 1) = hd Byte.x00 b.
Proof. destruct b; [unfold len; cbn; lia | reflexivity]. Qed.

Lemma wp_of_done {A} (m : M A) (Q : A -> world -> Prop) w a w' :
  m w = Done a w' -> Q a w' -> wp m Q w.
Proof. intros E H. unfold wp. now rewrite E. Qed.

Lemma skipn_slice b n : 0 <= n <= len b -> skipn (Z.to_nat n) b = slice b n (len b - n).
Proof.
  intros H. unfold slice. symmetry. apply firstn_all2.
  rewrite length_skipn. unfold len in *. lia.
Qed.

Lemma firstn_slice b n : firstn (Z.to_nat n) b = slice b 0 n.
Proof. reflexivity. Qed.

(** *** A buffer that goes on after the bytes worked on *)

Lemma slice_app_l a rest off n :
  0 <= off -> 0 <= n -> off + n <= len a -> slice (a ++ rest) off n = slice a off n.
Proof.
  intros Ho Hn Hb. unfold slice, len in *.
  rewrite skipn_app, firstn_app, length_skipn.
  replace (Z.to_nat n - (length a - Z.to_nat off))%nat with 0%nat by lia.
  rewrite firstn_O. apply app_nil_r.
Qed.

Lemma splice_app_l a rest off src :
  0 <= off -> off + len src <= len a ->
  splice (a ++ rest) off src = splice a off src ++ rest.
Proof.
  intros Ho Hb. unfold splice, len in *.
  rewrite firstn_app, skipn_app.
  replace (Z.to_nat off - length a)%nat with 0%nat by lia.
  replace (Z.to_nat (off + Z.of_nat (length src)) - length a)%nat with 0%nat by lia.
  cbn [firstn skipn]. rewrite app_nil_r, <- !app_assoc. reflexivity.
Qed.

Lemma load_frame a rest off n x :
  load a off n = Some x -> load (a ++ rest) off n = Some x.
Proof.
  unfold load. destruct (in_bounds a off n) eqn:Hb; [|discriminate].
  intros [= <-]. apply in_bounds_inv in Hb.
  pose proof (len_nonneg rest).
  rewrite in_bounds_true by (rewrite ?len_app; lia).
  rewrite slice_app_l by lia. reflexivity.
Qed.

Lemma store_frame a rest off src a' :
  store a off src = Some a' -> store (a ++ rest) off src = Some (a' ++ rest).
Proof.
  intros H. apply store_inv in H. destruct H as (-> & Ho & Hb).
  pose proof (len_nonneg rest).
  rewrite store_ok by (rewrite ?len_app; lia).
  rewrite splice_app_l by lia. reflexivity.
Qed.

Lemma access_done {A} (o : option A) w a w' :
  access o w = Done a w' -> o = Some a /\ w' = w.
Proof. unfold access. destruct o; [intros [= <- <-]; auto | discriminate]. Qed.

Lemma memcpy_inv dst doff src soff n w d w' :
  memcpy dst doff src soff n w = Done d w' ->
  exists bytes,
    load src soff (to_size_t n) = Some bytes /\ store dst doff bytes = Some d /\ w' = w.
Proof.
  unfold memcpy, bind. intros E.
  destruct (access (load src soff (to_size_t n)) w) as [bytes w1|] eqn:E1;
    [|discriminate E].
  apply access_done in E1. destruct E1 as [E1 ->].
  apply access_done in E. destruct E as [E ->]. eauto.
Qed.

Lemma memcpy_of dst doff src soff n w bytes d :
  load src soff (to_size_t n) = Some bytes -> store dst doff bytes = Some d ->
  memcpy dst doff src soff n w = Done d w.
Proof. intros H1 H2. unfold memcpy, bind, access. rewrite H1, H2. reflexivity. Qed.

(** [memcpy] from, to and within a buffer that goes on. *)
Lemma memcpy_from_frame dst doff a rest soff n w d w' :
  memcpy dst doff a soff n w = Done d w' ->
  memcpy dst doff (a ++ rest) soff n w = Done d w'.
Proof.
  intros E. apply memcpy_inv in E. destruct E as (bytes & E1 & E2 & ->).
  eapply memcpy_of; [apply load_frame|]; eassumption.
Qed.

Lemma memcpy_to_frame a rest doff src soff n w d w' :
  memcpy a doff src soff n w = Done d w' ->
  memcpy (a ++ rest) doff src soff n w = Done (d ++ rest) w'.
Proof.
  intros E. apply memcpy_inv in E. destruct E as (bytes & E1 & E2 & ->).
  eapply memcpy_of; [|apply store_frame]; eassumption.
Qed.

Lemma memcpy_within_frame a rest doff soff n w d w' :
  memcpy a doff a soff n w = Done d w' ->
  memcpy (a ++ rest) doff (a ++ rest) soff n w = Done (d ++ rest) w'.
Proof.
  intros E. apply memcpy_inv in E. destruct E as (bytes & E1 & E2 & ->).
  eapply memcpy_of; [apply load_frame | apply store_frame]; eassumption.
Qed.

(** A transform in place. *)
Lemma cipher_crypt_inplace_frame enc h a rest ooff outsize inlen w e a1 h1 w1 :
  gcry_cipher_crypt enc h a ooff outsize None inlen w = Done (e, a1, h1) w1 ->
  gcry_cipher_crypt enc h (a ++ rest) ooff outsize None inlen w
  = Done (e, a1 ++ rest, h1) w1.
Proof.
  unfold gcry_cipher_crypt. rewrite !fallible_call.
  destruct (failed (st w)); [intros [= <- <- <- <-]; reflexivity|].
  destruct (negb (to_size_t outsize mod aes_blklen =? 0));
    [intros [= <- <- <- <-]; reflexivity|].
  unfold bind. intros E.
  destruct (access (load a ooff (to_size_t outsize)) _) as [data w2|] eqn:E1;
    [|discriminate E].
  apply access_done in E1. destruct E1 as [E1 ->].
  rewrite (load_frame _ rest _ _ _ E1). cbn [access].
  destruct (cipher_run enc h data) as [res h'].
  destruct (access (store a ooff res) _) as [out' w3|] eqn:E2; [|discriminate E].
  apply access_done in E2. destruct E2 as [E2 ->].
  rewrite (store_frame _ rest _ _ _ E2). cbn [access].
  injection E as <- <- <- <-. reflexivity.
Qed.

(** The branch of encryption reads and writes [buf] below [N + M] only:
    on a buffer that goes on it does the same and leaves the rest. *)
Lemma lrz_crypt_encrypt_frame cbc a rest tmp0 tmp1 M_ N w r a' w' :
  lrz_crypt_encrypt cbc a tmp0 tmp1 M_ N w = Done (r, a') w' ->
  lrz_crypt_encrypt cbc (a ++ rest) tmp0 tmp1 M_ N w = Done (r, a' ++ rest) w'.
Proof.
  unfold lrz_crypt_encrypt, gcry_cipher_encrypt, lrz_crypt_finish, goto_error, bind.
  intros E.
  destruct (gcry_cipher_crypt true cbc a 0 N None 0 w) as [[[e a1] cbc1] w1|] eqn:E1;
    [|discriminate E].
  rewrite (cipher_crypt_inplace_frame _ _ _ rest _ _ _ _ _ _ _ _ E1).
  destruct (failed e); [injection E as <- <- <-; reflexivity|].
  destruct (negb (M_ =? 0)).
  - destruct (memset0 tmp0 0 CBC_LEN w1) as [t0 w2|]; [|discriminate E].
    destruct (memcpy t0 0 a1 N M_ w2) as [t0' w3|] eqn:E2; [|discriminate E].
    rewrite (memcpy_from_frame _ _ _ rest _ _ _ _ _ E2).
    destruct (gcry_cipher_crypt true cbc1 tmp1 0 CBC_LEN (Some (t0', 0)) CBC_LEN w3)
      as [[[e2 t1] cbc2] w4|]; [|discriminate E].
    destruct (failed e2); [injection E as <- <- <-; reflexivity|].
    destruct (memcpy a1 N a1 (N - CBC_LEN) M_ w4) as [a2 w5|] eqn:E3; [|discriminate E].
    rewrite (memcpy_within_frame _ rest _ _ _ _ _ _ E3).
    destruct (memcpy a2 (N - CBC_LEN) t1 0 CBC_LEN w5) as [a3 w6|] eqn:E4;
      [|discriminate E].
    rewrite (memcpy_to_frame _ rest _ _ _ _ _ _ _ E4).
    destruct (gcry_cipher_close cbc2 w6) as [[] w7|]; [|discriminate E].
    injection E as <- <- <-. reflexivity.
  - destruct (gcry_cipher_close cbc1 w1) as [[] w2|]; [|discriminate E].
    injection E as <- <- <-. reflexivity.
Qed.

Lemma lrz_crypt_body_encrypt_frame key iv a rest L L' M_ N w r a' w' :
  lrz_crypt_body key iv a L M_ N LRZ_ENCRYPT w = Done (r, a') w' ->
  lrz_crypt_body key iv (a ++ rest) L' M_ N LRZ_ENCRYPT w = Done (r, a' ++ rest) w'.
Proof.
  unfold lrz_crypt_body, goto_error, bind. intros E.
  destruct (gcry_cipher_open GCRY_CIPHER_MODE_CBC w) as [[e cbc] w1|]; [|discriminate E].
  destruct (failed e); [injection E as <- <- <-; reflexivity|].
  destruct (gcry_cipher_setkey cbc key CBC_LEN w1) as [[e1 cbc1] w2|]; [|discriminate E].
  destruct (failed e1); [injection E as <- <- <-; reflexivity|].
  destruct (gcry_cipher_setiv cbc1 iv CBC_LEN w2) as [[e2 cbc2] w3|]; [|discriminate E].
  destruct (failed e2); [injection E as <- <- <-; reflexivity|].
  apply lrz_crypt_encrypt_frame. exact E.
Qed.

(** *** Lengths beyond [int] *)

Lemma bind_undefined_l {A B} (m : M A) (k : A -> M B) w :
  m w = Undefined -> bind m k w = Undefined.
Proof. unfold bind. now intros ->. Qed.

Lemma bind_undefined {A B} (m : M A) (k : A -> M B) w :
  wp m (fun a w' => k a w' = Undefined) w -> bind m k w = Undefined.
Proof. unfold wp, bind. destruct (m w); [auto | contradiction]. Qed.

(** Decryption of a whole number of blocks, every library call
    succeeding: the pass is asked for [len] itself, whatever [N] is. *)
Lemma wp_body_decrypt_whole K V buf L N dir w :
  len K = 64 -> len V = 64 -> len buf = L -> all_ok w ->
  L < 2 ^ 64 -> L mod 16 = 0 -> dir <> LRZ_ENCRYPT ->
  wp (lrz_crypt_body K V buf L 0 N dir)
     (fun r w' =>
        r = (true, fst (cbc_decrypt (slice K 0 16) (slice V 0 16) (Z.to_nat (L / 16)) buf))
        /\ all_ok w') w.
Proof.
  intros HK HV Hbuf Hok HL HLm Hdir.
  pose proof (len_nonneg buf) as Hnn.
  set (nb := Z.to_nat (L / 16)).
  assert (HNb : L = 16 * Z.of_nat nb).
  { unfold nb. rewrite Z2Nat.id by (apply Z.div_pos; lia).
    apply Z.div_exact in HLm; lia. }
  set (k := slice K 0 16). set (v := slice V 0 16).
  assert (Hk : len k = 16) by (apply len_slice; lia).
  assert (Hv : len v = 16) by (apply len_slice; lia).
  unfold lrz_crypt_body, CBC_LEN.
  apply wp_bind, wp_cipher_open. rewrite (all_ok_st w Hok). cbn [failed Z.eqb negb].
  next_world Hok.
  apply wp_bind, wp_cipher_setkey; [lia | no_failure Hok | intros _; split; [lia|]].
  cbn [failed Z.eqb negb hd_mode hd_iv hd_key]. next_world Hok.
  apply wp_bind, wp_cipher_setiv; [lia | no_failure Hok | intros _; split; [lia|]].
  cbn [failed Z.eqb negb hd_mode hd_iv hd_key]. next_world Hok.
  fold k v.
  assert (Ebody : forall Q w1,
             wp (lrz_crypt_decrypt K (mkCipher GCRY_CIPHER_MODE_CBC k v) buf
                   (zeros 16) (zeros 16) L 0 N) Q w1 ->
             wp match dir with
                | LRZ_ENCRYPT =>
                    lrz_crypt_encrypt (mkCipher GCRY_CIPHER_MODE_CBC k v) buf
                      (zeros 16) (zeros 16) 0 N
                | _ => lrz_crypt_decrypt K (mkCipher GCRY_CIPHER_MODE_CBC k v) buf
                         (zeros 16) (zeros 16) L 0 N
                end Q w1)
    by (intros Q w1 H; destruct dir; [exact H | contradiction | exact H]).
  apply Ebody. clear Ebody.
  unfold lrz_crypt_decrypt, gcry_cipher_decrypt. cbn [Z.eqb negb].
  destruct (cbc_decrypt_length k nb v buf Hk Hv) as [Hc Hchain]; [lia|].
  assert (Erun : cipher_run false (mkCipher GCRY_CIPHER_MODE_CBC k v) (slice buf 0 L)
                 = (fst (cbc_decrypt k v nb buf),
                    mkCipher GCRY_CIPHER_MODE_CBC k (snd (cbc_decrypt k v nb buf)))).
  { rewrite slice_all by exact Hbuf. apply (cipher_run_cbc false). lia. }
  apply wp_bind, wp_cipher_crypt_inplace; [lia | no_failure Hok | intros _].
  rewrite Erun. cbn [fst snd].
  split; [exact HLm|]. split; [lia|]. split; [lia|]. split; [lia|].
  cbn [failed Z.eqb negb]. next_world Hok.
  rewrite splice_all by lia.
  unfold lrz_crypt_finish.
  apply wp_bind, wp_cipher_close, wp_ret. split; [reflexivity | exact Hok].
Qed.

(** The first block that CBC decryption returns. *)
Lemma cbc_decrypt_first key iv n data :
  len key = 16 -> len iv = 16 -> (1 <= n)%nat -> 16 * Z.of_nat n <= len data ->
  slice (fst (cbc_decrypt key iv n data)) 0 16 =
  xor_bytes (aes_decrypt_block key (slice data 0 16)) iv.
Proof.
  intros Hk Hv Hn Hd. destruct n as [|n]; [lia|].
  cbn [cbc_decrypt].
  change (slice data 0 16) with (firstn 16 data).
  destruct (cbc_decrypt key (firstn 16 data) n (skipn 16 data)) as [ps iv'].
  cbn [fst]. apply slice_head.
  rewrite len_xor_bytes; rewrite aes_decrypt_length; try lia; apply len_firstn16; lia.
Qed.

(** [M] and [N] of a length that exceeds [int] by a multiple of 2^32. *)
Lemma int_split_wraps L0 k :
  0 <= L0 < 2 ^ 31 -> 0 <= k ->
  to_int (Z.rem (L0 + k * 2 ^ 32) CBC_LEN) = L0 mod 16 /\
  to_int (L0 + k * 2 ^ 32 - to_int (Z.rem (L0 + k * 2 ^ 32) CBC_LEN)) = L0 - L0 mod 16.
Proof.
  intros HL Hk. unfold CBC_LEN.
  pose proof (Z.mod_pos_bound L0 16 ltac:(lia)) as HM.
  assert (EM : Z.rem (L0 + k * 2 ^ 32) 16 = L0 mod 16).
  { rewrite Z.rem_mod_nonneg by lia.
    replace (L0 + k * 2 ^ 32) with (L0 + (k * 2 ^ 28) * 16) by lia.
    apply Z_mod_plus_full. }
  rewrite EM. rewrite (to_int_small (L0 mod 16)) by lia.
  split; [reflexivity|].
  unfold to_int.
  replace (L0 + k * 2 ^ 32 - L0 mod 16 + 2 ^ 31)
    with (L0 - L0 mod 16 + 2 ^ 31 + k * 2 ^ 32) by lia.
  rewrite Z_mod_plus_full. rewrite Z.mod_small by lia. lia.
Qed.

(** Encryption of a buffer of [L0 + k * 2^32] bytes: [N] and [M] are
    those of [L0], the first [L0] bytes are encrypted as a buffer of
    their own, and the bytes after them are left as they are. *)
Lemma wp_lrz_crypt_encrypt_wraps control salt buf L0 k w :
  valid_inputs control salt -> all_ok w ->
  0 <= L0 < 2 ^ 31 -> (L0 mod 16 <> 0 -> 16 <= L0) -> 0 <= k ->
  len buf = L0 + k * 2 ^ 32 ->
  wp (lrz_crypt control buf (len buf) salt LRZ_ENCRYPT)
     (fun r w' =>
        (crypt_ret r = true /\
         crypt_buf r =
           (if L0 mod 16 =? 0
            then fst (cbc_encrypt (cipher_key control salt) (cipher_iv control salt)
                        (Z.to_nat ((L0 - L0 mod 16) / 16)) (slice buf 0 L0))
            else spec_cts_encrypt (cipher_key control salt) (cipher_iv control salt)
                   (slice buf 0 L0))
           ++ slice buf L0 (k * 2 ^ 32)) /\ all_ok w') w.
Proof.
  intros Hvalid Hok HL HL16 Hk Hbuf.
  destruct (int_split_wraps L0 k HL Hk) as [EM EN].
  pose proof (Z.mod_pos_bound L0 16 ltac:(lia)) as HMr.
  assert (HN : L0 mod 16 <> 0 -> 16 <= L0 - L0 mod 16).
  { intros HM. specialize (HL16 HM).
    assert ((L0 - L0 mod 16) mod 16 = 0)
      by (rewrite Zminus_mod, Z.mod_mod, Z.sub_diag by lia; reflexivity).
    apply Z.div_exact in H; lia. }
  set (a := slice buf 0 L0). set (rest := slice buf L0 (k * 2 ^ 32)).
  assert (Ha : len a = L0) by (apply len_slice; lia).
  assert (Ebuf : buf = a ++ rest).
  { rewrite (slice_split buf L0) at 1 by lia. unfold a, rest. do 2 f_equal. lia. }
  eapply wp_mono.
  { apply (wp_lrz_crypt control buf (len buf) salt LRZ_ENCRYPT
             (fun r w' =>
                r = (true,
                     (if L0 mod 16 =? 0
                      then fst (cbc_encrypt (cipher_key control salt) (cipher_iv control salt)
                                  (Z.to_nat ((L0 - L0 mod 16) / 16)) a)
                      else spec_cts_encrypt (cipher_key control salt)
                             (cipher_iv control salt) a) ++ rest)
                /\ all_ok w'));
      [exact Hvalid | apply all_ok_not_failed; exact Hok |].
    rewrite Hbuf, EN, EM.
    pose proof (wp_body_encrypt (spec_derive_key control salt) (spec_derive_iv control salt)
                  a L0 (L0 mod 16) (L0 - L0 mod 16) (keygen_world control salt w)
                  (derive_key_length control salt) (derive_iv_length control salt)
                  Ha (all_ok_keygen_world control salt w Hok) HL eq_refl eq_refl HN)
      as Hrun.
    apply wp_done in Hrun. destruct Hrun as ([r a'] & w' & Erun & E & Hok').
    injection E as -> ->.
    eapply wp_of_done.
    - rewrite Ebuf at 1.
      exact (lrz_crypt_body_encrypt_frame _ _ _ rest _ _ _ _ _ _ _ _ Erun).
    - split; [reflexivity | exact Hok']. }
  cbn beta. intros r w' [[E Hok'] _]. injection E as E1 E2.
  split; [|exact Hok']. split; [exact E1 | exact E2].
Qed.

(** [M] and [N] are [int]: at 2^31 bytes [N] is negative, and the first
    CBC pass is asked for close to 2^64 bytes. *)
Lemma lrz_crypt_int_truncation control salt buf w :
  valid_inputs control salt -> all_ok w -> len buf = 2 ^ 31 ->
  lrz_crypt control buf (len buf) salt LRZ_ENCRYPT w = Undefined.
Proof.
  intros Hvalid Hok HL. rewrite HL.
  unfold lrz_crypt, lrz_crypt_frame.
  apply bind_undefined_l. unfold lrz_crypt_to_error.
  apply bind_undefined.
  destruct Hvalid as (Hh & Hs & Hp & Hpl & Hpm).
  eapply wp_mono.
  { apply wp_lrz_keygen; try assumption;
      [unfold HASH_LEN; apply len_zeros; lia ..| apply all_ok_not_failed; exact Hok]. }
  intros [key iv] w1 [E ->]. injection E as -> ->.
  apply (all_ok_keygen_world control salt) in Hok.
  change (to_int (Z.rem (2 ^ 31) CBC_LEN)) with 0.
  change (to_int (2 ^ 31 - 0)) with (- 2 ^ 31).
  apply bind_undefined_l.
  assert (HK := derive_key_length control salt).
  assert (HV := derive_iv_length control salt).
  unfold lrz_crypt_body, CBC_LEN.
  apply bind_undefined, wp_cipher_open.
  match goal with |- context [st ?w1] => rewrite (all_ok_st w1 Hok) end.
  cbn [failed Z.eqb negb].
  apply (all_ok_after (cipher_open_call GCRY_CIPHER_MODE_CBC)) in Hok.
  apply bind_undefined, wp_cipher_setkey; [lia | no_failure Hok | intros _; split; [lia|]].
  cbn [failed Z.eqb negb hd_mode hd_iv hd_key].
  apply (all_ok_after (cipher_setkey_call GCRY_CIPHER_MODE_CBC 16)) in Hok.
  apply bind_undefined, wp_cipher_setiv; [lia | no_failure Hok | intros _; split; [lia|]].
  cbn [failed Z.eqb negb hd_mode hd_iv hd_key].
  apply (all_ok_after (cipher_setiv_call GCRY_CIPHER_MODE_CBC 16)) in Hok.
  unfold lrz_crypt_encrypt, gcry_cipher_encrypt.
  apply bind_undefined_l.
  unfold gcry_cipher_crypt.
  rewrite fallible_call, (all_ok_st _ Hok).
  change (to_size_t (- 2 ^ 31)) with (2 ^ 64 - 2 ^ 31).
  cbn [failed Z.eqb negb].
  change (negb ((2 ^ 64 - 2 ^ 31) mod aes_blklen =? 0)) with false. cbv iota.
  unfold bind, access, load, in_bounds. rewrite HL.
  reflexivity.
Qed.

(** ** The properties that the specification states *)

(** C1, what the code does.  [M] and [N] are [int].  On a buffer of
    k * 2^32 bytes (k >= 1) both are 0: the encryption pass is asked for
    no byte, and [lrz_crypt] returns true with the buffer as it was, in
    clear.  The decryption of a whole number of blocks is given [len]
    itself and runs over the whole buffer.  So encryption followed by
    decryption returns the CBC decryption of the buffer, whose first
    block is the AES decryption of the first block of the buffer xored
    with the iv, where the specification has the buffer itself. *)
Theorem lrz_crypt_round_trip_past_int control salt buf k dir w :
  valid_inputs control salt -> all_ok w ->
  1 <= k -> len buf = k * 2 ^ 32 -> len buf < 2 ^ 63 -> dir <> LRZ_ENCRYPT ->
  exists r1 w1 r2 w2,
    lrz_crypt control buf (len buf) salt LRZ_ENCRYPT w = Done r1 w1 /\
    crypt_ret r1 = true /\
    crypt_buf r1 = buf /\
    lrz_crypt control (crypt_buf r1) (len buf) salt dir w1 = Done r2 w2 /\
    crypt_ret r2 = true /\
    crypt_buf r2 =
      fst (cbc_decrypt (cipher_key control salt) (cipher_iv control salt)
             (Z.to_nat (len buf / 16)) buf) /\
    slice (crypt_buf r2) 0 16 =
      xor_bytes (aes_decrypt_block (cipher_key control salt) (slice buf 0 16))
                (cipher_iv control salt).
Proof.
  intros Hvalid Hok Hk Hbuf H63 Hdir.
  assert (Hkey : len (cipher_key control salt) = 16)
    by (apply len_slice; rewrite ?derive_key_length; unfold CBC_LEN; lia).
  assert (Hiv : len (cipher_iv control salt) = 16)
    by (apply len_slice; rewrite ?derive_iv_length; unfold CBC_LEN; lia).
  (* encryption *)
  pose proof (wp_lrz_crypt_encrypt_wraps control salt buf 0 k w Hvalid Hok
                ltac:(lia) ltac:(intros H; exfalso; apply H; reflexivity)
                ltac:(lia) ltac:(lia)) as Henc.
  apply wp_done in Henc. destruct Henc as (r1 & w1 & Erun1 & [Hret1 Hbuf1] & Hok1).
  change (0 mod 16 =? 0) with true in Hbuf1.
  change (Z.to_nat ((0 - 0 mod 16) / 16)) with 0%nat in Hbuf1.
  cbn [cbc_encrypt fst app] in Hbuf1.
  rewrite <- Hbuf, slice_all in Hbuf1 by reflexivity.
  (* decryption *)
  destruct (int_split_wraps 0 k ltac:(lia) ltac:(lia)) as [EM _].
  cbn [Z.add] in EM. change (0 mod 16) with 0 in EM.
  assert (HLm : len buf mod 16 = 0).
  { rewrite Hbuf. replace (k * 2 ^ 32) with (0 + (k * 2 ^ 28) * 16) by lia.
    apply Z_mod_plus_full. }
  assert (Hdec : wp (lrz_crypt control buf (len buf) salt dir)
                    (fun r w' =>
                       crypt_ret r = true /\
                       crypt_buf r =
                         fst (cbc_decrypt (cipher_key control salt) (cipher_iv control salt)
                                (Z.to_nat (len buf / 16)) buf)) w1).
  { eapply wp_mono.
    { apply wp_lrz_crypt; [exact Hvalid | apply all_ok_not_failed; exact Hok1 |].
      rewrite Hbuf at 2 3. rewrite EM.
      apply wp_body_decrypt_whole;
        auto using derive_key_length, derive_iv_length, all_ok_keygen_world; lia. }
    cbn beta. intros r w' [[E _] _]. injection E as E1 E2.
    unfold cipher_key, cipher_iv, CBC_LEN. auto. }
  apply wp_done in Hdec. destruct Hdec as (r2 & w2 & Erun2 & Hret2 & Hbuf2).
  exists r1, w1, r2, w2. rewrite Hbuf1.
  split; [exact Erun1|]. split; [exact Hret1|]. split; [reflexivity|].
  split; [exact Erun2|]. split; [exact Hret2|]. split; [exact Hbuf2|].
  rewrite Hbuf2. apply cbc_decrypt_first; try assumption.
  - assert (1 <= len buf / 16) by (apply Z.div_le_lower_bound; lia). lia.
  - rewrite Z2Nat.id by (apply Z.div_pos; lia).
    apply Z.div_exact in HLm; lia.
Qed.

(** C2, what the code does.  On a buffer of L0 + k * 2^32 bytes, with
    16 <= L0 < 2^31 not a multiple of 16 and k >= 1, M is L0 mod 16 but
    [N], an [int], is L0 - M where the specification has len - M.  The
    transform CBC-encrypts the first L0 - M bytes only, pads the M bytes
    at the offset L0 - M and steals from the block before them, and
    returns true: the first L0 bytes are encrypted as a buffer of their
    own, and the k * 2^32 bytes after them are returned as they were, in
    clear. *)
Theorem lrz_crypt_steals_past_int control salt buf L0 k w :
  valid_inputs control salt -> all_ok w ->
  16 <= L0 < 2 ^ 31 -> L0 mod 16 <> 0 -> 1 <= k ->
  len buf = L0 + k * 2 ^ 32 -> len buf < 2 ^ 63 ->
  exists r w',
    lrz_crypt control buf (len buf) salt LRZ_ENCRYPT w = Done r w' /\
    crypt_ret r = true /\
    crypt_buf r =
      spec_cts_encrypt (cipher_key control salt) (cipher_iv control salt) (slice buf 0 L0)
      ++ slice buf L0 (k * 2 ^ 32) /\
    len (crypt_buf r) = len buf /\
    slice (crypt_buf r) L0 (k * 2 ^ 32) = slice buf L0 (k * 2 ^ 32).
Proof.
  intros Hvalid Hok HL HM Hk Hbuf _.
  assert (Hkey : len (cipher_key control salt) = 16)
    by (apply len_slice; rewrite ?derive_key_length; unfold CBC_LEN; lia).
  assert (Hiv : len (cipher_iv control salt) = 16)
    by (apply len_slice; rewrite ?derive_iv_length; unfold CBC_LEN; lia).
  pose proof (wp_lrz_crypt_encrypt_wraps control salt buf L0 k w Hvalid Hok
                ltac:(lia) ltac:(lia) ltac:(lia) Hbuf) as Henc.
  apply wp_done in Henc. destruct Henc as (r & w' & Erun & [Hret Hres] & _).
  destruct (Z.eqb_spec (L0 mod 16) 0) as [|_]; [contradiction|].
  set (a := slice buf 0 L0) in *. set (rest := slice buf L0 (k * 2 ^ 32)) in *.
  assert (Ha : len a = L0) by (apply len_slice; lia).
  assert (Hrest : len rest = k * 2 ^ 32) by (apply len_slice; lia).
  assert (Hcts : len (spec_cts_encrypt (cipher_key control salt) (cipher_iv control salt) a)
                 = L0)
    by (rewrite cts_encrypt_length; rewrite ?Ha; lia).
  exists r, w'. split; [exact Erun|]. split; [exact Hret|]. split; [exact Hres|].
  rewrite Hres. split.
  - rewrite len_app. lia.
  - apply slice_tail; assumption.
Qed.

(** C3, what the code does.  [lrz_stretch] returns with [control], and
    so the stored global hash, unchanged; it never reads the digest and
    never closes the hash context it opened. *)
Theorem lrz_stretch_drops_digest control w :
  0 <= encloops control -> encloops control * 64 < 2 ^ 63 ->
  0 <= salt_pass_len control <= len (salt_pass control) ->
  salt_pass_len control < 2 ^ 63 ->
  st w = 0 ->
  exists control' ctx w' tr,
    lrz_stretch control w = Done (control', Some ctx) w' /\
    hash control' = hash control /\
    calls w' = calls w ++ tr /\
    ~ In md_read_call tr /\ ~ In md_close_call tr.
Proof.
  intros He He64 Hp Hp63 Hst.
  pose proof (lrz_stretch_run control w He He64 Hp Hp63 Hst) as H. cbn zeta in H.
  do 4 eexists. split; [exact H|]. split; [reflexivity|]. split; [reflexivity|].
  split; intros [E | E]; try discriminate E;
    apply stretch_round_calls_write in E; destruct E as [d E]; discriminate E.
Qed.

(** C4.  Key derivation makes two hash passes in sequence: [key] is the
    64-byte hash of global_hash ++ salt ++ passphrase, and [iv] is the
    64-byte hash of key ++ salt ++ passphrase (the hash context opens:
    the next library status is 0). *)
Theorem lrz_keygen_two_passes control salt key iv w :
  valid_inputs control salt -> len key = HASH_LEN -> len iv = HASH_LEN -> st w = 0 ->
  let key' := sha512 (global_hash control ++ block_salt salt ++ passphrase control) in
  let iv' := sha512 (key' ++ block_salt salt ++ passphrase control) in
  lrz_keygen control salt key iv w = Done (key', iv') (keygen_world control salt w) /\
  len key' = 64 /\ len iv' = 64.
Proof.
  intros (Hh & Hs & Hp & Hpl & Hpm) Hk Hv Hst key' iv'.
  split; [|split; apply sha512_length].
  assert (H : wp (lrz_keygen control salt key iv)
                (fun r w' => r = (spec_derive_key control salt, spec_derive_iv control salt)
                             /\ w' = keygen_world control salt w) w).
  { apply wp_lrz_keygen; try assumption. rewrite Hst. reflexivity. }
  apply wp_done in H. destruct H as (r & w' & E & -> & ->). exact E.
Qed.

(** C5.  The stretcher performs exactly
    n = encloops * 64 / (salt_pass_len + 8) rounds; round j writes the
    little-endian 64-bit counter j and then the passphrase bytes into the
    one hash context it opened, which is never reset: the context holds
    the inputs of rounds 0 .. n-1 one after the other. *)
Theorem lrz_stretch_rounds control w :
  0 <= encloops control -> encloops control * 64 < 2 ^ 63 ->
  0 <= salt_pass_len control <= len (salt_pass control) ->
  salt_pass_len control < 2 ^ 63 ->
  st w = 0 ->
  let n := Z.to_nat (encloops control * 64 / (salt_pass_len control + 8)) in
  let rounds := counters 0 n in
  lrz_stretch control w =
  Done (control, Some (flat_map (spec_round_input control) rounds))
       (mkWorld (tl (status w))
          (calls w ++ md_open_call :: flat_map (spec_round_calls control) rounds)) /\
  length rounds = n /\
  stretch_rounds control = encloops control * 64 / (salt_pass_len control + 8).
Proof.
  intros He He64 Hp Hp63 Hst n rounds.
  split; [apply lrz_stretch_run; assumption|].
  split; [apply counters_length|].
  apply stretch_rounds_count; lia.
Qed.

(** C6, as amended.  Every cipher call that the block transform makes,
    through the CBC handle and through the ECB handle of the stealing
    path, uses a key of 16 bytes, an iv of 16 bytes and data in whole
    16-byte blocks: in every run that returns, whatever the inputs, the
    length and the answers of the library, the calls logged after those
    of the key derivation are a key setup of 16 bytes, an iv setup of 16
    bytes, and transforms through a handle that holds a 16-byte key, each
    asked for a multiple of 16 bytes. *)
Theorem lrz_crypt_cipher_calls control buf L salt dir w r w' :
  lrz_crypt control buf L salt dir w = Done r w' ->
  extends cipher_call_ok w w'.
Proof.
  intros E.
  assert (H : wlp (lrz_crypt control buf L salt dir)
                (fun _ w1 => extends cipher_call_ok w w1) w).
  { unfold lrz_crypt, lrz_crypt_frame, lrz_crypt_to_error, lrz_crypt_at_error.
    destruct (int_blocks L) as (HN & HN' & HL).
    apply wlp_bind, wlp_bind.
    (* the key derivation *)
    eapply wlp_mono; [apply wlp_lrz_keygen_calls, extends_refl|].
    cbn beta. intros [key iv] w1 Hext.
    (* the cipher calls *)
    apply wlp_bind.
    eapply wlp_mono; [apply wlp_body_calls; eassumption|].
    cbn beta. intros [r0 b] w2 Hext2.
    apply wlp_ret.
    (* from the label on: no call *)
    apply wlp_bind, wlp_memset0_any. intros iv'.
    apply wlp_bind, wlp_memset0_any. intros key'.
    apply wlp_ret. exact Hext2. }
  exact (wlp_done _ _ _ _ _ H E).
Qed.

(** C7.  Every return of the block transform, with success or with any
    failure (handle open, key or iv setup, transform), comes through the
    label [error]: there the arrays [key] and [iv] are locked and, on
    valid inputs, hold the derived key and the derived iv, whatever they
    held on entry; the return leaves both zeroed and unlocked, with the
    result and the buffer of the label.  On valid inputs the transform
    does return, whatever the cipher calls answer.  What the arrays hold
    on entry changes nothing of this: the run is that of [lrz_crypt]. *)
Theorem lrz_crypt_erases_secrets key0 iv0 control buf L salt dir w :
  len key0 = HASH_LEN -> len iv0 = HASH_LEN ->
  lrz_crypt_frame key0 iv0 control buf L salt dir w = lrz_crypt control buf L salt dir w /\
  (forall r w',
     lrz_crypt_frame key0 iv0 control buf L salt dir w = Done r w' ->
     exists s,
       lrz_crypt_to_error key0 iv0 control buf L salt dir w = Done s w' /\
       key_locked s = true /\ iv_locked s = true /\
       (valid_inputs control salt -> secrets_held control salt s) /\
       lrz_crypt_at_error s w' = Done r w' /\
       crypt_ret r = crypt_ret s /\ crypt_buf r = crypt_buf s /\
       secrets_erased r) /\
  (valid_inputs control salt -> st w = 0 -> len buf = L -> 16 <= L < 2 ^ 31 ->
   exists r w', lrz_crypt_frame key0 iv0 control buf L salt dir w = Done r w').
Proof.
  intros Hk0 Hv0. split; [apply lrz_crypt_frame_any; assumption|]. split.
  - intros r w' E. unfold lrz_crypt_frame, bind in E.
    destruct (lrz_crypt_to_error key0 iv0 control buf L salt dir w) as [s w1|] eqn:Es;
      [|discriminate E].
    pose proof (wlp_done _ _ _ _ _
                  (wlp_lrz_crypt_to_error key0 iv0 control buf L salt dir w) Es)
      as (Hlk & Hlv & Hkl & Hvl).
    pose proof (lrz_crypt_at_error_run s w1 ltac:(lia) ltac:(lia)) as Hrun.
    rewrite Hrun in E. injection E as <- <-.
    exists s. split; [reflexivity|]. split; [exact Hkl|]. split; [exact Hvl|].
    split; [|split; [exact Hrun | cbn; unfold secrets_erased; cbn; repeat split]].
    intros Hvalid.
    unfold lrz_crypt_to_error, bind in Es.
    destruct (failed (st w)) eqn:Hst.
    + rewrite (lrz_keygen_needs_open control salt key0 iv0 w Hvalid Hst) in Es.
      discriminate Es.
    + destruct Hvalid as (Hh & Hs & Hp & Hpl & Hpm).
      pose proof (wp_lrz_keygen control salt key0 iv0 w Hh Hs Hp Hpl Hpm Hk0 Hv0 Hst)
        as Hgen.
      apply wp_done in Hgen. destruct Hgen as (x & w2 & Egen & -> & ->).
      rewrite Egen in Es.
      destruct (lrz_crypt_body _ _ buf L _ _ dir _) as [[r0 b0] w3|]; [|discriminate Es].
      injection Es as <- _. split; reflexivity.
  - intros Hvalid Hst <- HL.
    pose proof (wp_lrz_crypt_frame_any key0 iv0 control buf salt dir w
                  Hk0 Hv0 Hvalid Hst HL) as H.
    apply wp_done in H. destruct H as (r & w' & E & _). eauto.
Qed.

(** C8, as amended.  Key derivation checks no status of the hash
    primitive and has no failure result.  When [gcry_md_open] succeeds,
    [lrz_keygen] returns key and iv.  When it fails, its status is
    dropped and the handle it leaves is written through: the behaviour is
    undefined, in [lrz_keygen] and so in [lrz_crypt], and no failure is
    returned to the caller. *)
Theorem lrz_keygen_reports_no_failure control salt buf L dir key iv w :
  valid_inputs control salt -> len key = HASH_LEN -> len iv = HASH_LEN ->
  (failed (st w) = false ->
   lrz_keygen control salt key iv w =
   Done (spec_derive_key control salt, spec_derive_iv control salt) (keygen_world control salt w)) /\
  (failed (st w) = true ->
   lrz_keygen control salt key iv w = Undefined /\
   lrz_crypt control buf L salt dir w = Undefined).
Proof.
  intros Hvalid Hk Hv. split.
  - intros Hst.
    destruct Hvalid as (Hh & Hs & Hp & Hpl & Hpm).
    assert (H : wp (lrz_keygen control salt key iv)
                  (fun r w' => r = (spec_derive_key control salt, spec_derive_iv control salt)
                               /\ w' = keygen_world control salt w) w)
      by (apply wp_lrz_keygen; assumption).
    apply wp_done in H. destruct H as (r & w' & E & -> & ->). exact E.
  - intros Hst.
    assert (Hgen : forall k v, len k = HASH_LEN -> len v = HASH_LEN ->
                               lrz_keygen control salt k v w = Undefined).
    { intros k v Hk' Hv'.
      destruct Hvalid as (Hh & Hs & Hp & Hpl & Hpm).
      unfold HASH_LEN, SALT_LEN in *.
      assert (H : wp (buf <- memcpy (zeros (64 + 16 + PASS_LEN)) 0 (hash control) 0 64 ;;
                      buf <- memcpy buf 64 salt 0 16 ;;
                      memcpy buf (64 + 16) (salt_pass control) 0 (salt_pass_len control))
                    (fun _ w' => w' = w) w).
      { apply wp_bind, wp_memcpy; [lia | lia | lia | lia | lens |].
        apply wp_bind, wp_memcpy; [lia | lia | lia | lia | lens |].
        apply wp_memcpy; [lia | lia | lia | lia | lens |]. reflexivity. }
      apply wp_done in H. destruct H as (b3 & w' & E & ->).
      unfold bind in E.
      unfold lrz_keygen, HASH_LEN, SALT_LEN, bind.
      destruct (memcpy (zeros (64 + 16 + PASS_LEN)) 0 (hash control) 0 64 w)
        as [b1 w1|]; [|reflexivity].
      destruct (memcpy b1 64 salt 0 16 w1) as [b2 w2|]; [|reflexivity].
      rewrite E.
      unfold gcry_md_open. rewrite (fallible_call md_open_call). rewrite Hst.
      reflexivity. }
    split; [apply Hgen; assumption|].
    unfold lrz_crypt, lrz_crypt_frame, lrz_crypt_to_error, bind.
    rewrite Hgen by (unfold HASH_LEN; apply len_zeros; lia). reflexivity.
Qed.

(** C9.  The header codec packs the four fields into the 25 bytes after
    the salt in the layout type (1) | c_len (8) | u_len (8) |
    last_head (8), calls the block cipher on those 25 bytes with [head],
    which begins with the salt of the block, as the salt, and returns
    what the cipher returned: on success the fields are those unpacked
    from the transformed bytes, on failure the result is false. *)
Theorem decrypt_header_codec control head f dir w :
  len head = SALT_LEN + 25 -> valid_inputs control head -> st w = 0 ->
  let salt := block_salt head in
  len (spec_pack_header f) = 25 /\
  block_salt (salt ++ spec_pack_header f) = salt /\
  exists r w',
    lrz_crypt control (spec_pack_header f) 25 (salt ++ spec_pack_header f) dir w = Done r w' /\
    len (crypt_buf r) = 25 /\
    decrypt_header control head f dir w =
    Done (crypt_ret r, salt ++ crypt_buf r,
          if crypt_ret r then spec_unpack_header (crypt_buf r) else f) w'.
Proof.
  intros Hhead Hvalid Hst salt.
  pose proof (pack_header_length f) as Hpack.
  assert (Hsalt : len salt = 16) by (apply len_slice; unfold SALT_LEN in *; lia).
  assert (Esalt : block_salt (salt ++ spec_pack_header f) = salt).
  { unfold block_salt, SALT_LEN. apply slice_head. exact Hsalt. }
  split; [exact Hpack|]. split; [exact Esalt|].
  assert (Hvalid' : valid_inputs control (salt ++ spec_pack_header f)).
  { destruct Hvalid as (Hh & Hs & Hrest). split; [exact Hh|]. split; [|exact Hrest].
    rewrite len_app. unfold SALT_LEN in *. lia. }
  pose proof (wp_lrz_crypt_any control (spec_pack_header f) (salt ++ spec_pack_header f) dir w
                Hvalid' Hst ltac:(rewrite Hpack; lia)) as Hrun.
  rewrite Hpack in Hrun.
  apply wp_done in Hrun. destruct Hrun as (r & w' & Erun & (Hlen & _) & _).
  exists r, w'. split; [exact Erun|]. split; [exact Hlen|].
  assert (H : wp (decrypt_header control head f dir)
                (fun x w'' => x = (crypt_ret r, salt ++ crypt_buf r,
                                   if crypt_ret r then spec_unpack_header (crypt_buf r) else f)
                              /\ w'' = w') w).
  { unfold decrypt_header, SALT_LEN in *.
    rewrite firstn_slice. fold (block_salt head). unfold SALT_LEN. fold salt.
    rewrite skipn_slice by lia. rewrite Hhead.
    replace (16 + 25 - 16) with 25 by lia.
    set (region := slice head 16 25).
    assert (Hregion : len region = 25) by (apply len_slice; lia).
    unfold uchar_bytes, i64_bytes.
    assert (H1 : len [c_type f] = 1) by reflexivity.
    pose proof (len_le_split 8 (c_len f)) as H2.
    pose proof (len_le_split 8 (u_len f)) as H3.
    pose proof (len_le_split 8 (last_head f)) as H4.
    apply wp_bind, wp_memcpy; [lia | lia | lia | lia | lia |].
    apply wp_bind, wp_memcpy; [lia | lia | lia | lia | lens |].
    apply wp_bind, wp_memcpy; [lia | lia | lia | lia | lens |].
    apply wp_bind, wp_memcpy; [lia | lia | lia | lia | lens |].
    rewrite (slice_all [c_type f]) by reflexivity.
    rewrite !(slice_all (le_split 8 _)) by apply len_le_split.
    rewrite (split4 region Hregion).
    rewrite pack4 by (rewrite ?len_slice; lia).
    fold (spec_pack_header f).
    apply wp_bind. unfold lrz_decrypt.
    eapply wp_of_done; [exact Erun|].
    destruct (crypt_ret r); cbn [negb].
    - apply wp_bind, wp_memcpy; [lia | lia | lia | lia | lia |].
      apply wp_bind, wp_memcpy; [lia | lia | lia | lia | lia |].
      apply wp_bind, wp_memcpy; [lia | lia | lia | lia | lia |].
      apply wp_bind, wp_memcpy; [lia | lia | lia | lia | lia |].
      apply wp_ret. split; [|reflexivity].
      rewrite !splice_all by (rewrite len_slice by lia; lia).
      unfold spec_unpack_header, uchar_of_bytes, i64_of_bytes.
      rewrite hd_slice by lia. reflexivity.
    - apply wp_ret. auto. }
  apply wp_done in H. destruct H as (x & w'' & E & -> & ->). exact E.
Qed.

(** C10.  When the header codec returns false, the four fields are as
    they were on entry: nothing is copied back into them before the
    failure return. *)
Theorem decrypt_header_failure_keeps_fields control head f dir w head' f' w' :
  decrypt_header control head f dir w = Done (false, head', f') w' -> f' = f.
Proof.
  intros E.
  assert (H : wlp (decrypt_header control head f dir)
                 (fun x _ => fst (fst x) = false -> snd x = f) w).
  { unfold decrypt_header.
    do 4 (apply wlp_bind, wlp_any; intros ? ?).
    apply wlp_bind, wlp_any. intros r w1.
    destruct (crypt_ret r); cbn [negb].
    - do 4 (apply wlp_bind, wlp_any; intros ? ?).
      apply wlp_ret. cbn. discriminate.
    - apply wlp_ret. reflexivity. }
  exact (wlp_done _ _ _ _ _ H E eq_refl).
Qed.

(** ** Further properties of the encryption layer *)

(** *** The status tape along a run *)

Lemma hd_skipn {A} (d : A) : forall n s, hd d (skipn n s) = nth n s d.
Proof. induction n; destruct s; cbn; auto. Qed.

Lemma tl_skipn {A} : forall n (s : list A), tl (skipn n s) = skipn (S n) s.
Proof. induction n; destruct s; cbn; auto. Qed.

Lemma no_failure_firstn_S : forall n s,
  no_failure_in (firstn n s) -> nth n s 0 = 0 -> no_failure_in (firstn (S n) s).
Proof.
  unfold no_failure_in.
  induction n; destruct s; cbn; intros H E; auto.
  - inversion H; subst. constructor; [reflexivity|]. apply IHn; assumption.
Qed.


Lemma failed_false e : failed e = false -> e = 0.
Proof. unfold failed. destruct (Z.eqb_spec e 0); [auto | discriminate]. Qed.

Lemma failed_true e : failed e = true -> e <> 0.
Proof. unfold failed. destruct (Z.eqb_spec e 0); [discriminate | auto]. Qed.

Lemma run_start w : run_so_far (status w) (calls w) [] w.
Proof.
  unfold run_so_far, no_failure_in. cbn. rewrite app_nil_r. auto.
Qed.

Lemma run_step s0 c0 pre c w :
  run_so_far s0 c0 pre w -> failed (st w) = false ->
  run_so_far s0 c0 (pre ++ [c]) (after c w).
Proof.
  intros (Hs & Hz & Hc) Hf. apply failed_false in Hf.
  unfold st in Hf. rewrite Hs, hd_skipn in Hf.
  unfold run_so_far, after. cbn [status calls].
  rewrite length_app, Nat.add_1_r. cbn [length].
  rewrite Hs, tl_skipn, Hc, app_assoc.
  auto using no_failure_firstn_S.
Qed.

Lemma run_fail s0 c0 pre c rest tr w :
  run_so_far s0 c0 pre w -> failed (st w) = true -> tr = pre ++ c :: rest ->
  stopped_at_failure s0 c0 tr (after c w) pre.
Proof.
  intros (Hs & Hz & Hc) Hf E. apply failed_true in Hf.
  unfold st in Hf. rewrite Hs, hd_skipn in Hf.
  exists c, rest. unfold after. cbn [status calls].
  rewrite Hs, tl_skipn, Hc, app_assoc. auto.
Qed.

Lemma run_end s0 c0 tr closes w w' :
  run_so_far s0 c0 tr w ->
  status w' = status w -> calls w' = calls w ++ closes ->
  ran_to_end s0 c0 tr closes w'.
Proof.
  intros (Hs & Hz & Hc) Es Ec. unfold ran_to_end.
  rewrite Es, Ec, Hs, Hc, app_assoc. auto.
Qed.

Lemma slice_after a b off o n :
  len a = off -> 0 <= o -> slice (a ++ b) (off + o) n = slice b o n.
Proof.
  intros Ha Ho. unfold slice. f_equal.
  rewrite skipn_app.
  rewrite skipn_all2 by (unfold len in Ha; lia).
  cbn [app]. f_equal. unfold len in Ha. lia.
Qed.

Lemma same_tail_refl L b : same_tail L b b.
Proof. split; reflexivity. Qed.

(** A write that ends at or before [L] leaves the tail as it is. *)
Lemma same_tail_splice L b b' off src :
  same_tail L b b' -> 0 <= off -> off + len src <= L -> L <= len b ->
  same_tail L b (splice b' off src).
Proof.
  intros [Hl Ht] Ho Hs HL.
  pose proof (len_nonneg src) as Hn.
  assert (Hl' : len (splice b' off src) = len b) by (rewrite len_splice; lia).
  split; [exact Hl'|]. rewrite <- Ht.
  assert (E : b' = slice b' 0 off ++ slice b' off (len src)
                   ++ slice b' (off + len src) (len b' - off - len src))
    by (apply slice_split3; lia).
  set (p := slice b' 0 off) in *.
  set (m := slice b' off (len src)) in *.
  set (t := slice b' (off + len src) (len b' - off - len src)) in *.
  assert (Hp : len p = off) by (apply len_slice; lia).
  assert (Hm : len m = len src) by (apply len_slice; lia).
  assert (Es : splice b' off src = p ++ src ++ t).
  { rewrite E at 1. apply splice_app3; assumption. }
  rewrite Es. rewrite E at 1.
  rewrite (app_assoc p src t), (app_assoc p m t).
  replace L with ((off + len src) + (L - (off + len src))) at 1 3 by lia.
  rewrite !(slice_after _ t (off + len src)) by (rewrite ?len_app; lia).
  reflexivity.
Qed.

(** *** The run of the cipher calls *)

(** A call read a failure: the transform goes to [error], and the run
    stopped at that call. *)
Ltac stops_here Hrun Hk :=
  let Hf := fresh in
  intros Hf; cbv beta iota; rewrite Hf;
  unfold crypt_call; cbn [hd_key hd_mode]; rewrite ?Hk;
  apply wp_ret; unfold body_outcome; cbn [fst snd];
  split;
  [ first [apply same_tail_refl | eassumption]
  | eexists; split;
    [ eapply run_fail; [exact Hrun | exact Hf | reflexivity]
    | cbn [length]; intros; first [reflexivity | lia] ] ].

(** A call read success: the run has one more call behind it. *)
Ltac goes_on Hrun Hk c :=
  let Hf := fresh in
  intros Hf;
  unfold crypt_call; cbn [hd_key hd_mode]; rewrite ?Hk;
  apply (run_step _ _ _ c _ Hrun) in Hf; cbn [app] in Hf;
  clear Hrun; rename Hf into Hrun.

Lemma wp_encrypt_run K buf L M_ N s0 c0 w cbc_iv :
  len K = 64 -> L <= len buf ->
  0 <= L < 2 ^ 31 -> M_ = L mod 16 -> N = L - M_ -> (M_ <> 0 -> 16 <= N) ->
  len cbc_iv = 16 ->
  run_so_far s0 c0
    [ cipher_open_call GCRY_CIPHER_MODE_CBC;
      cipher_setkey_call GCRY_CIPHER_MODE_CBC 16;
      cipher_setiv_call GCRY_CIPHER_MODE_CBC 16 ] w ->
  wp (lrz_crypt_encrypt (mkCipher GCRY_CIPHER_MODE_CBC (slice K 0 16) cbc_iv)
        buf (zeros CBC_LEN) (zeros CBC_LEN) M_ N)
     (body_outcome L buf s0 c0 (cipher_trace LRZ_ENCRYPT L) (cipher_closes LRZ_ENCRYPT L)) w.
Proof.
  intros HK HLb HL HM HN HN16 Hiv Hrun.
  assert (HMr : 0 <= M_ < 16) by (subst M_; apply Z.mod_pos_bound; lia).
  assert (HNm : N mod 16 = 0).
  { subst N M_. rewrite Zminus_mod, Z.mod_mod, Z.sub_diag by lia. reflexivity. }
  set (k := slice K 0 16).
  assert (Hk : len k = 16) by (apply len_slice; lia).
  unfold cipher_trace, cipher_closes. rewrite <- HM, <- HN. cbn [app].
  unfold lrz_crypt_encrypt, gcry_cipher_encrypt, CBC_LEN.
  destruct (cipher_run_shape true GCRY_CIPHER_MODE_CBC k cbc_iv (slice buf 0 N))
    as (c & iv1 & Erun & Hc & Hiv1); [lia | lia | rewrite len_slice; lia |].
  rewrite len_slice in Hc by lia.
  destruct (Z.eqb_spec M_ 0) as [HM0 | HM0]; cbn [negb].
  - apply wp_bind, wp_cipher_crypt_inplace; [lia | stops_here Hrun Hk |].
    goes_on Hrun Hk (cipher_encrypt_call GCRY_CIPHER_MODE_CBC 16 N).
    rewrite Erun. cbn [fst snd].
    split; [exact HNm|]. split; [lia|]. split; [lia|]. split; [lia|].
    cbn [failed Z.eqb negb].
    unfold lrz_crypt_finish.
    apply wp_bind, wp_cipher_close, wp_ret.
    unfold body_outcome. cbn [fst snd].
    split; [apply same_tail_splice; [apply same_tail_refl | lia ..]|].
    eapply run_end; [exact Hrun | reflexivity | reflexivity].
  - specialize (HN16 HM0).
    apply wp_bind, wp_cipher_crypt_inplace; [lia | stops_here Hrun Hk |].
    goes_on Hrun Hk (cipher_encrypt_call GCRY_CIPHER_MODE_CBC 16 N).
    rewrite Erun. cbn [fst snd].
    split; [exact HNm|]. split; [lia|]. split; [lia|]. split; [lia|].
    cbn [failed Z.eqb negb].
    set (buf1 := splice buf 0 c).
    assert (Hbuf1 : same_tail L buf buf1)
      by (unfold buf1; apply same_tail_splice; [apply same_tail_refl | lia ..]).
    assert (Hlen1 : len buf1 = len buf) by apply Hbuf1.
    clearbody buf1.
    apply wp_bind, wp_memset0; [lia | lia | rewrite len_zeros; lia |].
    rewrite splice_all by (rewrite !len_zeros; lia).
    apply wp_bind, wp_memcpy; [lia | lia | lia | lia | rewrite len_zeros; lia |].
    set (tmp0 := splice (zeros 16) 0 (slice buf1 N M_)).
    assert (Htmp0 : len tmp0 = 16)
      by (unfold tmp0; rewrite len_splice; rewrite ?len_slice, ?len_zeros; lia).
    clearbody tmp0.
    destruct (cipher_run_shape true GCRY_CIPHER_MODE_CBC k iv1 (slice tmp0 0 16))
      as (t & iv2 & Erun2 & Ht & Hiv2);
      [lia | lia | rewrite len_slice by lia; reflexivity |].
    rewrite len_slice in Ht by lia.
    apply wp_bind, wp_cipher_crypt_to; [lia | stops_here Hrun Hk |].
    goes_on Hrun Hk (cipher_encrypt_call GCRY_CIPHER_MODE_CBC 16 16).
    rewrite Erun2. cbn [fst snd].
    split; [reflexivity|]. split; [lia|]. split; [lia|]. split; [lia|].
    split; [rewrite len_zeros; lia|]. split; [lia|].
    cbn [failed Z.eqb negb].
    set (tmp1 := splice (zeros 16) 0 t).
    assert (Htmp1 : len tmp1 = 16)
      by (unfold tmp1; rewrite len_splice; rewrite ?len_zeros; lia).
    clearbody tmp1.
    apply wp_bind, wp_memcpy; [lia | lia | lia | lia | lia |].
    set (buf2 := splice buf1 N _).
    assert (Hbuf2 : same_tail L buf buf2)
      by (unfold buf2; apply same_tail_splice;
          [exact Hbuf1 | rewrite ?len_slice by lia; lia ..]).
    assert (Hlen2 : len buf2 = len buf) by apply Hbuf2.
    clearbody buf2.
    apply wp_bind, wp_memcpy; [lia | lia | lia | lia | lia |].
    unfold lrz_crypt_finish.
    apply wp_bind, wp_cipher_close, wp_ret.
    unfold body_outcome. cbn [fst snd].
    split; [apply same_tail_splice; [exact Hbuf2 | rewrite ?len_slice by lia; lia ..]|].
    eapply run_end; [exact Hrun | reflexivity | reflexivity].
Qed.

Lemma wp_decrypt_run K buf L M_ N s0 c0 w cbc_iv dir :
  len K = 64 -> L <= len buf ->
  0 <= L < 2 ^ 31 -> M_ = L mod 16 -> N = L - M_ -> (M_ <> 0 -> 16 <= N) ->
  len cbc_iv = 16 -> dir <> LRZ_ENCRYPT ->
  run_so_far s0 c0
    [ cipher_open_call GCRY_CIPHER_MODE_CBC;
      cipher_setkey_call GCRY_CIPHER_MODE_CBC 16;
      cipher_setiv_call GCRY_CIPHER_MODE_CBC 16 ] w ->
  wp (lrz_crypt_decrypt K (mkCipher GCRY_CIPHER_MODE_CBC (slice K 0 16) cbc_iv)
        buf (zeros CBC_LEN) (zeros CBC_LEN) L M_ N)
     (body_outcome L buf s0 c0 (cipher_trace dir L) (cipher_closes dir L)) w.
Proof.
  intros HK HLb HL HM HN HN16 Hiv Hdir Hrun.
  assert (HMr : 0 <= M_ < 16) by (subst M_; apply Z.mod_pos_bound; lia).
  assert (HNm : N mod 16 = 0).
  { subst N M_. rewrite Zminus_mod, Z.mod_mod, Z.sub_diag by lia. reflexivity. }
  set (k := slice K 0 16).
  assert (Hk : len k = 16) by (apply len_slice; lia).
  assert (Etr : cipher_trace dir L = cipher_trace LRZ_DECRYPT L)
    by (destruct dir; [reflexivity | contradiction | reflexivity]).
  assert (Ecl : cipher_closes dir L = cipher_closes LRZ_DECRYPT L)
    by (destruct dir; [reflexivity | contradiction | reflexivity]).
  rewrite Etr, Ecl. clear Etr Ecl.
  unfold cipher_trace, cipher_closes. rewrite <- HM, <- HN. cbn [app].
  unfold lrz_crypt_decrypt, gcry_cipher_decrypt, CBC_LEN.
  destruct (Z.eqb_spec M_ 0) as [HM0 | HM0]; cbn [negb].
  - assert (HLm : L mod 16 = 0) by lia.
    destruct (cipher_run_shape false GCRY_CIPHER_MODE_CBC k cbc_iv (slice buf 0 L))
      as (c & iv1 & Erun & Hc & Hiv1); [lia | lia | rewrite len_slice; lia |].
    rewrite len_slice in Hc by lia.
    apply wp_bind, wp_cipher_crypt_inplace; [lia | stops_here Hrun Hk |].
    goes_on Hrun Hk (cipher_decrypt_call GCRY_CIPHER_MODE_CBC 16 L).
    rewrite Erun. cbn [fst snd].
    split; [exact HLm|]. split; [lia|]. split; [lia|]. split; [lia|].
    cbn [failed Z.eqb negb].
    unfold lrz_crypt_finish.
    apply wp_bind, wp_cipher_close, wp_ret.
    unfold body_outcome. cbn [fst snd].
    split; [apply same_tail_splice; [apply same_tail_refl | lia ..]|].
    eapply run_end; [exact Hrun | reflexivity | reflexivity].
  - specialize (HN16 HM0).
    assert (HN'm : (N - 16) mod 16 = 0).
    { rewrite Zminus_mod, HNm. reflexivity. }
    (* the ECB handle *)
    apply wp_bind, wp_cipher_open.
    destruct (failed (st w)) eqn:Hf1.
    { apply wp_ret. unfold body_outcome. cbn [fst snd].
      split; [apply same_tail_refl|]. eexists. split.
      - eapply run_fail; [exact Hrun | exact Hf1 | reflexivity].
      - cbn [length]. intros; lia. }
    apply (run_step _ _ _ (cipher_open_call GCRY_CIPHER_MODE_ECB) _ Hrun) in Hf1.
    cbn [app] in Hf1. clear Hrun. rename Hf1 into Hrun.
    apply wp_bind, wp_cipher_setkey; [lia | stops_here Hrun Hk |].
    goes_on Hrun Hk (cipher_setkey_call GCRY_CIPHER_MODE_ECB 16).
    split; [lia|].
    cbn [failed Z.eqb negb hd_mode hd_iv hd_key]. fold k.
    (* CBC over the first N - 16 bytes *)
    rewrite to_int_small by lia.
    destruct (cipher_run_shape false GCRY_CIPHER_MODE_CBC k cbc_iv (slice buf 0 (N - 16)))
      as (c & iv1 & Erun & Hc & Hiv1); [lia | lia | rewrite len_slice; lia |].
    rewrite len_slice in Hc by lia.
    apply wp_bind, wp_cipher_crypt_inplace; [lia | stops_here Hrun Hk |].
    goes_on Hrun Hk (cipher_decrypt_call GCRY_CIPHER_MODE_CBC 16 (N - 16)).
    rewrite Erun. cbn [fst snd].
    split; [exact HN'm|]. split; [lia|]. split; [lia|]. split; [lia|].
    cbn [failed Z.eqb negb].
    set (buf1 := splice buf 0 c).
    assert (Hbuf1 : same_tail L buf buf1)
      by (unfold buf1; apply same_tail_splice; [apply same_tail_refl | lia ..]).
    assert (Hlen1 : len buf1 = len buf) by apply Hbuf1.
    clearbody buf1.
    (* ECB on the block at N - 16 *)
    destruct (cipher_run_shape false GCRY_CIPHER_MODE_ECB k (zeros aes_blklen)
                (slice buf1 (N - 16) 16))
      as (x & iv2 & Erun2 & Hx & Hiv2);
      [lia | unfold aes_blklen; rewrite len_zeros; lia
       | rewrite len_slice by lia; reflexivity |].
    rewrite len_slice in Hx by lia.
    apply wp_bind, wp_cipher_crypt_to; [lia | stops_here Hrun Hk |].
    goes_on Hrun Hk (cipher_decrypt_call GCRY_CIPHER_MODE_ECB 16 16).
    rewrite Erun2. cbn [fst snd].
    split; [reflexivity|]. split; [lia|]. split; [lia|]. split; [lia|].
    split; [rewrite len_zeros; lia|]. split; [lia|].
    cbn [failed Z.eqb negb].
    set (tmp0 := splice (zeros 16) 0 x).
    assert (Htmp0 : len tmp0 = 16)
      by (unfold tmp0; rewrite len_splice; rewrite ?len_zeros; lia).
    clearbody tmp0.
    (* the stolen bytes *)
    apply wp_bind, wp_memset0; [lia | lia | rewrite len_zeros; lia |].
    rewrite splice_all by (rewrite !len_zeros; lia).
    apply wp_bind, wp_memcpy; [lia | lia | lia | lia | rewrite len_zeros; lia |].
    set (tmp1 := splice (zeros 16) 0 (slice buf1 N M_)).
    assert (Htmp1 : len tmp1 = 16)
      by (unfold tmp1; rewrite len_splice; rewrite ?len_slice, ?len_zeros; lia).
    clearbody tmp1.
    apply wp_bind, wp_xor128; [lia | lia |].
    set (tmp0' := xor_bytes tmp0 tmp1).
    assert (Htmp0' : len tmp0' = 16) by (unfold tmp0'; rewrite len_xor_bytes; lia).
    clearbody tmp0'.
    apply wp_bind, wp_memcpy; [lia | lia | lia | lia | lia |].
    set (buf2 := splice buf1 N _).
    assert (Hbuf2 : same_tail L buf buf2)
      by (unfold buf2; apply same_tail_splice;
          [exact Hbuf1 | rewrite ?len_slice by lia; lia ..]).
    assert (Hlen2 : len buf2 = len buf) by apply Hbuf2.
    clearbody buf2.
    apply wp_bind, wp_memcpy; [lia | lia | lia | lia | lia |].
    set (tmp1' := splice tmp1 M_ _).
    assert (Htmp1' : len tmp1' = 16)
      by (unfold tmp1'; rewrite len_splice; rewrite ?len_slice; lia).
    clearbody tmp1'.
    (* CBC on the rebuilt last block *)
    destruct (cipher_run_shape false GCRY_CIPHER_MODE_CBC k iv1 (slice tmp1' 0 16))
      as (y & iv3 & Erun3 & Hy & Hiv3);
      [lia | lia | rewrite len_slice by lia; reflexivity |].
    rewrite len_slice in Hy by lia.
    apply wp_bind, wp_cipher_crypt_to; [lia | stops_here Hrun Hk |].
    goes_on Hrun Hk (cipher_decrypt_call GCRY_CIPHER_MODE_CBC 16 16).
    rewrite Erun3. cbn [fst snd].
    split; [reflexivity|]. split; [lia|]. split; [lia|]. split; [lia|].
    split; [lia|]. split; [lia|].
    cbn [failed Z.eqb negb].
    apply wp_bind, wp_cipher_close.
    unfold lrz_crypt_finish.
    apply wp_bind, wp_cipher_close, wp_ret.
    unfold body_outcome. cbn [fst snd].
    split; [apply same_tail_splice; [exact Hbuf2 | rewrite ?len_slice by lia; lia ..]|].
    eapply run_end; [exact Hrun | reflexivity |].
    unfold logged. cbn [calls hd_mode]. rewrite <- app_assoc. reflexivity.
Qed.

(** From the opening of the CBC handle to the label [error]. *)
Lemma wp_body_run K V buf L M_ N dir w :
  len K = 64 -> len V = 64 -> L <= len buf ->
  0 <= L < 2 ^ 31 -> M_ = L mod 16 -> N = L - M_ -> (M_ <> 0 -> 16 <= N) ->
  wp (lrz_crypt_body K V buf L M_ N dir)
     (body_outcome L buf (status w) (calls w) (cipher_trace dir L) (cipher_closes dir L)) w.
Proof.
  intros HK HV HLb HL HM HN HN16.
  pose proof (run_start w) as Hrun.
  set (s0 := status w) in *. set (c0 := calls w) in *. clearbody s0 c0.
  assert (Htr : exists rest,
             cipher_trace dir L =
             [ cipher_open_call GCRY_CIPHER_MODE_CBC;
               cipher_setkey_call GCRY_CIPHER_MODE_CBC 16;
               cipher_setiv_call GCRY_CIPHER_MODE_CBC 16 ] ++ rest)
    by (unfold cipher_trace; eauto).
  destruct Htr as [rest Htr].
  assert (Hstop : forall pre c rest' w',
             cipher_trace dir L = pre ++ c :: rest' -> (length pre < 3)%nat ->
             run_so_far s0 c0 pre w' -> failed (st w') = true ->
             body_outcome L buf s0 c0 (cipher_trace dir L) (cipher_closes dir L)
               (false, buf) (after c w')).
  { intros pre c rest' w' E Hlt Hr Hf. unfold body_outcome. cbn [fst snd].
    split; [apply same_tail_refl|]. exists pre. split; [|reflexivity].
    eapply run_fail; eassumption. }
  unfold lrz_crypt_body.
  apply wp_bind, wp_cipher_open.
  destruct (failed (st w)) eqn:Hf1.
  { apply wp_ret. apply (Hstop [] _ _ w Htr); [cbn; lia | exact Hrun | exact Hf1]. }
  apply (run_step _ _ _ (cipher_open_call GCRY_CIPHER_MODE_CBC) _ Hrun) in Hf1.
  cbn [app] in Hf1. clear Hrun. rename Hf1 into Hrun.
  unfold CBC_LEN at 1 2.
  apply wp_bind, wp_cipher_setkey; [lia | | ].
  { intros Hf. cbv beta iota. rewrite Hf. apply wp_ret. cbn [hd_mode].
    apply (Hstop [_] _ _ _ Htr); [cbn; lia | exact Hrun | exact Hf]. }
  intros Hf. cbn [hd_mode].
  apply (run_step _ _ _ (cipher_setkey_call GCRY_CIPHER_MODE_CBC 16) _ Hrun) in Hf.
  cbn [app] in Hf. clear Hrun. rename Hf into Hrun.
  split; [lia|].
  cbn [failed Z.eqb negb hd_mode hd_iv hd_key].
  apply wp_bind, wp_cipher_setiv; [lia | | ].
  { intros Hf. cbv beta iota. rewrite Hf. apply wp_ret. cbn [hd_mode].
    apply (Hstop [_; _] _ _ _ Htr); [cbn; lia | exact Hrun | exact Hf]. }
  intros Hf. cbn [hd_mode].
  apply (run_step _ _ _ (cipher_setiv_call GCRY_CIPHER_MODE_CBC 16) _ Hrun) in Hf.
  cbn [app] in Hf. clear Hrun. rename Hf into Hrun.
  split; [lia|].
  cbn [failed Z.eqb negb hd_mode hd_iv hd_key].
  assert (Hiv : len (slice V 0 16) = 16) by (apply len_slice; lia).
  destruct dir.
  - eapply wp_decrypt_run; try eassumption. discriminate.
  - eapply wp_encrypt_run; eassumption.
  - eapply wp_decrypt_run; try eassumption. discriminate.
Qed.

(** [lrz_crypt] on valid inputs and at least one block of a buffer, with
    the outcome of its body. *)
Lemma wp_lrz_crypt_run control buf L salt dir w :
  valid_inputs control salt -> st w = 0 -> 16 <= L < 2 ^ 31 -> L <= len buf ->
  wp (lrz_crypt control buf L salt dir)
     (fun r w' =>
        body_outcome L buf (tl (status w)) (calls w ++ keygen_calls control salt)
          (cipher_trace dir L) (cipher_closes dir L)
          (crypt_ret r, crypt_buf r) w') w.
Proof.
  intros Hvalid Hst HL HLb.
  destruct (int_split L) as [EM EN]; [lia|].
  pose proof (Z.mod_pos_bound L 16 ltac:(lia)) as HMr.
  assert (HN : 16 <= L - L mod 16).
  { assert ((L - L mod 16) mod 16 = 0)
      by (rewrite Zminus_mod, Z.mod_mod, Z.sub_diag by lia; reflexivity).
    apply Z.div_exact in H; lia. }
  eapply wp_mono.
  { apply (wp_lrz_crypt control buf L salt dir
             (body_outcome L buf (tl (status w)) (calls w ++ keygen_calls control salt)
                (cipher_trace dir L) (cipher_closes dir L)));
      [exact Hvalid | rewrite Hst; reflexivity |].
    rewrite EN, EM.
    apply (wp_body_run _ _ buf L _ _ dir (keygen_world control salt w));
      auto using derive_key_length, derive_iv_length; lia. }
  cbn beta. intros r w' [H _]. exact H.
Qed.

Lemma cipher_trace_never_closes dir L c :
  In c (cipher_trace dir L) -> is_close c = false.
Proof.
  unfold cipher_trace.
  destruct dir, (L mod 16 =? 0); cbn [app In];
    intros H; repeat (destruct H as [<- | H]; [reflexivity|]); contradiction.
Qed.

(** *** Failures, calls and whole blocks *)


(** X2.  When [lrz_crypt] returns true, the libgcrypt calls it made are,
    in this order: the calls of the key derivation, the cipher calls of
    [cipher_trace], and then [gcry_cipher_close] on every handle it
    opened, the ECB handle of the stealing path before the CBC handle. *)
Theorem lrz_crypt_calls_on_success control buf L salt dir w r w' :
  valid_inputs control salt -> st w = 0 -> 16 <= L < 2 ^ 31 -> L <= len buf ->
  lrz_crypt control buf L salt dir w = Done r w' ->
  crypt_ret r = true ->
  calls w' = calls w ++ keygen_calls control salt
               ++ cipher_trace dir L ++ cipher_closes dir L /\
  status w' = skipn (length (cipher_trace dir L)) (tl (status w)).
Proof.
  intros Hvalid Hst HL HLb E Hret.
  pose proof (wp_lrz_crypt_run control buf L salt dir w Hvalid Hst HL HLb) as H.
  unfold wp in H. rewrite E in H. destruct H as (_ & H).
  cbn [fst snd] in H. rewrite Hret in H. destruct H as (_ & Hs & Hc).
  rewrite Hc, <- app_assoc. auto.
Qed.

(** X3.  When [lrz_crypt] returns false, the last libgcrypt call it made
    is the one that reported the failure: the calls before it succeeded,
    nothing is retried, and [gcry_cipher_close] is called on no handle,
    so the handles opened so far stay open.  If the failure came while
    the CBC handle was set up, the buffer is as the caller passed it. *)
Theorem lrz_crypt_stops_at_first_failure control buf L salt dir w r w' :
  valid_inputs control salt -> st w = 0 -> 16 <= L < 2 ^ 31 -> L <= len buf ->
  lrz_crypt control buf L salt dir w = Done r w' ->
  crypt_ret r = false ->
  exists pre c rest,
    cipher_trace dir L = pre ++ c :: rest /\
    calls w' = calls w ++ keygen_calls control salt ++ pre ++ [c] /\
    no_failure_in (firstn (length pre) (tl (status w))) /\
    nth (length pre) (tl (status w)) 0 <> 0 /\
    (forall c', In c' (pre ++ [c]) -> is_close c' = false) /\
    ((length pre < 3)%nat -> crypt_buf r = buf).
Proof.
  intros Hvalid Hst HL HLb E Hret.
  pose proof (wp_lrz_crypt_run control buf L salt dir w Hvalid Hst HL HLb) as H.
  unfold wp in H. rewrite E in H. destruct H as (_ & H).
  cbn [fst snd] in H. rewrite Hret in H.
  destruct H as (pre & (c & rest & Etr & Hz & Hnz & _ & Hc) & Hbuf).
  exists pre, c, rest. split; [exact Etr|].
  split; [rewrite Hc, <- app_assoc; reflexivity|].
  split; [exact Hz|]. split; [exact Hnz|]. split; [|exact Hbuf].
  intros c' Hin. apply (cipher_trace_never_closes dir L).
  rewrite Etr. apply in_app_or in Hin. apply in_or_app.
  destruct Hin as [Hin | [<- | []]]; [left; exact Hin | right; left; reflexivity].
Qed.


(** X5.  On a buffer that is a whole number of blocks, the empty buffer
    included, [lrz_crypt] is plain CBC under the first 16 bytes of the
    derived key and of the derived iv, with no padding and no stealing:
    CBC decryption of the buffer for DECRYPT and VALIDATE, at every
    length that an [i64] holds, and CBC encryption of the buffer for
    ENCRYPT when the buffer has fewer than 2^31 bytes, the length given
    to the encryption pass being an [int]. *)
Theorem lrz_crypt_whole_blocks_is_cbc control buf salt dir w :
  valid_inputs control salt -> all_ok w ->
  len buf < match dir with LRZ_ENCRYPT => 2 ^ 31 | _ => 2 ^ 63 end ->
  len buf mod 16 = 0 ->
  let cbc := match dir with LRZ_ENCRYPT => cbc_encrypt | _ => cbc_decrypt end in
  exists r w',
    lrz_crypt control buf (len buf) salt dir w = Done r w' /\
    crypt_ret r = true /\
    crypt_buf r =
      fst (cbc (cipher_key control salt) (cipher_iv control salt)
             (Z.to_nat (len buf / 16)) buf).
Proof.
  intros Hvalid Hok HL HLm cbc.
  pose proof (len_nonneg buf) as Hnn.
  assert (EM : to_int (Z.rem (len buf) CBC_LEN) = 0).
  { unfold CBC_LEN. rewrite Z.rem_mod_nonneg, HLm by lia. reflexivity. }
  apply wp_done.
  eapply wp_mono.
  { apply (wp_lrz_crypt control buf (len buf) salt dir
             (fun r w' =>
                r = (true, fst (cbc (cipher_key control salt) (cipher_iv control salt)
                                  (Z.to_nat (len buf / 16)) buf)) /\ all_ok w'));
      [exact Hvalid | apply all_ok_not_failed; exact Hok |].
    rewrite EM, Z.sub_0_r. unfold cipher_key, cipher_iv, CBC_LEN.
    assert (Hdir : dir = LRZ_ENCRYPT \/ dir <> LRZ_ENCRYPT)
      by (destruct dir; auto; right; discriminate).
    destruct Hdir as [-> | Hdir].
    - rewrite to_int_small by lia.
      eapply wp_mono.
      { apply (wp_body_encrypt _ _ buf (len buf) 0 (len buf));
          auto using derive_key_length, derive_iv_length, all_ok_keygen_world; lia. }
      cbn beta. intros r w' [E H]. split; [exact E | exact H].
    - replace cbc with cbc_decrypt by (destruct dir; [reflexivity | contradiction | reflexivity]).
      apply wp_body_decrypt_whole;
        auto using derive_key_length, derive_iv_length, all_ok_keygen_world;
        destruct dir; try contradiction; lia. }
  cbn beta. intros r w' [[E _] _]. injection E as E1 E2. auto.
Qed.

(** *** Less than one block *)

(** X6.  A buffer of 1 to 15 bytes is not supported by [lrz_crypt]: the
    remainder is stolen from and to the block at N - 16, which with no
    whole block lies before the buffer.  With every library call
    succeeding the behaviour is undefined in each direction: encryption
    copies from [buf - 16], and decryption asks the CBC handle for
    [(size_t) -16] bytes. *)
Theorem lrz_crypt_undefined_below_one_block control salt buf dir w :
  valid_inputs control salt -> all_ok w -> 1 <= len buf <= 15 ->
  lrz_crypt control buf (len buf) salt dir w = Undefined.
Proof.
  intros Hvalid Hok HL.
  set (L := len buf) in *.
  assert (EM : to_int (Z.rem L CBC_LEN) = L).
  { unfold CBC_LEN. rewrite Z.rem_small by lia. apply to_int_small. lia. }
  unfold lrz_crypt, lrz_crypt_frame.
  apply bind_undefined_l. unfold lrz_crypt_to_error.
  rewrite EM. rewrite Z.sub_diag. change (to_int 0) with 0.
  apply bind_undefined.
  destruct Hvalid as (Hh & Hs & Hp & Hpl & Hpm).
  eapply wp_mono.
  { apply wp_lrz_keygen; try assumption;
      [unfold HASH_LEN; apply len_zeros; lia ..| apply all_ok_not_failed; exact Hok]. }
  intros [key iv] w1 [E ->]. injection E as -> ->.
  apply (all_ok_keygen_world control salt) in Hok.
  apply bind_undefined_l.
  assert (HK := derive_key_length control salt).
  assert (HV := derive_iv_length control salt).
  set (k := slice (spec_derive_key control salt) 0 16).
  set (v := slice (spec_derive_iv control salt) 0 16).
  assert (Hk : len k = 16) by (apply len_slice; lia).
  assert (Hv : len v = 16) by (apply len_slice; lia).
  unfold lrz_crypt_body, CBC_LEN.
  apply bind_undefined, wp_cipher_open.
  match goal with |- context [st ?w1] => rewrite (all_ok_st w1 Hok) end.
  cbn [failed Z.eqb negb].
  apply (all_ok_after (cipher_open_call GCRY_CIPHER_MODE_CBC)) in Hok.
  apply bind_undefined, wp_cipher_setkey; [lia | no_failure Hok | intros _; split; [lia|]].
  cbn [failed Z.eqb negb hd_mode hd_iv hd_key].
  apply (all_ok_after (cipher_setkey_call GCRY_CIPHER_MODE_CBC 16)) in Hok.
  apply bind_undefined, wp_cipher_setiv; [lia | no_failure Hok | intros _; split; [lia|]].
  cbn [failed Z.eqb negb hd_mode hd_iv hd_key].
  apply (all_ok_after (cipher_setiv_call GCRY_CIPHER_MODE_CBC 16)) in Hok.
  fold k v.
  destruct (Z.eqb_spec L 0) as [|HL0]; [lia|].
  assert (Hdir : dir = LRZ_ENCRYPT \/ dir <> LRZ_ENCRYPT)
    by (destruct dir; auto; right; discriminate).
  destruct Hdir as [-> | Hdir].
  - (* encryption *)
    unfold lrz_crypt_encrypt, gcry_cipher_encrypt, CBC_LEN.
    destruct (cipher_run_shape true GCRY_CIPHER_MODE_CBC k v (slice buf 0 0))
      as (c & iv1 & Erun & Hc & Hiv1);
      [lia | lia | rewrite len_slice by (fold L; lia); reflexivity |].
    rewrite len_slice in Hc by (fold L; lia).
    apply bind_undefined, wp_cipher_crypt_inplace; [lia | no_failure Hok | intros _].
    rewrite Erun. cbn [fst snd].
    split; [reflexivity|]. split; [lia|]. split; [fold L; lia|]. split; [lia|].
    cbn [failed Z.eqb negb].
    match goal with |- context [after ?c0 ?w0] =>
      apply (all_ok_after c0) in Hok end.
    set (buf1 := splice buf 0 c).
    assert (Hbuf1 : len buf1 = L) by (unfold buf1; rewrite len_splice; fold L; lia).
    clearbody buf1.
    replace (negb (L =? 0)) with true by (symmetry; apply negb_true_iff, Z.eqb_neq; lia).
    apply bind_undefined, wp_memset0; [lia | lia | rewrite len_zeros; lia |].
    rewrite splice_all by (rewrite !len_zeros; lia).
    apply bind_undefined, wp_memcpy; [lia | lia | lia | lia | rewrite len_zeros; lia |].
    set (tmp0 := splice (zeros 16) 0 (slice buf1 0 L)).
    assert (Htmp0 : len tmp0 = 16)
      by (unfold tmp0; rewrite len_splice; rewrite ?len_slice, ?len_zeros; lia).
    clearbody tmp0.
    destruct (cipher_run_shape true GCRY_CIPHER_MODE_CBC k iv1 (slice tmp0 0 16))
      as (t & iv2 & Erun2 & Ht & Hiv2);
      [lia | lia | rewrite len_slice by lia; reflexivity |].
    rewrite len_slice in Ht by lia.
    apply bind_undefined, wp_cipher_crypt_to; [lia | no_failure Hok | intros _].
    rewrite Erun2. cbn [fst snd].
    split; [reflexivity|]. split; [lia|]. split; [lia|]. split; [lia|].
    split; [rewrite len_zeros; lia|]. split; [lia|].
    cbn [failed Z.eqb negb].
    apply bind_undefined_l.
    unfold memcpy, bind, access, load, in_bounds.
    rewrite to_size_t_small by lia. reflexivity.
  - (* decryption *)
    assert (Ebody : forall m1 m2 : M (bool * mem),
               m2 (after (cipher_setiv_call GCRY_CIPHER_MODE_CBC 16)
                     (after (cipher_setkey_call GCRY_CIPHER_MODE_CBC 16)
                        (after (cipher_open_call GCRY_CIPHER_MODE_CBC)
                           (keygen_world control salt w)))) = Undefined ->
               match dir with LRZ_ENCRYPT => m1 | _ => m2 end
                 (after (cipher_setiv_call GCRY_CIPHER_MODE_CBC 16)
                    (after (cipher_setkey_call GCRY_CIPHER_MODE_CBC 16)
                       (after (cipher_open_call GCRY_CIPHER_MODE_CBC)
                          (keygen_world control salt w)))) = Undefined)
      by (intros m1 m2 H; destruct dir; [exact H | contradiction | exact H]).
    apply Ebody. clear Ebody.
    unfold lrz_crypt_decrypt, gcry_cipher_decrypt, CBC_LEN.
    replace (negb (L =? 0)) with true by (symmetry; apply negb_true_iff, Z.eqb_neq; lia).
    apply bind_undefined, wp_cipher_open.
    match goal with |- context [st ?w1] => rewrite (all_ok_st w1 Hok) end.
    cbn [failed Z.eqb negb].
    apply (all_ok_after (cipher_open_call GCRY_CIPHER_MODE_ECB)) in Hok.
    apply bind_undefined, wp_cipher_setkey; [lia | no_failure Hok | intros _; split; [lia|]].
    cbn [failed Z.eqb negb hd_mode hd_iv hd_key].
    apply (all_ok_after (cipher_setkey_call GCRY_CIPHER_MODE_ECB 16)) in Hok.
    apply bind_undefined_l.
    unfold gcry_cipher_crypt.
    change (to_size_t (to_int (0 - 16))) with (2 ^ 64 - 16).
    rewrite fallible_call, (all_ok_st _ Hok).
    cbn [failed Z.eqb negb].
    change (negb ((2 ^ 64 - 16) mod aes_blklen =? 0)) with false. cbv iota.
    unfold bind, access, load, in_bounds. fold L.
    replace (0 + (2 ^ 64 - 16) <=? L) with false by (symmetry; apply Z.leb_gt; lia).
    reflexivity.
Qed.

(** *** Within [int]: the round trip and the stolen block *)

(** X29.  For every buffer of length [L] with 16 <= L < 2^31 and all
    valid inputs, encryption followed by decryption (or by validation)
    with the same salt, passphrase and global hash restores the buffer,
    whether L is a multiple of 16 (plain CBC) or not (ciphertext
    stealing). *)
Theorem lrz_crypt_round_trip control salt buf dir w :
  valid_inputs control salt -> all_ok w ->
  16 <= len buf < 2 ^ 31 -> dir <> LRZ_ENCRYPT ->
  round_trip control salt buf dir w.
Proof.
  intros Hvalid Hok HL Hdir.
  destruct (int_split (len buf)) as [EM EN]; [lia|].
  pose proof (Z.mod_pos_bound (len buf) 16 ltac:(lia)) as HMr.
  assert (HN : 16 <= len buf - len buf mod 16).
  { assert ((len buf - len buf mod 16) mod 16 = 0)
      by (rewrite Zminus_mod, Z.mod_mod, Z.sub_diag by lia; reflexivity).
    apply Z.div_exact in H; lia. }
  set (k := slice (spec_derive_key control salt) 0 16).
  set (v := slice (spec_derive_iv control salt) 0 16).
  assert (Hk : len k = 16) by (apply len_slice; rewrite ?derive_key_length; lia).
  assert (Hv : len v = 16) by (apply len_slice; rewrite ?derive_iv_length; lia).
  set (out := if len buf mod 16 =? 0
              then fst (cbc_encrypt k v (Z.to_nat ((len buf - len buf mod 16) / 16)) buf)
              else spec_cts_encrypt k v buf).
  assert (Hout : len out = len buf).
  { unfold out. destruct (Z.eqb_spec (len buf mod 16) 0) as [E0|E0].
    - rewrite E0, Z.sub_0_r.
      destruct (cbc_encrypt_length k (Z.to_nat (len buf / 16)) v buf Hk Hv) as [H1 _].
      + rewrite Z2Nat.id by (apply Z.div_pos; lia). apply Z.div_exact in E0; lia.
      + rewrite H1. rewrite Z2Nat.id by (apply Z.div_pos; lia).
        apply Z.div_exact in E0; lia.
    - apply cts_encrypt_length; lia. }
  assert (Henc : wp (lrz_crypt control buf (len buf) salt LRZ_ENCRYPT)
                    (fun r w' => (crypt_ret r = true /\ crypt_buf r = out) /\ all_ok w') w).
  { eapply wp_mono.
    { apply wp_lrz_crypt; [exact Hvalid | apply all_ok_not_failed; exact Hok |].
      rewrite EN, EM.
      apply wp_body_encrypt;
        auto using derive_key_length, derive_iv_length, all_ok_keygen_world; lia. }
    cbn beta. intros r w' [[E H] _]. injection E as E1 E2. auto. }
  apply wp_done in Henc. destruct Henc as (r1 & w1 & Hrun1 & [Hret1 Hbuf1] & Hok1).
  assert (Hdec : wp (lrz_crypt control out (len buf) salt dir)
                    (fun r w' => crypt_ret r = true /\ crypt_buf r = buf) w1).
  { eapply wp_mono.
    { apply wp_lrz_crypt; [exact Hvalid | apply all_ok_not_failed; exact Hok1 |].
      rewrite EN, EM.
      apply wp_body_decrypt;
        auto using derive_key_length, derive_iv_length, all_ok_keygen_world; lia. }
    cbn beta. intros r w' [[E H] _]. injection E as E1 E2. auto. }
  apply wp_done in Hdec. destruct Hdec as (r2 & w2 & Hrun2 & Hret2 & Hbuf2).
  exists r1, w1, r2, w2. rewrite Hbuf1. auto 7.
Qed.

(** X30.  Encrypting a buffer whose length [L] is not a multiple of 16
    (M = L mod 16, N = L - M), with at least one whole block and
    L < 2^31, returns success and leaves exactly [spec_cts_encrypt]: the
    CBC encryption of the first N bytes with its block at N - 16 replaced
    by T, the CBC encryption of the zero-padded remainder, and followed by
    the first M bytes of the block that T replaced; the output has L
    bytes. *)
Theorem lrz_crypt_encrypt_steals control salt buf w :
  valid_inputs control salt -> all_ok w ->
  len buf mod 16 <> 0 -> 16 <= len buf < 2 ^ 31 ->
  exists r w',
    lrz_crypt control buf (len buf) salt LRZ_ENCRYPT w = Done r w' /\
    crypt_ret r = true /\
    crypt_buf r = spec_cts_encrypt (cipher_key control salt) (cipher_iv control salt) buf /\
    len (crypt_buf r) = len buf.
Proof.
  intros Hvalid Hok HM HL.
  destruct (int_split (len buf)) as [EM EN]; [lia|].
  pose proof (Z.mod_pos_bound (len buf) 16 ltac:(lia)) as HMr.
  assert (HN : 16 <= len buf - len buf mod 16).
  { assert ((len buf - len buf mod 16) mod 16 = 0)
      by (rewrite Zminus_mod, Z.mod_mod, Z.sub_diag by lia; reflexivity).
    apply Z.div_exact in H; lia. }
  apply wp_done.
  eapply wp_mono.
  { apply wp_lrz_crypt; [exact Hvalid | apply all_ok_not_failed; exact Hok |].
    rewrite EN, EM.
    apply wp_body_encrypt;
      auto using derive_key_length, derive_iv_length, all_ok_keygen_world; lia. }
  cbn beta. intros r w' [[E _] _].
  destruct (Z.eqb_spec (len buf mod 16) 0) as [|_]; [contradiction|].
  injection E as E1 E2.
  unfold cipher_key, cipher_iv, CBC_LEN. repeat split; try assumption.
  rewrite E2. apply cts_encrypt_length; try lia;
    apply len_slice; rewrite ?derive_key_length, ?derive_iv_length; lia.
Qed.

(** *** The header codec on a header that was encrypted *)








Lemma memcpy_done dst doff src soff n w d w' :
  memcpy dst doff src soff n w = Done d w' ->
  len d = len dst /\ w' = w /\ doff + to_size_t n <= len dst.
Proof.
  unfold memcpy, bind, access. intros E.
  destruct (load src soff (to_size_t n)) as [bytes|] eqn:El; [|discriminate E].
  destruct (store dst doff bytes) as [d'|] eqn:Es; [|discriminate E].
  injection E as <- <-.
  apply store_inv in Es. destruct Es as (-> & H1 & H2).
  unfold load in El.
  destruct (in_bounds src soff (to_size_t n)) eqn:Eb; [|discriminate El].
  apply in_bounds_inv in Eb. injection El as <-.
  rewrite len_slice in H2 by lia.
  split; [apply len_splice; rewrite ?len_slice; lia|]. auto.
Qed.

(** X8.  [decrypt_header] needs the [SALT_LEN + 25] bytes of a header
    behind [head]: on fewer, the copies of the fields into it write
    outside, which is undefined behaviour.  The function is not told the
    size of [head] and cannot check it. *)
Theorem decrypt_header_needs_a_whole_header control head f dir w :
  len head < SALT_LEN + 25 ->
  decrypt_header control head f dir w = Undefined.
Proof.
  intros Hhead. unfold decrypt_header.
  set (buf := skipn (Z.to_nat SALT_LEN) head).
  assert (Hbuf : len buf < 25).
  { unfold buf, len in *. rewrite length_skipn. unfold SALT_LEN in *. lia. }
  clearbody buf. unfold bind at 1.
  destruct (memcpy buf 0 _ 0 1 w) as [b1 w1|] eqn:E1; [|reflexivity].
  apply memcpy_done in E1. destruct E1 as (H1 & -> & _).
  unfold bind at 1.
  destruct (memcpy b1 1 _ 0 8 w) as [b2 w2|] eqn:E2; [|reflexivity].
  apply memcpy_done in E2. destruct E2 as (H2 & -> & _).
  unfold bind at 1.
  destruct (memcpy b2 9 _ 0 8 w) as [b3 w3|] eqn:E3; [|reflexivity].
  apply memcpy_done in E3. destruct E3 as (H3 & -> & _).
  unfold bind at 1.
  destruct (memcpy b3 17 _ 0 8 w) as [b4 w4|] eqn:E4; [|reflexivity].
  apply memcpy_done in E4. destruct E4 as (_ & _ & H4).
  rewrite to_size_t_small in H4 by lia. lia.
Qed.

(** *** Key derivation, [xor128] and stretching at their bounds *)

(** X9.  A passphrase longer than [PASS_LEN] does not fit the scratch
    array of [lrz_keygen]: the third [memcpy] writes past its end, which
    is undefined behaviour, in [lrz_keygen] and so in [lrz_crypt].  The
    function has no check of [salt_pass_len]. *)
Theorem lrz_keygen_overflows_on_long_passphrase control salt key iv buf L dir w :
  HASH_LEN <= len (hash control) -> SALT_LEN <= len salt ->
  0 <= PASS_LEN -> PASS_LEN < salt_pass_len control < 2 ^ 64 ->
  lrz_keygen control salt key iv w = Undefined /\
  lrz_crypt control buf L salt dir w = Undefined.
Proof.
  intros Hh Hs Hp Hlen.
  assert (Hgen : forall k v, lrz_keygen control salt k v w = Undefined).
  { intros k v. unfold lrz_keygen, HASH_LEN, SALT_LEN in *.
    apply bind_undefined.
    apply wp_memcpy; [lia | lia | lia | lia | lens |].
    apply bind_undefined.
    apply wp_memcpy; [lia | lia | lia | lia | lens |].
    apply bind_undefined_l.
    unfold memcpy, bind, access.
    rewrite to_size_t_small by lia.
    destruct (load (salt_pass control) 0 (salt_pass_len control)) as [bytes|] eqn:El;
      [|reflexivity].
    assert (Hb : len bytes = salt_pass_len control).
    { unfold load in El.
      destruct (in_bounds (salt_pass control) 0 (salt_pass_len control)) eqn:Eb;
        [|discriminate].
      apply in_bounds_inv in Eb. injection El as <-. apply len_slice; lia. }
    unfold store.
    replace (in_bounds _ (64 + 16) (len bytes)) with false; [reflexivity|].
    symmetry. unfold in_bounds.
    rewrite !len_splice by lens. rewrite len_zeros by lia.
    rewrite Hb. apply andb_false_iff. right. apply Z.leb_gt. lia. }
  split; [apply Hgen|].
  unfold lrz_crypt, lrz_crypt_frame.
  apply bind_undefined_l. unfold lrz_crypt_to_error.
  apply bind_undefined_l. apply Hgen.
Qed.

(** [xor128] on buffers of at least 16 bytes. *)
Lemma wp_xor128_prefix pa pb Q w :
  16 <= len pa -> 16 <= len pb ->
  Q (xor_bytes (slice pa 0 16) (slice pb 0 16) ++ slice pa 16 (len pa - 16)) w ->
  wp (xor128 pa pb) Q w.
Proof.
  intros Ha Hb HQ.
  set (a0 := slice pa 0 8). set (a1 := slice pa 8 8).
  set (ra := slice pa 16 (len pa - 16)) in *.
  set (b0 := slice pb 0 8). set (b1 := slice pb 8 8).
  assert (Ea : pa = a0 ++ a1 ++ ra).
  { rewrite (slice_split3 pa 8 8) at 1 by lia. unfold a0, a1, ra.
    do 3 f_equal. lia. }
  assert (Ha0 : len a0 = 8) by (apply len_slice; lia).
  assert (Ha1 : len a1 = 8) by (apply len_slice; lia).
  assert (Hb0 : len b0 = 8) by (apply len_slice; lia).
  assert (Hb1 : len b1 = 8) by (apply len_slice; lia).
  assert (Hra : len ra = len pa - 16) by (apply len_slice; lia).
  assert (Hx0 : len (xor_bytes a0 b0) = 8) by (rewrite len_xor_bytes; lia).
  assert (Hx1 : len (xor_bytes a1 b1) = 8) by (rewrite len_xor_bytes; lia).
  assert (E16a : slice pa 0 16 = a0 ++ a1).
  { rewrite Ea at 1. rewrite (app_assoc a0 a1). apply slice_head. rewrite len_app. lia. }
  assert (E16b : slice pb 0 16 = b0 ++ b1).
  { rewrite (slice_split (slice pb 0 16) 8) by (rewrite len_slice; lia).
    rewrite len_slice by lia. rewrite !slice_slice by lia. reflexivity. }
  rewrite E16a, E16b in HQ.
  rewrite xor_bytes_app in HQ by (unfold len in *; lia).
  unfold xor128, load_i64, store_i64.
  apply wp_bind. eapply wp_access; [rewrite load_ok by lia; reflexivity|].
  apply wp_bind. eapply wp_access; [rewrite load_ok by lia; reflexivity|].
  fold a0 b0. rewrite xor_i64_bytes by (unfold len in *; lia).
  apply wp_bind. eapply wp_access.
  { apply store_ok; lia. }
  replace (splice pa 0 (xor_bytes a0 b0)) with (xor_bytes a0 b0 ++ a1 ++ ra).
  2:{ rewrite Ea at 1. symmetry. apply splice_head. lia. }
  apply wp_bind. eapply wp_access.
  { rewrite load_ok by (rewrite ?len_app; lia). reflexivity. }
  apply wp_bind. eapply wp_access; [rewrite load_ok by lia; reflexivity|].
  rewrite (slice_app3 _ a1 ra 8 8) by lia. fold b1.
  rewrite xor_i64_bytes by (unfold len in *; lia).
  eapply wp_access.
  { apply store_ok; [lia|]. rewrite !len_app; lia. }
  rewrite splice_app3 by lia.
  rewrite <- app_assoc in HQ. exact HQ.
Qed.

(** X10.  [xor128 (pa, pb)] replaces the first 16 bytes of [pa] by their
    byte-wise exclusive or with the first 16 bytes of [pb] and leaves the
    rest of [pa] alone; applied a second time with the same [pb] it
    restores [pa]. *)
Theorem xor128_bytewise_involution pa pb w :
  16 <= len pa -> 16 <= len pb ->
  let r := xor_bytes (slice pa 0 16) (slice pb 0 16) ++ slice pa 16 (len pa - 16) in
  xor128 pa pb w = Done r w /\
  len r = len pa /\
  xor128 r pb w = Done pa w.
Proof.
  intros Ha Hb r.
  assert (Hx : len (xor_bytes (slice pa 0 16) (slice pb 0 16)) = 16)
    by (rewrite len_xor_bytes; rewrite !len_slice; lia).
  assert (Hr : len r = len pa)
    by (unfold r; rewrite len_app, Hx, len_slice; lia).
  assert (H1 : wp (xor128 pa pb) (fun x w' => x = r /\ w' = w) w)
    by (apply wp_xor128_prefix; auto).
  assert (H2 : wp (xor128 r pb) (fun x w' => x = pa /\ w' = w) w).
  { apply wp_xor128_prefix; [lia | lia |]. split; [|reflexivity].
    rewrite Hr. unfold r at 1 2.
    rewrite slice_head by exact Hx.
    rewrite (slice_tail _ _ 16 (len pa - 16)) by (rewrite ?len_slice; lia).
    rewrite xor_bytes_cancel by (pose proof (len_slice pa 0 16); pose proof (len_slice pb 0 16);
                                  unfold len in *; lia).
    symmetry. rewrite (slice_split pa 16) at 1 by lia. reflexivity. }
  apply wp_done in H1. destruct H1 as (x1 & w1 & E1 & -> & ->).
  apply wp_done in H2. destruct H2 as (x2 & w2 & E2 & -> & ->).
  auto.
Qed.



End Gcrypt.

(** ** The toy primitives satisfy what is assumed of SHA-512 and AES *)

Lemma toy_sha512_length m : len (toy_sha512 m) = HASH_LEN.
Proof. unfold toy_sha512, len. rewrite length_le_split. reflexivity. Qed.

Lemma toy_aes_encrypt_length k b :
  len k = 16 -> len b = 16 -> len (toy_aes_encrypt k b) = 16.
Proof.
  unfold toy_aes_encrypt, len. intros Hk Hb.
  rewrite length_rev, xor_bytes_length; lia.
Qed.

Lemma toy_aes_decrypt_length k b :
  len k = 16 -> len b = 16 -> len (toy_aes_decrypt k b) = 16.
Proof.
  unfold toy_aes_decrypt, len. intros Hk Hb.
  rewrite xor_bytes_length; rewrite length_rev; lia.
Qed.

Lemma toy_aes_decrypt_encrypt k b :
  len k = 16 -> len b = 16 -> toy_aes_decrypt k (toy_aes_encrypt k b) = b.
Proof.
  unfold toy_aes_decrypt, toy_aes_encrypt, len. intros Hk Hb.
  rewrite rev_involutive. apply xor_bytes_cancel. lia.
Qed.

Lemma demo_valid_inputs : valid_inputs 512 demo_control demo_salt.
Proof. repeat split; vm_compute; discriminate. Qed.

Lemma demo_head_valid : valid_inputs 512 demo_control demo_head.
Proof. repeat split; vm_compute; discriminate. Qed.

Lemma demo_world_ok : all_ok demo_world.
Proof. apply Forall_nil. Qed.

(** ** The properties on concrete inputs *)

(** A buffer of 2^32 zero bytes: encryption returns it as it is, and the
    first block that decryption then returns is not the one of the
    buffer. *)
Lemma lrz_crypt_round_trip_past_int_witness :
  exists r1 w1 r2 w2,
    lrz_crypt toy_sha512 toy_aes_encrypt toy_aes_decrypt 512
      demo_control demo_buf_4GiB (len demo_buf_4GiB) demo_salt LRZ_ENCRYPT demo_world
    = Done r1 w1 /\
    crypt_ret r1 = true /\
    crypt_buf r1 = demo_buf_4GiB /\
    lrz_crypt toy_sha512 toy_aes_encrypt toy_aes_decrypt 512
      demo_control (crypt_buf r1) (len demo_buf_4GiB) demo_salt LRZ_DECRYPT w1
    = Done r2 w2 /\
    crypt_ret r2 = true /\
    slice (crypt_buf r2) 0 16 <> slice demo_buf_4GiB 0 16.
Proof.
  assert (Hlen : len demo_buf_4GiB = 2 ^ 32) by (apply len_zeros; lia).
  destruct (lrz_crypt_round_trip_past_int toy_sha512 toy_aes_encrypt toy_aes_decrypt 512
              toy_sha512_length toy_aes_encrypt_length toy_aes_decrypt_length
              demo_control demo_salt demo_buf_4GiB 1 LRZ_DECRYPT demo_world)
    as (r1 & w1 & r2 & w2 & E1 & Hret1 & Hbuf1 & E2 & Hret2 & _ & Hfirst).
  - exact demo_valid_inputs.
  - exact demo_world_ok.
  - lia.
  - rewrite Hlen. reflexivity.
  - rewrite Hlen. reflexivity.
  - discriminate.
  - exists r1, w1, r2, w2. repeat (split; [assumption|]).
    rewrite Hfirst.
    unfold demo_buf_4GiB. rewrite (slice_zeros (2 ^ 32) 16) by lia.
    vm_compute. discriminate.
Defined.

(** 30 bytes followed by 2^32 zero bytes: the zero bytes come back as
    they were. *)
Lemma lrz_crypt_steals_past_int_witness :
  exists r w',
    lrz_crypt toy_sha512 toy_aes_encrypt toy_aes_decrypt 512
      demo_control (demo_buf30 ++ demo_buf_4GiB) (len (demo_buf30 ++ demo_buf_4GiB))
      demo_salt LRZ_ENCRYPT demo_world
    = Done r w' /\
    crypt_ret r = true /\
    len (crypt_buf r) = 30 + 2 ^ 32 /\
    slice (crypt_buf r) 30 (2 ^ 32) = demo_buf_4GiB.
Proof.
  assert (Hlen : len demo_buf_4GiB = 2 ^ 32) by (apply len_zeros; lia).
  assert (Hlen' : len (demo_buf30 ++ demo_buf_4GiB) = 30 + 1 * 2 ^ 32)
    by (rewrite len_app, Hlen; reflexivity).
  destruct (lrz_crypt_steals_past_int toy_sha512 toy_aes_encrypt toy_aes_decrypt 512
              toy_sha512_length toy_aes_encrypt_length
              demo_control demo_salt (demo_buf30 ++ demo_buf_4GiB) 30 1 demo_world)
    as (r & w' & E & Hret & _ & Hl & Htail).
  - exact demo_valid_inputs.
  - exact demo_world_ok.
  - lia.
  - discriminate.
  - lia.
  - exact Hlen'.
  - rewrite Hlen'. reflexivity.
  - exists r, w'. split; [exact E|]. split; [exact Hret|].
    split; [rewrite Hl, Hlen'; reflexivity|].
    change (1 * 2 ^ 32) with (2 ^ 32) in Htail. rewrite Htail.
    apply slice_tail; [reflexivity | exact Hlen].
Defined.

Lemma lrz_crypt_encrypt_steals_witness :
  exists r w',
    lrz_crypt toy_sha512 toy_aes_encrypt toy_aes_decrypt 512
      demo_control demo_buf30 (len demo_buf30) demo_salt LRZ_ENCRYPT demo_world
    = Done r w' /\
    crypt_ret r = true /\
    crypt_buf r =
      spec_cts_encrypt toy_aes_encrypt (cipher_key toy_sha512 demo_control demo_salt)
        (cipher_iv toy_sha512 demo_control demo_salt) demo_buf30 /\
    len (crypt_buf r) = len demo_buf30.
Proof.
  apply (lrz_crypt_encrypt_steals toy_sha512 toy_aes_encrypt toy_aes_decrypt 512
           toy_sha512_length toy_aes_encrypt_length).
  - exact demo_valid_inputs.
  - exact demo_world_ok.
  - vm_compute. discriminate.
  - split; vm_compute; [discriminate | reflexivity].
Defined.

(** The stolen block needs a whole block before the remainder: with 7
    bytes there is no ciphertext block at N - 16 = -16, and the two
    copies of the encryption branch fall outside the buffer. *)
Lemma stealing_needs_a_whole_block :
  ~ (forall sha512 aes_encrypt_block aes_decrypt_block PASS_LEN,
       (forall m, len (sha512 m) = HASH_LEN) ->
       (forall k b, len k = 16 -> len b = 16 -> len (aes_encrypt_block k b) = 16) ->
       forall control salt buf w,
         valid_inputs PASS_LEN control salt -> all_ok w -> len buf mod 16 <> 0 ->
         exists r w',
           lrz_crypt sha512 aes_encrypt_block aes_decrypt_block PASS_LEN
             control buf (len buf) salt LRZ_ENCRYPT w = Done r w' /\
           crypt_ret r = true /\
           crypt_buf r =
             spec_cts_encrypt aes_encrypt_block (cipher_key sha512 control salt)
               (cipher_iv sha512 control salt) buf /\
           len (crypt_buf r) = len buf).
Proof.
  intros H.
  destruct (H toy_sha512 toy_aes_encrypt toy_aes_decrypt 512
              toy_sha512_length toy_aes_encrypt_length
              demo_control demo_salt demo_buf7 demo_world
              demo_valid_inputs demo_world_ok)
    as (r & w' & E & _).
  - vm_compute. discriminate.
  - vm_compute in E. discriminate E.
Qed.

Lemma lrz_crypt_round_trip_witness :
  round_trip toy_sha512 toy_aes_encrypt toy_aes_decrypt 512
    demo_control demo_salt demo_buf30 LRZ_DECRYPT demo_world /\
  round_trip toy_sha512 toy_aes_encrypt toy_aes_decrypt 512
    demo_control demo_salt demo_buf16 LRZ_DECRYPT demo_world.
Proof.
  split;
    apply (lrz_crypt_round_trip toy_sha512 toy_aes_encrypt toy_aes_decrypt 512
             toy_sha512_length toy_aes_encrypt_length toy_aes_decrypt_encrypt);
    try exact demo_valid_inputs; try exact demo_world_ok; try discriminate;
    split; vm_compute; first [discriminate | reflexivity].
Defined.

(** No round trip below one block: a buffer of 5 bytes has no block to
    steal from, and the encryption branch copies from and to
    [buf - 16]. *)
Lemma round_trip_fails_below_one_block :
  ~ (forall sha512 aes_encrypt_block aes_decrypt_block PASS_LEN,
       (forall m, len (sha512 m) = HASH_LEN) ->
       (forall k b, len k = 16 -> len b = 16 -> len (aes_encrypt_block k b) = 16) ->
       (forall k b, len k = 16 -> len b = 16 ->
                    aes_decrypt_block k (aes_encrypt_block k b) = b) ->
       forall control salt buf w,
         valid_inputs PASS_LEN control salt -> all_ok w -> 1 <= len buf ->
         round_trip sha512 aes_encrypt_block aes_decrypt_block PASS_LEN
           control salt buf LRZ_DECRYPT w).
Proof.
  intros H.
  destruct (H toy_sha512 toy_aes_encrypt toy_aes_decrypt 512
              toy_sha512_length toy_aes_encrypt_length toy_aes_decrypt_encrypt
              demo_control demo_salt demo_buf5 demo_world
              demo_valid_inputs demo_world_ok)
    as (r1 & w1 & r2 & w2 & E & _).
  - vm_compute. discriminate.
  - vm_compute in E. discriminate E.
Qed.

Lemma lrz_keygen_two_passes_witness :
  let key' :=
    toy_sha512 (global_hash demo_control ++ block_salt demo_salt ++ passphrase demo_control) in
  let iv' := toy_sha512 (key' ++ block_salt demo_salt ++ passphrase demo_control) in
  lrz_keygen toy_sha512 512 demo_control demo_salt (zeros 64) (zeros 64) demo_world =
  Done (key', iv') (keygen_world toy_sha512 demo_control demo_salt demo_world) /\
  len key' = 64 /\ len iv' = 64.
Proof.
  apply (lrz_keygen_two_passes toy_sha512 512 toy_sha512_length).
  - exact demo_valid_inputs.
  - reflexivity.
  - reflexivity.
  - reflexivity.
Defined.

Lemma lrz_keygen_reports_no_failure_witness :
  lrz_keygen toy_sha512 512 demo_control demo_salt (zeros 64) (zeros 64)
    (mkWorld [1] []) = Undefined /\
  lrz_crypt toy_sha512 toy_aes_encrypt toy_aes_decrypt 512
    demo_control demo_buf30 30 demo_salt LRZ_ENCRYPT (mkWorld [1] []) = Undefined.
Proof.
  apply (lrz_keygen_reports_no_failure toy_sha512 toy_aes_encrypt toy_aes_decrypt 512
           toy_sha512_length demo_control demo_salt demo_buf30 30 LRZ_ENCRYPT
           (zeros 64) (zeros 64) (mkWorld [1] [])).
  - exact demo_valid_inputs.
  - reflexivity.
  - reflexivity.
  - reflexivity.
Defined.

(** C8 as stated fails: when [gcry_md_open] fails, the block transform
    does not return a failure. *)
Lemma keygen_failure_is_not_returned :
  ~ (forall sha512 aes_encrypt_block aes_decrypt_block PASS_LEN,
       (forall m, len (sha512 m) = HASH_LEN) ->
       forall control salt buf dir w,
         valid_inputs PASS_LEN control salt -> 16 <= len buf < 2 ^ 31 ->
         failed (st w) = true ->
         exists r w',
           lrz_crypt sha512 aes_encrypt_block aes_decrypt_block PASS_LEN
             control buf (len buf) salt dir w = Done r w' /\
           crypt_ret r = false).
Proof.
  intros H.
  destruct (H toy_sha512 toy_aes_encrypt toy_aes_decrypt 512 toy_sha512_length
              demo_control demo_salt demo_buf30 LRZ_ENCRYPT (mkWorld [1] [])
              demo_valid_inputs)
    as (r & w' & E & _).
  - split; vm_compute; [discriminate | reflexivity].
  - reflexivity.
  - vm_compute in E. discriminate E.
Qed.

(** The arrays hold other bytes on entry and the key setup of the CBC
    handle fails: at the label the arrays hold the derived key and iv,
    locked, and the transform returns false with both erased. *)
Lemma lrz_crypt_erases_secrets_witness :
  exists s r w',
    lrz_crypt_to_error toy_sha512 toy_aes_encrypt toy_aes_decrypt 512
      demo_stack_key demo_stack_iv
      demo_control demo_buf30 30 demo_salt LRZ_DECRYPT (mkWorld [0; 0; 5] [])
    = Done s w' /\
    secrets_held toy_sha512 demo_control demo_salt s /\
    key_locked s = true /\ iv_locked s = true /\
    lrz_crypt_frame toy_sha512 toy_aes_encrypt toy_aes_decrypt 512
      demo_stack_key demo_stack_iv
      demo_control demo_buf30 30 demo_salt LRZ_DECRYPT (mkWorld [0; 0; 5] [])
    = Done r w' /\
    crypt_ret r = false /\
    secrets_erased r.
Proof.
  destruct (lrz_crypt_erases_secrets toy_sha512 toy_aes_encrypt toy_aes_decrypt 512
              toy_sha512_length toy_aes_encrypt_length toy_aes_decrypt_length
              demo_stack_key demo_stack_iv
              demo_control demo_buf30 30 demo_salt LRZ_DECRYPT (mkWorld [0; 0; 5] []))
    as (_ & Hpartial & Htotal).
  - reflexivity.
  - reflexivity.
  - destruct Htotal as (r & w' & E).
    + exact demo_valid_inputs.
    + reflexivity.
    + reflexivity.
    + split; vm_compute; [discriminate | reflexivity].
    + destruct (Hpartial r w' E) as (s & Es & Hkl & Hvl & Hheld & _ & _ & _ & Herased).
      exists s, r, w'. split; [exact Es|]. split; [exact (Hheld demo_valid_inputs)|].
      split; [exact Hkl|]. split; [exact Hvl|]. split; [exact E|].
      split; [|exact Herased].
      apply (f_equal (fun o => match o with
                               | Done r0 _ => crypt_ret r0
                               | Undefined => true
                               end)) in E.
      vm_compute in E. symmetry. exact E.
Defined.

(** A run on 30 bytes in which the last CBC pass of the stealing path
    fails. *)
Lemma lrz_crypt_cipher_calls_witness :
  exists r w',
    lrz_crypt toy_sha512 toy_aes_encrypt toy_aes_decrypt 512
      demo_control demo_buf30 30 demo_salt LRZ_DECRYPT
      (mkWorld [0; 0; 0; 0; 0; 0; 0; 0; 9] [])
    = Done r w' /\
    crypt_ret r = false /\
    extends cipher_call_ok (mkWorld [0; 0; 0; 0; 0; 0; 0; 0; 9] []) w'.
Proof.
  destruct (lrz_crypt toy_sha512 toy_aes_encrypt toy_aes_decrypt 512
              demo_control demo_buf30 30 demo_salt LRZ_DECRYPT
              (mkWorld [0; 0; 0; 0; 0; 0; 0; 0; 9] [])) as [r w'|] eqn:E.
  - exists r, w'. split; [reflexivity|]. split.
    + apply (f_equal (fun o => match o with
                               | Done r0 _ => crypt_ret r0
                               | Undefined => true
                               end)) in E.
      vm_compute in E. symmetry. exact E.
    + exact (lrz_crypt_cipher_calls toy_sha512 toy_aes_encrypt toy_aes_decrypt 512
               demo_control demo_buf30 30 demo_salt LRZ_DECRYPT _ r w' E).
  - vm_compute in E. discriminate E.
Defined.

(** C6 as stated fails: the handles are keyed with 16 bytes, not 32. *)
Lemma cipher_key_is_not_32_bytes :
  ~ (forall sha512 aes_encrypt_block aes_decrypt_block PASS_LEN
            control buf L salt dir w r w',
       lrz_crypt sha512 aes_encrypt_block aes_decrypt_block PASS_LEN
         control buf L salt dir w = Done r w' ->
       extends cipher_call_as_specified w w').
Proof.
  intros H.
  destruct (lrz_crypt toy_sha512 toy_aes_encrypt toy_aes_decrypt 512
              demo_control demo_buf16 16 demo_salt LRZ_ENCRYPT demo_world)
    as [r w'|] eqn:E.
  - destruct (H _ _ _ _ _ _ _ _ _ _ _ _ E) as (tr & Etr & Htr).
    apply (f_equal (fun o => match o with Done _ w1 => calls w1 | Undefined => [] end)) in E.
    rewrite Etr in E. cbn [demo_world calls app] in E.
    rewrite Forall_forall in Htr.
    specialize (Htr (cipher_setkey_call GCRY_CIPHER_MODE_CBC 16)).
    assert (Habs : 16 = 32); [|discriminate Habs].
    apply Htr. rewrite <- E. vm_compute.
    do 8 right. left. reflexivity.
  - vm_compute in E. discriminate E.
Qed.

Lemma lrz_stretch_rounds_witness :
  let rounds := counters 0 19 in
  lrz_stretch demo_control demo_world =
  Done (demo_control, Some (flat_map (spec_round_input demo_control) rounds))
       (mkWorld [] (md_open_call :: flat_map (spec_round_calls demo_control) rounds)) /\
  length rounds = 19%nat /\
  stretch_rounds demo_control = 19.
Proof.
  apply (lrz_stretch_rounds demo_control demo_world).
  - vm_compute. discriminate.
  - reflexivity.
  - split; vm_compute; discriminate.
  - reflexivity.
  - reflexivity.
Defined.

Lemma lrz_stretch_drops_digest_witness :
  exists control' ctx w' tr,
    lrz_stretch demo_control demo_world = Done (control', Some ctx) w' /\
    hash control' = hash demo_control /\
    calls w' = calls demo_world ++ tr /\
    ~ In md_read_call tr /\ ~ In md_close_call tr.
Proof.
  apply (lrz_stretch_drops_digest demo_control demo_world).
  - vm_compute. discriminate.
  - reflexivity.
  - split; vm_compute; discriminate.
  - reflexivity.
  - reflexivity.
Defined.

Lemma decrypt_header_codec_witness :
  let salt := block_salt demo_head in
  len (spec_pack_header demo_fields) = 25 /\
  block_salt (salt ++ spec_pack_header demo_fields) = salt /\
  exists r w',
    lrz_crypt toy_sha512 toy_aes_encrypt toy_aes_decrypt 512 demo_control
      (spec_pack_header demo_fields) 25 (salt ++ spec_pack_header demo_fields) LRZ_ENCRYPT demo_world
    = Done r w' /\
    len (crypt_buf r) = 25 /\
    decrypt_header toy_sha512 toy_aes_encrypt toy_aes_decrypt 512
      demo_control demo_head demo_fields LRZ_ENCRYPT demo_world =
    Done (crypt_ret r, salt ++ crypt_buf r,
          if crypt_ret r then spec_unpack_header (crypt_buf r) else demo_fields) w'.
Proof.
  apply (decrypt_header_codec toy_sha512 toy_aes_encrypt toy_aes_decrypt 512
           toy_sha512_length toy_aes_encrypt_length toy_aes_decrypt_length).
  - reflexivity.
  - exact demo_head_valid.
  - reflexivity.
Defined.

Lemma decrypt_header_failure_keeps_fields_witness :
  exists head' f' w',
    decrypt_header toy_sha512 toy_aes_encrypt toy_aes_decrypt 512
      demo_control demo_head demo_fields LRZ_DECRYPT (mkWorld [0; 1] [])
    = Done (false, head', f') w' /\
    f' = demo_fields.
Proof.
  destruct (decrypt_header toy_sha512 toy_aes_encrypt toy_aes_decrypt 512
              demo_control demo_head demo_fields LRZ_DECRYPT (mkWorld [0; 1] []))
    as [[[b head'] f'] w'|] eqn:E.
  - assert (Hb : b = false).
    { apply (f_equal (fun o => match o with
                               | Done (b0, _, _) _ => b0
                               | Undefined => false
                               end)) in E.
      vm_compute in E. symmetry. exact E. }
    subst b. exists head', f', w'. split; [reflexivity|].
    exact (decrypt_header_failure_keeps_fields toy_sha512 toy_aes_encrypt
             toy_aes_decrypt 512 demo_control demo_head demo_fields LRZ_DECRYPT
             (mkWorld [0; 1] []) head' f' w' E).
  - vm_compute in E. discriminate E.
Defined.

(** ** The further properties of the encryption layer on concrete inputs *)


Lemma lrz_crypt_calls_on_success_witness :
  exists r w',
    lrz_crypt toy_sha512 toy_aes_encrypt toy_aes_decrypt 512
      demo_control demo_buf30 30 demo_salt LRZ_DECRYPT demo_world
    = Done r w' /\
    calls w' =
      calls demo_world ++ keygen_calls toy_sha512 demo_control demo_salt
        ++ cipher_trace LRZ_DECRYPT 30 ++ cipher_closes LRZ_DECRYPT 30 /\
    status w' = skipn (length (cipher_trace LRZ_DECRYPT 30)) (tl (status demo_world)).
Proof.
  destruct (lrz_crypt toy_sha512 toy_aes_encrypt toy_aes_decrypt 512
              demo_control demo_buf30 30 demo_salt LRZ_DECRYPT demo_world)
    as [r w'|] eqn:E.
  - exists r, w'. split; [reflexivity|].
    apply (lrz_crypt_calls_on_success toy_sha512 toy_aes_encrypt toy_aes_decrypt 512
             toy_sha512_length toy_aes_encrypt_length toy_aes_decrypt_length
             demo_control demo_buf30 30 demo_salt LRZ_DECRYPT demo_world r w').
    + exact demo_valid_inputs.
    + reflexivity.
    + lia.
    + vm_compute. discriminate.
    + exact E.
    + apply (f_equal (fun o => match o with
                               | Done r0 _ => crypt_ret r0
                               | Undefined => false
                               end)) in E.
      vm_compute in E. symmetry. exact E.
  - vm_compute in E. discriminate E.
Defined.

(** The key of the CBC handle is refused: the run stops there, with no
    handle closed and the buffer as it was. *)
Lemma lrz_crypt_stops_at_first_failure_witness :
  exists r w' pre c rest,
    lrz_crypt toy_sha512 toy_aes_encrypt toy_aes_decrypt 512
      demo_control demo_buf30 30 demo_salt LRZ_ENCRYPT (mkWorld [0; 0; 5] [])
    = Done r w' /\
    cipher_trace LRZ_ENCRYPT 30 = pre ++ c :: rest /\
    calls w' = [] ++ keygen_calls toy_sha512 demo_control demo_salt ++ pre ++ [c] /\
    no_failure_in (firstn (length pre) [0; 5]) /\
    nth (length pre) [0; 5] 0 <> 0 /\
    (forall c', In c' (pre ++ [c]) -> is_close c' = false) /\
    ((length pre < 3)%nat -> crypt_buf r = demo_buf30).
Proof.
  destruct (lrz_crypt toy_sha512 toy_aes_encrypt toy_aes_decrypt 512
              demo_control demo_buf30 30 demo_salt LRZ_ENCRYPT (mkWorld [0; 0; 5] []))
    as [r w'|] eqn:E.
  - destruct (lrz_crypt_stops_at_first_failure toy_sha512 toy_aes_encrypt toy_aes_decrypt 512
                toy_sha512_length toy_aes_encrypt_length toy_aes_decrypt_length
                demo_control demo_buf30 30 demo_salt LRZ_ENCRYPT (mkWorld [0; 0; 5] []) r w')
      as (pre & c & rest & H).
    + exact demo_valid_inputs.
    + reflexivity.
    + lia.
    + vm_compute. discriminate.
    + exact E.
    + apply (f_equal (fun o => match o with
                               | Done r0 _ => crypt_ret r0
                               | Undefined => true
                               end)) in E.
      vm_compute in E. symmetry. exact E.
    + exists r, w', pre, c, rest. split; [reflexivity | exact H].
  - vm_compute in E. discriminate E.
Defined.

Lemma lrz_crypt_whole_blocks_is_cbc_witness :
  exists r w',
    lrz_crypt toy_sha512 toy_aes_encrypt toy_aes_decrypt 512
      demo_control demo_buf16 (len demo_buf16) demo_salt LRZ_VALIDATE demo_world
    = Done r w' /\
    crypt_ret r = true /\
    crypt_buf r =
      fst (cbc_decrypt toy_aes_decrypt (cipher_key toy_sha512 demo_control demo_salt)
             (cipher_iv toy_sha512 demo_control demo_salt)
             (Z.to_nat (len demo_buf16 / 16)) demo_buf16).
Proof.
  apply (lrz_crypt_whole_blocks_is_cbc toy_sha512 toy_aes_encrypt toy_aes_decrypt 512
           toy_sha512_length toy_aes_encrypt_length toy_aes_decrypt_length
           demo_control demo_buf16 demo_salt LRZ_VALIDATE demo_world).
  - exact demo_valid_inputs.
  - exact demo_world_ok.
  - reflexivity.
  - reflexivity.
Defined.


(** A passphrase of 600 bytes with [PASS_LEN] = 512. *)
Lemma lrz_keygen_overflows_on_long_passphrase_witness :
  lrz_keygen toy_sha512 512 (mkControl (hash demo_control) (zeros 600) 600 3)
    demo_salt (zeros 64) (zeros 64) demo_world = Undefined /\
  lrz_crypt toy_sha512 toy_aes_encrypt toy_aes_decrypt 512
    (mkControl (hash demo_control) (zeros 600) 600 3)
    demo_buf30 30 demo_salt LRZ_ENCRYPT demo_world = Undefined.
Proof.
  apply (lrz_keygen_overflows_on_long_passphrase toy_sha512 toy_aes_encrypt
           toy_aes_decrypt 512).
  - vm_compute. discriminate.
  - vm_compute. discriminate.
  - lia.
  - cbn [salt_pass_len]. lia.
Defined.

Lemma xor128_bytewise_involution_witness :
  let r := xor_bytes (slice demo_buf30 0 16) (slice demo_buf16 0 16)
           ++ slice demo_buf30 16 (len demo_buf30 - 16) in
  xor128 demo_buf30 demo_buf16 demo_world = Done r demo_world /\
  len r = len demo_buf30 /\
  xor128 r demo_buf16 demo_world = Done demo_buf30 demo_world.
Proof.
  apply (xor128_bytewise_involution demo_buf30 demo_buf16 demo_world).
  - vm_compute. discriminate.
  - vm_compute. discriminate.
Defined.


(** A header of the salt and 24 bytes. *)
Lemma decrypt_header_needs_a_whole_header_witness :
  decrypt_header toy_sha512 toy_aes_encrypt toy_aes_decrypt 512
    demo_control (demo_salt ++ zeros 24) demo_fields LRZ_DECRYPT demo_world
  = Undefined.
Proof.
  apply (decrypt_header_needs_a_whole_header toy_sha512 toy_aes_encrypt toy_aes_decrypt 512
           demo_control (demo_salt ++ zeros 24) demo_fields LRZ_DECRYPT demo_world).
  vm_compute. reflexivity.
Defined.


Lemma lrz_crypt_undefined_below_one_block_witness :
  lrz_crypt toy_sha512 toy_aes_encrypt toy_aes_decrypt 512
    demo_control demo_buf7 (len demo_buf7) demo_salt LRZ_DECRYPT demo_world
  = Undefined.
Proof.
  apply (lrz_crypt_undefined_below_one_block toy_sha512 toy_aes_encrypt toy_aes_decrypt 512
           toy_sha512_length toy_aes_encrypt_length toy_aes_decrypt_length).
  - exact demo_valid_inputs.
  - exact demo_world_ok.
  - split; vm_compute; discriminate.
Defined.

(** ** Memory sizing *)

Lemma round_to_page_eq P size :
  0 < P ->
  round_to_page P size =
  Some (if P * Z.quot size P =? 0 then P else P * Z.quot size P).
Proof.
  intros HP. unfold round_to_page.
  destruct (Z.eqb_spec P 0) as [|_]; [lia|].
  destruct (Z.eqb_spec P (-1)) as [|_]; [lia|]. rewrite andb_false_r.
  replace (size - Z.rem size P) with (P * Z.quot size P)
    by (pose proof (Z.quot_rem' size P); lia).
  reflexivity.
Qed.

(** A non-negative size: the closed form of the result. *)
Lemma round_to_page_nonneg P size :
  0 < P -> 0 <= size ->
  round_to_page P size = Some (if size <? P then P else P * (size / P)).
Proof.
  intros HP Hs. rewrite round_to_page_eq by exact HP.
  rewrite Z.quot_div_nonneg by lia. f_equal.
  destruct (Z.ltb_spec size P) as [Hlt | Hge].
  - rewrite Z.div_small by lia. rewrite Z.mul_0_r. reflexivity.
  - pose proof (Z.mul_succ_div_gt size P HP) as H.
    pose proof (Z.div_pos size P Hs HP) as Hq.
    destruct (Z.eqb_spec (P * (size / P)) 0) as [E | E]; [lia | reflexivity].
Qed.

(** The multiple of [P] just below or at [size]. *)
Lemma page_multiple P size :
  0 < P -> P <= size ->
  (P * (size / P)) mod P = 0 /\ P <= P * (size / P) /\
  P * (size / P) <= size < P * (size / P) + P.
Proof.
  intros HP Hs.
  pose proof (Z.mul_div_le size P HP) as H1.
  pose proof (Z.mul_succ_div_gt size P HP) as H2.
  assert (Hq : 1 <= size / P) by (apply Z.div_le_lower_bound; lia).
  split; [rewrite Z.mul_comm; apply Z.mod_mul; lia|].
  split; [nia | lia].
Qed.

(** X12.  With a positive page size, [round_to_page] takes a size of at
    least one page down to the multiple of the page size just below or at
    it, and a smaller size, zero included, up to one page: the result is
    never zero and never less than a page. *)
Theorem round_to_page_rounds_down P size :
  0 < P -> 0 <= size ->
  exists r,
    round_to_page P size = Some r /\
    r mod P = 0 /\ P <= r /\
    (P <= size -> r <= size < r + P) /\
    (size < P -> r = P).
Proof.
  intros HP Hs. rewrite round_to_page_nonneg by assumption.
  destruct (Z.ltb_spec size P) as [Hlt | Hge].
  - exists P. split; [reflexivity|]. split; [apply Z.mod_same; lia|].
    split; [lia|]. split; [lia | reflexivity].
  - destruct (page_multiple P size HP Hge) as (Hm & Hp & Hd).
    exists (P * (size / P)). split; [reflexivity|].
    split; [exact Hm|]. split; [exact Hp|]. split; [intros _; exact Hd | lia].
Qed.

Lemma round_to_page_rounds_down_witness :
  exists r,
    round_to_page 4096 10000 = Some r /\
    r mod 4096 = 0 /\ 4096 <= r /\
    (4096 <= 10000 -> r <= 10000 < r + 4096) /\
    (10000 < 4096 -> r = 4096).
Proof. apply (round_to_page_rounds_down 4096 10000); lia. Defined.

(** X13.  With a positive page size, what [round_to_page] returns, for a
    size of either sign, is a non-zero multiple of the page size that it
    maps to itself: rounding twice is rounding once. *)
Theorem round_to_page_idempotent P size r :
  0 < P -> round_to_page P size = Some r ->
  r <> 0 /\ Z.rem r P = 0 /\ round_to_page P r = Some r.
Proof.
  intros HP E. rewrite round_to_page_eq in E by exact HP.
  assert (Hr : r <> 0 /\ exists q, r = P * q).
  { destruct (Z.eqb_spec (P * Z.quot size P) 0) as [E0 | E0]; injection E as <-.
    - split; [lia|]. exists 1. lia.
    - split; [exact E0|]. eauto. }
  destruct Hr as [Hnz [q ->]].
  assert (Hrem : Z.rem (P * q) P = 0) by (rewrite Z.mul_comm; apply Z.rem_mul; lia).
  split; [exact Hnz|]. split; [exact Hrem|].
  rewrite round_to_page_eq by exact HP.
  replace (P * Z.quot (P * q) P) with (P * q)
    by (pose proof (Z.quot_rem' (P * q) P); lia).
  destruct (Z.eqb_spec (P * q) 0); [contradiction | reflexivity].
Qed.

(** A negative size is rounded towards zero. *)
Lemma round_to_page_idempotent_witness :
  round_to_page 4096 (-5000) = Some (-4096) /\
  -4096 <> 0 /\ Z.rem (-4096) 4096 = 0 /\ round_to_page 4096 (-4096) = Some (-4096).
Proof.
  split; [reflexivity|].
  apply (round_to_page_idempotent 4096 (-5000) (-4096)); [lia | reflexivity].
Defined.

(** X14.  With a page size that fits an [int] and a length that leaves
    room for one more page below 2^64, [round_up_page] returns the least
    multiple of the page size that is not below the length. *)
Theorem round_up_page_least_multiple control len_ :
  0 < page_size control < 2 ^ 31 -> 0 <= len_ -> len_ + page_size control <= 2 ^ 64 ->
  exists r,
    round_up_page control len_ = Some r /\
    r mod page_size control = 0 /\
    len_ <= r < len_ + page_size control.
Proof.
  intros HP Hl Hmax. unfold round_up_page.
  set (P := page_size control) in *.
  rewrite (to_size_t_small P) by lia.
  destruct (Z.eqb_spec P 0) as [|_]; [lia|].
  pose proof (Z.mod_pos_bound len_ P ltac:(lia)) as Hrem.
  rewrite to_int_small by lia.
  pose proof (Z.div_mod len_ P ltac:(lia)) as Hdm.
  destruct (Z.eqb_spec (len_ mod P) 0) as [E | E].
  - exists len_. split; [reflexivity|]. split; [exact E | lia].
  - exists (len_ + (P - len_ mod P)).
    rewrite to_size_t_small by lia. split; [reflexivity|].
    split; [|lia].
    replace (len_ + (P - len_ mod P)) with ((len_ / P + 1) * P) by lia.
    apply Z.mod_mul. lia.
Qed.

Lemma round_up_page_least_multiple_witness :
  exists r,
    round_up_page demo_settings 10000 = Some r /\
    r mod page_size demo_settings = 0 /\
    10000 <= r < 10000 + page_size demo_settings.
Proof.
  apply (round_up_page_least_multiple demo_settings 10000); cbn [page_size demo_settings]; lia.
Defined.

(** X15.  Within a page of 2^64, [round_up_page] wraps around: for a
    page size that is a power of two and a length above the last multiple
    of it below 2^64, the result is 0. *)
Theorem round_up_page_wraps_to_zero control k len_ :
  0 <= k < 31 -> page_size control = 2 ^ k ->
  2 ^ 64 - 2 ^ k < len_ < 2 ^ 64 ->
  round_up_page control len_ = Some 0.
Proof.
  intros Hk EP Hl. unfold round_up_page. rewrite EP.
  assert (HP : 0 < 2 ^ k < 2 ^ 31).
  { split; [apply Z.pow_pos_nonneg; lia|]. apply Z.pow_lt_mono_r; lia. }
  set (P := 2 ^ k) in *.
  assert (E64 : 2 ^ 64 = P * 2 ^ (64 - k)).
  { unfold P. rewrite <- Z.pow_add_r by lia. f_equal. lia. }
  rewrite (to_size_t_small P) by lia.
  destruct (Z.eqb_spec P 0) as [|_]; [lia|].
  assert (Erem : len_ mod P = len_ - (2 ^ 64 - P)).
  { symmetry. apply (Z.mod_unique_pos len_ P (2 ^ (64 - k) - 1)); lia. }
  rewrite Erem, to_int_small by lia.
  destruct (Z.eqb_spec (len_ - (2 ^ 64 - P)) 0) as [|_]; [lia|].
  f_equal. unfold to_size_t.
  replace (len_ + (P - (len_ - (2 ^ 64 - P)))) with (2 ^ 64) by lia.
  apply Z.mod_same. lia.
Qed.

Lemma round_up_page_wraps_to_zero_witness :
  round_up_page demo_settings (2 ^ 64 - 1) = Some 0.
Proof.
  apply (round_up_page_wraps_to_zero demo_settings 12 (2 ^ 64 - 1));
    [lia | reflexivity | lia].
Defined.

Lemma level_cases l : 1 <= l <= 9 ->
  l = 1 \/ l = 2 \/ l = 3 \/ l = 4 \/ l = 5 \/ l = 6 \/ l = 7 \/ l = 8 \/ l = 9.
Proof. lia. Qed.

Ltac each_level H :=
  apply level_cases in H;
  repeat (destruct H as [H | H]; [subst|]); [..|subst].

Lemma lzma_dict_size_mono l1 l2 :
  1 <= l1 -> l1 <= l2 -> l2 <= 9 ->
  2 ^ 16 <= lzma_dict_size l1 /\ lzma_dict_size l1 <= lzma_dict_size l2 /\
  lzma_dict_size l2 <= 2 ^ 27.
Proof.
  intros H1 H12 H2.
  assert (Hl1 : 1 <= l1 <= 9) by lia. assert (Hl2 : 1 <= l2 <= 9) by lia.
  clear H1 H2. revert H12.
  each_level Hl1; each_level Hl2; intros H12; try lia; vm_compute; intuition discriminate.
Qed.

Lemma zpaq_block_size_mono l1 l2 :
  1 <= l1 -> l1 <= l2 -> l2 <= 9 ->
  6 <= zpaq_block_size l1 /\ zpaq_block_size l1 <= zpaq_block_size l2 /\
  zpaq_block_size l2 <= 11.
Proof.
  intros H1 H12 H2.
  assert (Hl1 : 1 <= l1 <= 9) by lia. assert (Hl2 : 1 <= l2 <= 9) by lia.
  clear H1 H2. revert H12.
  each_level Hl1; each_level Hl2; intros H12; try lia; vm_compute; intuition discriminate.
Qed.

(** X16.  Under LZMA with no dictionary size set, [setup_overhead]
    chooses for the compression levels 1 to 9 a dictionary of 64 KiB to
    128 MiB that does not shrink as the level grows, and sets the overhead
    of a thread to 11.5 times the dictionary plus 6 MiB and 16 KiB. *)
Theorem setup_overhead_lzma zpaq c1 c2 :
  dictSize c1 = 0 -> dictSize c2 = 0 ->
  1 <= compression_level c1 -> compression_level c1 <= compression_level c2 ->
  compression_level c2 <= 9 ->
  exists c1' c2',
    setup_overhead true zpaq c1 = Some c1' /\
    setup_overhead true zpaq c2 = Some c2' /\
    2 ^ 16 <= dictSize c1' /\ dictSize c1' <= dictSize c2' /\ dictSize c2' <= 2 ^ 27 /\
    overhead c1' = dictSize c1' * 23 / 2 + 6 * 2 ^ 20 + 2 ^ 14 /\
    overhead c2' = dictSize c2' * 23 / 2 + 6 * 2 ^ 20 + 2 ^ 14 /\
    overhead c1' <= overhead c2'.
Proof.
  intros E1 E2 H1 H12 H2.
  destruct (lzma_dict_size_mono _ _ H1 H12 H2) as (Ha & Hb & Hc).
  unfold setup_overhead. rewrite E1, E2. cbn [Z.eqb].
  eexists _, _. split; [reflexivity|]. split; [reflexivity|].
  cbn [dictSize overhead set_overhead set_dictSize].
  set (d1 := lzma_dict_size (compression_level c1)) in *.
  set (d2 := lzma_dict_size (compression_level c2)) in *.
  rewrite !Z.quot_div_nonneg by lia.
  split; [exact Ha|]. split; [exact Hb|]. split; [exact Hc|].
  split; [reflexivity|]. split; [reflexivity|].
  assert (d1 * 23 / 2 <= d2 * 23 / 2) by (apply Z.div_le_mono; lia).
  lia.
Qed.

(** The levels 3 and 7: dictionaries of 1 MiB and of 32 MiB. *)
Lemma setup_overhead_lzma_witness :
  exists c1' c2',
    setup_overhead true false (set_compression_level 3 demo_settings) = Some c1' /\
    setup_overhead true false demo_settings = Some c2' /\
    2 ^ 16 <= dictSize c1' /\ dictSize c1' <= dictSize c2' /\ dictSize c2' <= 2 ^ 27 /\
    overhead c1' = dictSize c1' * 23 / 2 + 6 * 2 ^ 20 + 2 ^ 14 /\
    overhead c2' = dictSize c2' * 23 / 2 + 6 * 2 ^ 20 + 2 ^ 14 /\
    overhead c1' <= overhead c2'.
Proof.
  apply (setup_overhead_lzma false (set_compression_level 3 demo_settings) demo_settings);
    cbn; lia.
Defined.

(** X17.  Under ZPAQ with no block size set, [setup_overhead] uses the
    ZPAQ levels 3 to 5 only and, for the compression levels 1 to 9, a
    block size exponent of 6 to 11 that does not shrink as the level
    grows; the overhead is 2 to that exponent MiB, 64 MiB to 2 GiB. *)
Theorem setup_overhead_zpaq c1 c2 :
  zpaq_bs c1 = 0 -> zpaq_bs c2 = 0 ->
  1 <= compression_level c1 -> compression_level c1 <= compression_level c2 ->
  compression_level c2 <= 9 ->
  exists c1' c2',
    setup_overhead false true c1 = Some c1' /\
    setup_overhead false true c2 = Some c2' /\
    3 <= zpaq_level c1' /\ zpaq_level c1' <= zpaq_level c2' /\ zpaq_level c2' <= 5 /\
    6 <= zpaq_bs c1' /\ zpaq_bs c1' <= zpaq_bs c2' /\ zpaq_bs c2' <= 11 /\
    overhead c1' = 2 ^ zpaq_bs c1' * 2 ^ 20 /\
    overhead c2' = 2 ^ zpaq_bs c2' * 2 ^ 20 /\
    64 * 2 ^ 20 <= overhead c1' /\ overhead c1' <= overhead c2' /\
    overhead c2' <= 2 ^ 31.
Proof.
  intros E1 E2 H1 H12 H2.
  destruct (zpaq_block_size_mono _ _ H1 H12 H2) as (Ha & Hb & Hc).
  unfold setup_overhead. rewrite E1, E2. cbn [Z.eqb].
  cbn [zpaq_bs compression_level set_zpaq_bs set_zpaq_level].
  set (b1 := zpaq_block_size (compression_level c1)) in *.
  set (b2 := zpaq_block_size (compression_level c2)) in *.
  unfold shl_int.
  replace ((0 <=? b1) && (b1 <? 31)) with true by (symmetry; apply andb_true_iff; lia).
  replace ((0 <=? b2) && (b2 <? 31)) with true by (symmetry; apply andb_true_iff; lia).
  eexists _, _. split; [reflexivity|]. split; [reflexivity|].
  cbn [zpaq_level zpaq_bs overhead set_overhead set_zpaq_bs set_zpaq_level].
  rewrite !Z.shiftl_1_l.
  rewrite !Z.quot_div_nonneg by lia.
  assert (compression_level c1 / 4 <= compression_level c2 / 4)
    by (apply Z.div_le_mono; lia).
  assert (0 <= compression_level c1 / 4) by (apply Z.div_pos; lia).
  assert (compression_level c2 / 4 < 3)
    by (apply Z.div_lt_upper_bound; lia).
  assert (2 ^ 6 <= 2 ^ b1) by (apply Z.pow_le_mono_r; lia).
  assert (2 ^ b1 <= 2 ^ b2) by (apply Z.pow_le_mono_r; lia).
  assert (2 ^ b2 <= 2 ^ 11) by (apply Z.pow_le_mono_r; lia).
  repeat split; try lia.
Qed.

Lemma setup_overhead_zpaq_witness :
  exists c1' c2',
    setup_overhead false true (set_compression_level 5 demo_settings) = Some c1' /\
    setup_overhead false true demo_settings = Some c2' /\
    3 <= zpaq_level c1' /\ zpaq_level c1' <= zpaq_level c2' /\ zpaq_level c2' <= 5 /\
    6 <= zpaq_bs c1' /\ zpaq_bs c1' <= zpaq_bs c2' /\ zpaq_bs c2' <= 11 /\
    overhead c1' = 2 ^ zpaq_bs c1' * 2 ^ 20 /\
    overhead c2' = 2 ^ zpaq_bs c2' * 2 ^ 20 /\
    64 * 2 ^ 20 <= overhead c1' /\ overhead c1' <= overhead c2' /\
    overhead c2' <= 2 ^ 31.
Proof.
  apply (setup_overhead_zpaq (set_compression_level 5 demo_settings) demo_settings);
    cbn; lia.
Defined.

(** X18.  Where [long] is wider than 32 bits, [setup_ram] makes usable
    ram a third of the ram size, or a sixth when the output goes to stdout
    while compressing or while decompressing from stdin, and makes the
    largest chunk a multiple of the page size that is at least a page: the
    usable ram rounded down to a page when that is a page or more. *)
Theorem setup_ram_rounds_a_share_of_ram so si de te one_g P c :
  0 < P -> 0 <= ramsize c ->
  let share := if so && ((si && de) || negb (de || te)) then 6 else 3 in
  exists c',
    setup_ram so si de te false one_g P c = Some c' /\
    ramsize c' = ramsize c /\
    usable_ram c' = ramsize c / share /\
    maxram c' mod P = 0 /\ P <= maxram c' /\
    (P <= usable_ram c' -> maxram c' <= usable_ram c' < maxram c' + P).
Proof.
  intros HP Hr share. unfold setup_ram.
  set (cond := so && ((si && de) || negb (de || te))) in *.
  set (u := ramsize c / share).
  assert (Hu : 0 <= u) by (apply Z.div_pos; [lia | unfold share; destruct cond; lia]).
  assert (E : (if cond then set_maxram (Z.quot (ramsize c) 6) c
               else set_maxram (Z.quot (ramsize c) 3) c) = set_maxram u c).
  { unfold u, share. destruct cond; rewrite Z.quot_div_nonneg by lia; reflexivity. }
  rewrite E. cbn [maxram set_maxram set_usable_ram].
  rewrite (round_to_page_nonneg P u HP Hu). cbn [option_map].
  eexists. split; [reflexivity|].
  cbn [ramsize usable_ram maxram set_maxram set_usable_ram].
  split; [reflexivity|]. split; [reflexivity|].
  destruct (Z.ltb_spec u P) as [Hlt | Hge].
  - split; [apply Z.mod_same; lia|]. split; lia.
  - destruct (page_multiple P u HP Hge) as (Hm & Hp & Hd). auto.
Qed.

(** Compression to stdout: a sixth of the ram. *)
Lemma setup_ram_rounds_a_share_of_ram_witness :
  exists c',
    setup_ram true false false false false 1048576000 4096 demo_settings = Some c' /\
    ramsize c' = ramsize demo_settings /\
    usable_ram c' = ramsize demo_settings / 6 /\
    maxram c' mod 4096 = 0 /\ 4096 <= maxram c' /\
    (4096 <= usable_ram c' -> maxram c' <= usable_ram c' < maxram c' + 4096).
Proof.
  apply (setup_ram_rounds_a_share_of_ram true false false false 1048576000 4096
           demo_settings); cbn; lia.
Defined.

(** X19.  Where [long] has 32 bits, [setup_ram] never takes usable ram
    below 900000000 bytes, so that it exceeds the ram size on a machine
    with less; the largest chunk is a multiple of the page size, at least
    a page, and otherwise at most a third of the ram size and at most two
    thirds of [one_g]. *)
Theorem setup_ram_on_32_bits so si de te one_g P c :
  0 < P -> 0 <= ramsize c -> 0 <= one_g ->
  exists c',
    setup_ram so si de te true one_g P c = Some c' /\
    usable_ram c' = Z.max (ramsize c - 900000000) 900000000 /\
    900000000 <= usable_ram c' /\
    (ramsize c < 900000000 -> ramsize c < usable_ram c') /\
    maxram c' mod P = 0 /\ P <= maxram c' /\
    maxram c' <= Z.max P (Z.min (ramsize c / 3) (one_g * 2 / 3)).
Proof.
  intros HP Hr Hg. unfold setup_ram.
  set (cond := so && ((si && de) || negb (de || te))).
  set (m0 := if cond then ramsize c / 6 else ramsize c / 3).
  assert (Hm0 : 0 <= m0 <= ramsize c / 3).
  { unfold m0. destruct cond.
    - split; [apply Z.div_pos; lia|].
      apply Z.div_le_lower_bound; [lia|].
      pose proof (Z.mul_div_le (ramsize c) 6 ltac:(lia)). lia.
    - split; [apply Z.div_pos; lia | lia]. }
  assert (E : (if cond then set_maxram (Z.quot (ramsize c) 6) c
               else set_maxram (Z.quot (ramsize c) 3) c) = set_maxram m0 c).
  { unfold m0. destruct cond; rewrite Z.quot_div_nonneg by lia; reflexivity. }
  rewrite E. cbn [maxram ramsize usable_ram set_maxram set_usable_ram].
  rewrite (Z.quot_div_nonneg (one_g * 2)) by lia.
  set (u := Z.max (ramsize c - 900000000) 900000000).
  set (m := Z.min (Z.min m0 u) (one_g * 2 / 3)).
  assert (Hg3 : 0 <= one_g * 2 / 3) by (apply Z.div_pos; lia).
  assert (Hm : 0 <= m) by (unfold m, u; lia).
  rewrite (round_to_page_nonneg P m HP Hm). cbn [option_map].
  eexists. split; [reflexivity|].
  cbn [ramsize usable_ram maxram set_maxram set_usable_ram]. fold u.
  split; [reflexivity|]. split; [unfold u; lia|]. split; [unfold u; lia|].
  destruct (Z.ltb_spec m P) as [Hlt | Hge].
  - split; [apply Z.mod_same; lia|]. split; lia.
  - destruct (page_multiple P m HP Hge) as (Hmod & Hp & Hd).
    split; [exact Hmod|]. split; [exact Hp|]. unfold m in *. lia.
Qed.

(** A machine with 512 MB of ram. *)
Lemma setup_ram_on_32_bits_witness :
  exists c',
    setup_ram false false false false true 1048576000 4096
      (mkSettings 7 0 0 0 0 0 512000000 0 0 4096 0 0 0 0 None None) = Some c' /\
    usable_ram c' = Z.max (512000000 - 900000000) 900000000 /\
    900000000 <= usable_ram c' /\
    (512000000 < 900000000 -> 512000000 < usable_ram c') /\
    maxram c' mod 4096 = 0 /\ 4096 <= maxram c' /\
    maxram c' <= Z.max 4096 (Z.min (512000000 / 3) (1048576000 * 2 / 3)).
Proof.
  apply (setup_ram_on_32_bits false false false false 1048576000 4096
           (mkSettings 7 0 0 0 0 0 512000000 0 0 4096 0 0 0 0 None None)); cbn; lia.
Defined.

(** ** Temporary files *)

Lemma unlink_if_name name delete n :
  In n (unlink_if name delete) -> name = Some n /\ delete <> 0.
Proof.
  unfold unlink_if. destruct name as [m|]; [|intros []].
  destruct (Z.eqb_spec delete 0); cbn [negb]; [intros [] | intros [-> | []]; auto].
Qed.

(** X20.  [unlink_files] removes nothing but registered files whose
    delete flag is set: after any sequence of calls of [register_infile]
    and [register_outfile], a name given to [unlink] was registered with a
    non-zero flag by one of the calls, or was to be removed before them.
    A file registered with the flag 0 only, or a NULL name, is never
    removed. *)
Theorem unlink_files_only_flagged : forall regs control n,
  In n (unlink_files (fold_left register regs control)) ->
  In n (unlink_files control) \/
  exists delete, delete <> 0 /\
    (In (Infile (Some n) delete) regs \/ In (Outfile (Some n) delete) regs).
Proof.
  induction regs as [|r regs IH]; intros control n Hin.
  - left. exact Hin.
  - cbn [fold_left] in Hin. apply IH in Hin.
    destruct Hin as [Hin | (d & Hd & Hin)].
    + unfold unlink_files in Hin. apply in_app_or in Hin.
      destruct r as [name delete | name delete];
        cbn [register register_infile register_outfile
             util_infile util_outfile delete_infile delete_outfile] in Hin.
      * destruct Hin as [Hin | Hin].
        -- left. unfold unlink_files. apply in_or_app. left. exact Hin.
        -- apply unlink_if_name in Hin. destruct Hin as [-> Hd].
           right. exists delete. split; [exact Hd|]. left. left. reflexivity.
      * destruct Hin as [Hin | Hin].
        -- apply unlink_if_name in Hin. destruct Hin as [-> Hd].
           right. exists delete. split; [exact Hd|]. right. left. reflexivity.
        -- left. unfold unlink_files. apply in_or_app. right. exact Hin.
    + right. exists d. split; [exact Hd|].
      destruct Hin as [Hin | Hin]; [left | right]; right; exact Hin.
Qed.

(** An input file kept and an output file to be removed: only the
    output file is given to [unlink]. *)
Lemma unlink_files_only_flagged_witness :
  unlink_files
    (fold_left register [Infile (Some (str "in.tmp")) 0; Outfile (Some (str "out.tmp")) 1]
       (mkFiles None 0 None 0))
  = [str "out.tmp"] /\
  (In (str "out.tmp") (unlink_files (mkFiles None 0 None 0)) \/
   exists delete, delete <> 0 /\
     (In (Infile (Some (str "out.tmp")) delete)
         [Infile (Some (str "in.tmp")) 0; Outfile (Some (str "out.tmp")) 1] \/
      In (Outfile (Some (str "out.tmp")) delete)
         [Infile (Some (str "in.tmp")) 0; Outfile (Some (str "out.tmp")) 1])).
Proof.
  split; [reflexivity|].
  apply (unlink_files_only_flagged
           [Infile (Some (str "in.tmp")) 0; Outfile (Some (str "out.tmp")) 1]
           (mkFiles None 0 None 0) (str "out.tmp")).
  left. reflexivity.
Defined.

(** ** Random bytes *)

Lemma fill_random_spec os len_ : forall fuel i k buf,
  0 <= i -> i + Z.of_nat fuel = len_ -> len_ <= len buf ->
  fill_random fuel i len_ k os buf =
  Some (slice buf 0 i
        ++ map (fun j => byte.of_Z (random os (k + j))) (seq 0 fuel)
        ++ slice buf len_ (len buf - len_)).
Proof.
  induction fuel as [|fuel IH]; intros i k buf Hi Hf Hl.
  - cbn [fill_random seq map app]. f_equal.
    assert (i = len_) by lia. subst i.
    apply slice_split. pose proof (len_nonneg buf). lia.
  - cbn [fill_random].
    destruct (Z.ltb_spec i len_) as [Hlt | Hge]; [|lia].
    set (x := byte.of_Z (random os k)).
    rewrite store_ok by (change (len [x]) with 1; lia).
    assert (Hs : len (splice buf i [x]) = len buf)
      by (apply len_splice; change (len [x]) with 1; lia).
    rewrite IH by lia. f_equal. rewrite Hs.
    assert (Eb : buf = slice buf 0 i ++ slice buf i 1 ++ slice buf (i + 1) (len buf - i - 1))
      by (apply slice_split3; lia).
    assert (Hp : len (slice buf 0 i) = i) by (apply len_slice; lia).
    assert (Hm : len (slice buf i 1) = 1) by (apply len_slice; lia).
    assert (Ht : len (slice buf (i + 1) (len buf - i - 1)) = len buf - i - 1)
      by (apply len_slice; lia).
    set (p := slice buf 0 i) in *. set (t := slice buf (i + 1) (len buf - i - 1)) in *.
    assert (Es : splice buf i [x] = p ++ [x] ++ t).
    { rewrite Eb at 1. apply splice_app3; [exact Hp | exact Hm]. }
    rewrite Es.
    assert (E1 : slice (p ++ [x] ++ t) 0 (i + 1) = p ++ [x]).
    { rewrite (app_assoc p [x] t). apply slice_head. rewrite len_app. 
      change (len [x]) with 1. lia. }
    assert (E2 : slice (p ++ [x] ++ t) len_ (len buf - len_) = slice buf len_ (len buf - len_)).
    { rewrite (app_assoc p [x] t).
      assert (Hpx : len (p ++ [x]) = i + 1)
        by (rewrite len_app; change (len [x]) with 1; lia).
      replace len_ with ((i + 1) + (len_ - (i + 1))) at 1 by lia.
      rewrite (slice_after _ _ (i + 1)) by lia.
      unfold t. rewrite slice_slice by lia. f_equal. lia. }
    rewrite E1, E2. rewrite <- app_assoc. cbn [app seq map].
    rewrite Nat.add_0_r. fold x.
    rewrite <- seq_shift, map_map. do 3 f_equal.
    apply map_ext. intros j. do 2 f_equal. lia.
Qed.

(** X21.  When /dev/urandom cannot be opened, [get_rand] reports no
    failure: it returns true with the first [len] bytes of the buffer
    set to the low bytes of successive values of [random ()], and the rest
    of the buffer as it was. *)
Theorem get_rand_falls_back_to_random os buf len_ :
  open_fails os = true -> 0 <= len_ <= len buf ->
  get_rand os buf len_ =
  Some (true,
        map (fun j => byte.of_Z (random os j)) (seq 0 (Z.to_nat len_))
        ++ slice buf len_ (len buf - len_)).
Proof.
  intros Ho Hl. unfold get_rand. rewrite Ho.
  rewrite (fill_random_spec os len_ (Z.to_nat len_) 0 0 buf) by lia.
  reflexivity.
Qed.

Lemma get_rand_falls_back_to_random_witness :
  get_rand demo_no_urandom (zeros 6) 4 =
  Some (true,
        map (fun j => byte.of_Z (random demo_no_urandom j)) (seq 0 (Z.to_nat 4))
        ++ slice (zeros 6) 4 (len (zeros 6) - 4)).
Proof.
  apply (get_rand_falls_back_to_random demo_no_urandom (zeros 6) 4);
    [reflexivity | vm_compute; split; discriminate].
Defined.

(** X22.  When /dev/urandom opens, [get_rand] returns true only if the
    one call of [read] returned exactly [len] and [close] returned 0: a
    short read is a failure and is not retried; whatever [read] delivered
    is in the buffer either way. *)
Theorem get_rand_needs_a_full_read os buf len_ n data :
  open_fails os = false -> read_answer os (to_size_t len_) = (n, data) ->
  len data <= len buf ->
  exists b,
    get_rand os buf len_ = Some (b, splice buf 0 data) /\
    (b = true <-> n = len_ /\ close_answer os = 0).
Proof.
  intros Ho Er Hd. unfold get_rand. rewrite Ho, Er.
  rewrite store_ok by lia.
  destruct (Z.eqb_spec n len_) as [En | En]; cbn [negb].
  - destruct (Z.eqb_spec (close_answer os) 0) as [Ec | Ec]; cbn [negb].
    + exists true. split; [reflexivity|]. split; auto.
    + exists false. split; [reflexivity|]. split; [discriminate | intros [_ H]; contradiction].
  - exists false. split; [reflexivity|]. split; [discriminate | intros [H _]; contradiction].
Qed.

Lemma get_rand_needs_a_full_read_witness :
  exists b,
    get_rand demo_urandom (zeros 6) 4 = Some (b, splice (zeros 6) 0 (repeat Byte.xa5 4)) /\
    (b = true <-> 4 = 4 /\ close_answer demo_urandom = 0).
Proof.
  apply (get_rand_needs_a_full_read demo_urandom (zeros 6) 4 4 (repeat Byte.xa5 4));
    [reflexivity | reflexivity | vm_compute; discriminate].
Defined.

(** ** The configuration file *)

Lemma bytes_eqb_eq a : forall b, bytes_eqb a b = true -> a = b.
Proof.
  induction a as [|x a IH]; intros [|y b] H; cbn [bytes_eqb] in H;
    try discriminate; [reflexivity|].
  apply andb_true_iff in H. destruct H as [H1 H2].
  apply Byte.byte_dec_bl in H1. apply IH in H2. congruence.
Qed.

Lemma bytes_eqb_refl a : bytes_eqb a a = true.
Proof.
  induction a as [|x a IH]; [reflexivity|]. cbn [bytes_eqb].
  rewrite (Byte.byte_dec_lb (eq_refl x)). exact IH.
Qed.

Lemma isparameter_true p s :
  isparameter p s = true -> map tolower p = map tolower s.
Proof. apply bytes_eqb_eq. Qed.

(** A parameter that is one keyword is not another one: the tests of
    [parameter] against the other keywords of the chain are false. *)
Ltac not_this_keyword Hp :=
  match goal with
  | |- context [isparameter ?p (str ?s)] =>
      lazymatch type of Hp with map tolower p = _ => idtac end;
      let E := fresh "E" in
      destruct (isparameter p (str s)) eqn:E;
      [ exfalso; apply isparameter_true in E; rewrite Hp in E;
        vm_compute in E; discriminate E
      | ]
  | |- context [iscaseparameter ?p (str ?s)] =>
      lazymatch type of Hp with map tolower p = _ => idtac end;
      let E := fresh "E" in
      destruct (iscaseparameter p (str s)) eqn:E;
      [ exfalso; apply bytes_eqb_eq in E; rewrite E in Hp;
        vm_compute in Hp; discriminate Hp
      | ]
  end.

(** X23.  The parameter "encrypt" of the configuration file has no
    effect: whatever its value, "yes" included, the line leaves [control]
    as it was, and [FLAG_ENCRYPT] is not set.  The value is never looked
    at: the test for "YES" is made on the parameter name. *)
Theorem config_encrypt_has_no_effect h os control parameter parametervalue :
  isparameter parameter (str "encrypt") = true ->
  config_parameter h os control parameter parametervalue = Continue control.
Proof.
  intros Hp. unfold config_parameter. rewrite Hp.
  apply isparameter_true in Hp.
  repeat not_this_keyword Hp.
  reflexivity.
Qed.

Lemma config_encrypt_has_no_effect_witness :
  config_parameter demo_private_h (demo_conf_os []) demo_settings
    (str "Encrypt") (str "yes")
  = Continue demo_settings.
Proof.
  apply (config_encrypt_has_no_effect demo_private_h (demo_conf_os []) demo_settings
           (str "Encrypt") (str "yes")).
  reflexivity.
Defined.

Lemma last_char_test c v :
  v <> [] ->
  (bytes_eqb (skipn (length v - 1) v) [c] = true <-> ends_with c v).
Proof.
  intros Hv.
  destruct (exists_last Hv) as (p & x & ->).
  replace (length (p ++ [x]) - 1)%nat with (length p + 0)%nat
    by (rewrite length_app; cbn [length]; lia).
  rewrite skipn_app, skipn_all2 by lia.
  replace (length p + 0 - length p)%nat with 0%nat by lia.
  cbn [skipn app bytes_eqb]. rewrite andb_true_r.
  split.
  - intros H. apply Byte.byte_dec_bl in H. subst. exists p. reflexivity.
  - intros (q & E). apply app_inj_tail in E. destruct E as [_ ->].
    apply Byte.byte_dec_lb. reflexivity.
Qed.

Lemma directory_ends_with_slash os v :
  v <> [] -> malloc_fails os (len v + 2) = false ->
  exists d,
    directory os v = Some d /\
    ends_with Byte.x2f d /\
    (ends_with Byte.x2f v -> d = v) /\
    (~ ends_with Byte.x2f v -> d = v ++ [Byte.x2f]).
Proof.
  intros Hv Hm. unfold directory. rewrite Hm.
  change (str "/") with [Byte.x2f].
  destruct (bytes_eqb (skipn (length v - 1) v) [Byte.x2f]) eqn:E; cbn [negb].
  - apply (last_char_test _ _ Hv) in E.
    exists v. split; [reflexivity|]. split; [exact E|].
    split; [reflexivity | intros H; contradiction].
  - exists (v ++ [Byte.x2f]). split; [reflexivity|].
    split; [exists v; reflexivity|].
    split; [|reflexivity].
    intros H. apply (last_char_test _ _ Hv) in H. congruence.
Qed.

(** X24.  A directory of the configuration file is stored with one
    slash at its end: for the parameters "outputdirectory" and "tmpdir",
    in any mix of capitals, [control->outdir] or [control->tmpdir]
    becomes the value itself when it ends with a slash, and the value
    followed by a slash when it does not. *)
Theorem config_directory_ends_with_slash h os control parameter v :
  v <> [] -> malloc_fails os (len v + 2) = false ->
  exists d,
    ends_with Byte.x2f d /\
    (ends_with Byte.x2f v -> d = v) /\
    (~ ends_with Byte.x2f v -> d = v ++ [Byte.x2f]) /\
    (isparameter parameter (str "outputdirectory") = true ->
     config_parameter h os control parameter v = Continue (set_outdir (Some d) control)) /\
    (isparameter parameter (str "tmpdir") = true ->
     config_parameter h os control parameter v = Continue (set_tmpdir (Some d) control)).
Proof.
  intros Hv Hm.
  destruct (directory_ends_with_slash os v Hv Hm) as (d & Ed & H1 & H2 & H3).
  exists d. split; [exact H1|]. split; [exact H2|]. split; [exact H3|].
  split; intros Hp; unfold config_parameter; rewrite Hp;
    apply isparameter_true in Hp; repeat not_this_keyword Hp;
    rewrite Ed; reflexivity.
Qed.

Lemma config_directory_ends_with_slash_witness :
  exists d,
    ends_with Byte.x2f d /\
    (ends_with Byte.x2f (str "/tmp/out") -> d = str "/tmp/out") /\
    (~ ends_with Byte.x2f (str "/tmp/out") -> d = str "/tmp/out" ++ [Byte.x2f]) /\
    (isparameter (str "OutputDirectory") (str "outputdirectory") = true ->
     config_parameter demo_private_h (demo_conf_os []) demo_settings
       (str "OutputDirectory") (str "/tmp/out")
     = Continue (set_outdir (Some d) demo_settings)) /\
    (isparameter (str "OutputDirectory") (str "tmpdir") = true ->
     config_parameter demo_private_h (demo_conf_os []) demo_settings
       (str "OutputDirectory") (str "/tmp/out")
     = Continue (set_tmpdir (Some d) demo_settings)).
Proof.
  apply (config_directory_ends_with_slash demo_private_h (demo_conf_os []) demo_settings
           (str "OutputDirectory") (str "/tmp/out")).
  - discriminate.
  - reflexivity.
Defined.

Lemma in_range_test p lo hi :
  lo <= p <= hi -> (p <? lo) || (p >? hi) = false.
Proof.
  intros H. apply orb_false_iff. rewrite Z.gtb_ltb.
  split; apply Z.ltb_ge; lia.
Qed.

Lemma out_of_range_test p lo hi :
  p < lo \/ hi < p -> (p <? lo) || (p >? hi) = true.
Proof.
  intros H. apply orb_true_iff. rewrite Z.gtb_ltb.
  destruct H; [left | right]; apply Z.ltb_lt; lia.
Qed.

Lemma dictionary_size_value p :
  0 <= p <= 37 ->
  dictionary_size p = (2 + p mod 2) * 2 ^ (p / 2 + 11) /\
  4096 <= dictionary_size p < 2 ^ 31.
Proof.
  intros Hp. unfold dictionary_size.
  destruct (Z.eqb_spec p 40) as [|_]; [lia|].
  rewrite Z.quot_div_nonneg by lia.
  assert (E1 : Z.land p 1 = p mod 2) by (apply (Z.land_ones p 1); lia).
  pose proof (Z.mod_pos_bound p 2 ltac:(lia)) as Hm.
  assert (E2 : Z.lor 2 (Z.land p 1) = 2 + p mod 2).
  { rewrite E1. assert (H : p mod 2 = 0 \/ p mod 2 = 1) by lia.
    destruct H as [-> | ->]; reflexivity. }
  assert (H0 : 0 <= p / 2) by (apply Z.div_pos; lia).
  assert (H18 : p / 2 < 19) by (apply Z.div_lt_upper_bound; lia).
  rewrite E2, Z.shiftl_mul_pow2 by lia.
  assert (Hlo : 2 ^ 11 <= 2 ^ (p / 2 + 11)) by (apply Z.pow_le_mono_r; lia).
  assert (Hhi : 2 ^ (p / 2 + 11) <= 2 ^ 29) by (apply Z.pow_le_mono_r; lia).
  change (2 ^ 11) with 2048 in Hlo. change (2 ^ 29) with 536870912 in Hhi.
  set (e := 2 ^ (p / 2 + 11)) in *.
  assert (Hb : 4096 <= (2 + p mod 2) * e < 2 ^ 31) by nia.
  rewrite to_int_small by lia. rewrite Z.mod_small by lia.
  split; [reflexivity | exact Hb].
Qed.

(** X25.  The parameter "dictionarysize" takes a number p from 0 to 40
    and stores the dictionary size that it encodes: for p up to 37,
    (2 + p mod 2) * 2^(p / 2 + 11) bytes, from 4 KiB to under 2 GiB; for
    p = 40, 2^32 - 1.  A number below 0 or above 40 makes [read_config]
    return false and leaves the dictionary size as it was. *)
Theorem config_dictionary_size h os control parameter v p :
  isparameter parameter (str "dictionarysize") = true -> atoi v = Some p ->
  (forall z, 0 <= z < 2 ^ 32 -> dictSize_t h z = z) ->
  (0 <= p <= 37 ->
   config_parameter h os control parameter v =
   Continue (set_dictSize ((2 + p mod 2) * 2 ^ (p / 2 + 11)) control) /\
   4096 <= (2 + p mod 2) * 2 ^ (p / 2 + 11) < 2 ^ 31) /\
  (p = 40 ->
   config_parameter h os control parameter v =
   Continue (set_dictSize (2 ^ 32 - 1) control)) /\
  (p < 0 \/ 40 < p ->
   config_parameter h os control parameter v = Return_false control).
Proof.
  intros Hp Ev Ht.
  assert (E : config_parameter h os control parameter v =
              if (p <? 0) || (p >? 40) then Return_false control
              else Continue (set_dictSize (dictSize_t h (dictionary_size p)) control)).
  { unfold config_parameter. rewrite Hp.
    apply isparameter_true in Hp. repeat not_this_keyword Hp.
    rewrite Ev. reflexivity. }
  rewrite E. clear E.
  split; [|split].
  - intros Hr. destruct (dictionary_size_value p Hr) as [Ed Hb].
    rewrite in_range_test by lia.
    rewrite Ht by lia. rewrite Ed in *. auto.
  - intros ->. rewrite in_range_test by lia.
    change (dictionary_size 40) with (2 ^ 32 - 1).
    rewrite Ht by lia. reflexivity.
  - intros Hr. rewrite out_of_range_test by exact Hr. reflexivity.
Qed.

(** "dictionarysize = 12" asks for 2 * 2^17 bytes. *)
Lemma config_dictionary_size_witness :
  config_parameter demo_private_h (demo_conf_os []) demo_settings
    (str "dictionarysize") (str "12")
  = Continue (set_dictSize ((2 + 12 mod 2) * 2 ^ (12 / 2 + 11)) demo_settings) /\
  4096 <= (2 + 12 mod 2) * 2 ^ (12 / 2 + 11) < 2 ^ 31.
Proof.
  apply (config_dictionary_size demo_private_h (demo_conf_os []) demo_settings
           (str "dictionarysize") (str "12") 12).
  - reflexivity.
  - reflexivity.
  - intros z Hz. cbn [dictSize_t demo_private_h]. apply Z.mod_small. exact Hz.
  - lia.
Defined.

(** X26.  A dictionary size taken from the configuration file is kept by
    [setup_overhead]: under LZMA it is not replaced by the size that the
    compression level would choose, and the overhead is worked out from
    it. *)
Theorem configured_dictionary_size_is_kept h os zpaq control parameter v p :
  isparameter parameter (str "dictionarysize") = true -> atoi v = Some p ->
  (forall z, 0 <= z < 2 ^ 32 -> dictSize_t h z = z) ->
  0 <= p <= 37 ->
  exists control' control'',
    config_parameter h os control parameter v = Continue control' /\
    setup_overhead true zpaq control' = Some control'' /\
    dictSize control'' = (2 + p mod 2) * 2 ^ (p / 2 + 11) /\
    overhead control'' = dictSize control'' * 23 / 2 + 6 * 2 ^ 20 + 2 ^ 14.
Proof.
  intros Hp Ev Ht Hr.
  assert (E : config_parameter h os control parameter v =
              if (p <? 0) || (p >? 40) then Return_false control
              else Continue (set_dictSize (dictSize_t h (dictionary_size p)) control)).
  { unfold config_parameter. rewrite Hp.
    apply isparameter_true in Hp. repeat not_this_keyword Hp.
    rewrite Ev. reflexivity. }
  destruct (dictionary_size_value p Hr) as [Ed Hb].
  rewrite in_range_test in E by lia.
  rewrite Ht in E by lia. rewrite Ed in *.
  set (d := (2 + p mod 2) * 2 ^ (p / 2 + 11)) in *.
  eexists _, _. split; [exact E|].
  unfold setup_overhead. cbn [dictSize set_dictSize].
  destruct (Z.eqb_spec d 0) as [|_]; [lia|].
  split; [reflexivity|].
  cbn [dictSize overhead set_overhead set_dictSize].
  split; [reflexivity|].
  rewrite Z.quot_div_nonneg by lia. reflexivity.
Qed.

Lemma configured_dictionary_size_is_kept_witness :
  exists control' control'',
    config_parameter demo_private_h (demo_conf_os []) demo_settings
      (str "dictionarysize") (str "12") = Continue control' /\
    setup_overhead true false control' = Some control'' /\
    dictSize control'' = (2 + 12 mod 2) * 2 ^ (12 / 2 + 11) /\
    overhead control'' = dictSize control'' * 23 / 2 + 6 * 2 ^ 20 + 2 ^ 14.
Proof.
  apply (configured_dictionary_size_is_kept demo_private_h (demo_conf_os []) false
           demo_settings (str "dictionarysize") (str "12") 12).
  - reflexivity.
  - reflexivity.
  - intros z Hz. cbn [dictSize_t demo_private_h]. apply Z.mod_small. exact Hz.
  - lia.
Defined.

(** X27.  Deleting and replacing files must be asked for in capitals.
    The parameters "DELETEFILES" and "REPLACEFILE" are compared with their
    case, and so is their value "YES": in any other mix of capitals the
    parameter is not recognised, and with any other value nothing is
    done; in both cases [control] is left as it was. *)
Theorem config_delete_and_replace_need_capitals h os control parameter v :
  (isparameter parameter (str "DELETEFILES") = true ->
   config_parameter h os control parameter v =
   if iscaseparameter parameter (str "DELETEFILES") && iscaseparameter v (str "YES")
   then Continue (clear_flag (FLAG_KEEP_FILES h) control)
   else Continue control) /\
  (isparameter parameter (str "REPLACEFILE") = true ->
   config_parameter h os control parameter v =
   if iscaseparameter parameter (str "REPLACEFILE") && iscaseparameter v (str "YES")
   then Continue (set_flag (FLAG_FORCE_REPLACE h) control)
   else Continue control).
Proof.
  split; intros Hp; unfold config_parameter; apply isparameter_true in Hp.
  - destruct (iscaseparameter parameter (str "DELETEFILES")) eqn:Ec.
    + apply bytes_eqb_eq in Ec. subst parameter.
      destruct (iscaseparameter v (str "YES")); reflexivity.
    + repeat not_this_keyword Hp. reflexivity.
  - destruct (iscaseparameter parameter (str "REPLACEFILE")) eqn:Ec.
    + apply bytes_eqb_eq in Ec. subst parameter.
      destruct (iscaseparameter v (str "YES")); reflexivity.
    + repeat not_this_keyword Hp. reflexivity.
Qed.

(** "DeleteFiles = YES" deletes nothing. *)
Lemma config_delete_and_replace_need_capitals_witness :
  config_parameter demo_private_h (demo_conf_os []) demo_settings
    (str "DeleteFiles") (str "YES")
  = Continue demo_settings.
Proof.
  apply (proj1 (config_delete_and_replace_need_capitals demo_private_h (demo_conf_os [])
                  demo_settings (str "DeleteFiles") (str "YES"))).
  reflexivity.
Defined.

(** *** The last byte of the file *)

Lemma c_string_last c : c <> Byte.x00 -> forall X,
  (In Byte.x00 X /\ c_string (X ++ [c]) = c_string X) \/
  (~ In Byte.x00 X /\ c_string (X ++ [c]) = X ++ [c]).
Proof.
  intros Hc. induction X as [|x X IH].
  - right. split; [intros []|]. cbn [app c_string].
    destruct (Byte.eqb c Byte.x00) eqn:E; [|reflexivity].
    apply Byte.byte_dec_bl in E. contradiction.
  - cbn [app c_string].
    destruct (Byte.eqb x Byte.x00) eqn:E.
    + apply Byte.byte_dec_bl in E. left. split; [left; auto | reflexivity].
    + apply Byte.eqb_false in E.
      destruct IH as [[Hin ->] | [Hin ->]].
      * left. split; [right; exact Hin | reflexivity].
      * right. split; [|reflexivity]. intros [H | H]; [congruence | contradiction].
Qed.

Lemma config_line_last_char h os control X c c' :
  c <> Byte.x00 -> c' <> Byte.x00 ->
  config_line h os control (X ++ [c]) = config_line h os control (X ++ [c']).
Proof.
  intros Hc Hc'. unfold config_line.
  destruct (c_string_last c Hc X) as [[Hin E] | [Hin E]];
    destruct (c_string_last c' Hc' X) as [[Hin' E'] | [Hin' E']];
    try contradiction; rewrite E, E'; [reflexivity|].
  rewrite !length_app. cbn [length].
  replace (length X + 1 =? 0)%nat with false by (symmetry; apply Nat.eqb_neq; lia).
  cbn [negb]. rewrite !removelast_last. reflexivity.
Qed.

Lemma fgets_last c c' : forall s n, (0 < n)%nat ->
  (exists l r, fgets n (s ++ [c]) = (l, r ++ [c]) /\ fgets n (s ++ [c']) = (l, r ++ [c'])) \/
  (exists X, fgets n (s ++ [c]) = (X ++ [c], []) /\ fgets n (s ++ [c']) = (X ++ [c'], [])).
Proof.
  induction s as [|x s IH]; intros [|n] Hn; try lia.
  - right. exists []. cbn [app fgets].
    destruct (Byte.eqb c Byte.x0a), (Byte.eqb c' Byte.x0a), n; auto.
  - cbn [app fgets].
    destruct (Byte.eqb x Byte.x0a).
    + left. exists [x], s. auto.
    + destruct n as [|n].
      * left. exists [x], s. cbn [fgets]. auto.
      * destruct (IH (S n) ltac:(lia)) as [(l & r & E & E') | (X & E & E')];
          rewrite E, E'.
        -- left. exists (x :: l), r. auto.
        -- right. exists (x :: X). auto.
Qed.

Lemma config_lines_last_byte h os c c' :
  c <> Byte.x00 -> c' <> Byte.x00 ->
  forall fuel control stream,
    config_lines fuel h os control (stream ++ [c]) =
    config_lines fuel h os control (stream ++ [c']).
Proof.
  intros Hc Hc'. induction fuel as [|fuel IH]; intros control stream.
  - reflexivity.
  - cbn [config_lines].
    destruct (fgets_last c c' stream 254 ltac:(lia)) as [(l & r & E & E') | (X & E & E')].
    + destruct stream as [|x stream]; cbn [app] in *; rewrite E, E';
        destruct (config_line h os control l); auto.
    + assert (El : config_line h os control (X ++ [c]) = config_line h os control (X ++ [c']))
        by (apply config_line_last_char; assumption).
      destruct stream as [|x stream]; cbn [app] in *; rewrite E, E', El; reflexivity.
Qed.

Lemma config_parameter_malloc h os os' control parameter v :
  malloc_fails os' = malloc_fails os ->
  config_parameter h os' control parameter v = config_parameter h os control parameter v.
Proof.
  intros E. unfold config_parameter, directory. rewrite E. reflexivity.
Qed.

Lemma config_lines_malloc h os os' :
  malloc_fails os' = malloc_fails os ->
  forall fuel control stream,
    config_lines fuel h os' control stream = config_lines fuel h os control stream.
Proof.
  intros E. induction fuel as [|fuel IH]; intros control stream; [reflexivity|].
  cbn [config_lines]. destruct stream as [|x stream]; [reflexivity|].
  destruct (fgets 254 (x :: stream)) as [l r].
  unfold config_line.
  destruct (strtok _ _) as [[parameter rest]|]; [|apply IH].
  destruct (isspace _); [apply IH|].
  destruct (Byte.eqb _ _); [apply IH|].
  destruct (strtok rest _) as [[parametervalue rest']|]; [|apply IH].
  rewrite (config_parameter_malloc h os os') by exact E.
  destruct (config_parameter h os control parameter parametervalue); auto.
Qed.

(** X28.  The last byte of the configuration file is never part of a
    setting: two files that differ in their last byte only, neither byte
    being zero, are read alike.  So a last line that is not ended by a
    newline is read without its last character. *)
Theorem read_config_drops_last_byte h os os' control stream c c' :
  c <> Byte.x00 -> c' <> Byte.x00 ->
  open_config os = Some (stream ++ [c]) ->
  open_config os' = Some (stream ++ [c']) ->
  malloc_fails os' = malloc_fails os -> fclose_fails os' = fclose_fails os ->
  read_config h os' control = read_config h os control.
Proof.
  intros Hc Hc' Eo Eo' Em Ef. unfold read_config.
  rewrite Eo, Eo', Ef, !length_app. cbn [length].
  rewrite (config_lines_malloc h os os' Em).
  rewrite (config_lines_last_byte h os c' c Hc' Hc).
  reflexivity.
Qed.

(** A file that holds "window = 20" and no newline sets the window to 2,
    as the file that holds "window = 2" and a newline does. *)
Lemma read_config_drops_last_byte_witness :
  read_config demo_private_h (demo_conf_os (str "window = 2" ++ [Byte.x0a])) demo_settings
  = read_config demo_private_h (demo_conf_os (str "window = 2" ++ [Byte.x30])) demo_settings /\
  read_config demo_private_h (demo_conf_os (str "window = 20")) demo_settings
  = Some (true, set_window 2 demo_settings).
Proof.
  split; [|reflexivity].
  apply (read_config_drops_last_byte demo_private_h
           (demo_conf_os (str "window = 2" ++ [Byte.x30]))
           (demo_conf_os (str "window = 2" ++ [Byte.x0a]))
           demo_settings (str "window = 2") Byte.x30 Byte.x0a);
    first [discriminate | reflexivity].
Defined.
